(** * Resume upload pipeline: text extraction and heuristic field parsing

    A shallow embedding of [server/fileHandlers.ts], [server/resumeParser.ts]
    and [client/src/utils/resumeParser.ts], and of the job search built on
    them: [server/jobSearch.ts], the file filter and the job title query of
    [server/routes.ts], and the paging, retrying and skill matching of
    [client/src/components/JobSearch.tsx] and
    [client/src/components/JobDetails.tsx].

    JavaScript strings are sequences of UTF-16 code units; every regular
    expression of the sources is compiled from its pattern text by a model of
    the ECMAScript pattern grammar and run by a backtracking matcher that
    follows the ECMAScript matcher semantics (continuations, greedy and lazy
    quantifiers, capture reset, leftmost search, [lastIndex] loops). *)

From Stdlib Require Import ZArith List Bool String Ascii Lia Arith.
From Stdlib Require DecimalString.
Import ListNotations.

(* ================================================================== *)
(** ** JavaScript runtime values used by the sources                  *)
(* ================================================================== *)

Module JS.

(** A UTF-16 code unit, [0 .. 0xFFFF]. *)
Definition char16 := Z.

(** A JavaScript string: its code units in order. [length] is [.length]. *)
Definition jsstring := list char16.

(** The code units of an ASCII literal of the source text. *)
Definition lit (s : string) : jsstring :=
  List.map (fun a => Z.of_N (N_of_ascii a)) (list_ascii_of_string s).

Definition char_eqb (a b : char16) : bool := Z.eqb a b.

Fixpoint str_eqb (a b : jsstring) : bool :=
  match a, b with
  | [], [] => true
  | x :: a', y :: b' => char_eqb x y && str_eqb a' b'
  | _, _ => false
  end.

Definition between (lo hi c : Z) : bool := Z.leb lo c && Z.leb c hi.

(** ECMAScript LineTerminator: LF, CR, LS, PS. *)
Definition isLineTerminator (c : char16) : bool :=
  Z.eqb c 10 || Z.eqb c 13 || Z.eqb c 8232 || Z.eqb c 8233.

(** ECMAScript WhiteSpace or LineTerminator: what [\s] matches and what
    [String.prototype.trim] strips. *)
Definition isWhiteSpace (c : char16) : bool :=
  between 9 13 c || Z.eqb c 32 || Z.eqb c 160 || Z.eqb c 5760
  || between 8192 8202 c || Z.eqb c 8232 || Z.eqb c 8233 || Z.eqb c 8239
  || Z.eqb c 8287 || Z.eqb c 12288 || Z.eqb c 65279.

Definition isDigit (c : char16) : bool := between 48 57 c.
Definition isUpper (c : char16) : bool := between 65 90 c.
Definition isLower (c : char16) : bool := between 97 122 c.

(** What [\w] matches: ASCII letters, digits and underscore. *)
Definition isWordChar (c : char16) : bool :=
  isLower c || isUpper c || isDigit c || Z.eqb c 95.

(** [String.prototype.trim]. *)
Fixpoint trimStart (s : jsstring) : jsstring :=
  match s with
  | c :: t => if isWhiteSpace c then trimStart t else s
  | [] => []
  end.

Definition trimEnd (s : jsstring) : jsstring := rev (trimStart (rev s)).

Definition trim (s : jsstring) : jsstring := trimEnd (trimStart s).

(** [s.startsWith(p)]. *)
Fixpoint startsWith (p s : jsstring) : bool :=
  match p, s with
  | [], _ => true
  | x :: p', y :: s' => char_eqb x y && startsWith p' s'
  | _ :: _, [] => false
  end.

(** [s.includes(p)]: [p] occurs in [s] at some index. *)
Fixpoint includes (s p : jsstring) : bool :=
  startsWith p s || match s with [] => false | _ :: t => includes t p end.

(** [new Set(array)] followed by a spread back into an array.  A [Set]
    keeps its members in insertion order and [add] is a no-op for a member
    already present (strings compare by their code units). *)
Definition Set_has (s : list jsstring) (x : jsstring) : bool :=
  existsb (str_eqb x) s.

Definition Set_add (s : list jsstring) (x : jsstring) : list jsstring :=
  if Set_has s x then s else s ++ [x].

Definition Set_of (l : list jsstring) : list jsstring :=
  fold_left Set_add l [].

(** Outcome of a JavaScript computation that may throw. *)
Inductive error :=
| TypeError (msg : jsstring)
| SyntaxError (msg : jsstring)
| RangeError (msg : jsstring)
| Error (msg : jsstring).

Inductive completion (A : Type) :=
| Return (v : A)
| Throw (e : error).
Arguments Return {A} v.
Arguments Throw {A} e.

Definition bind {A B} (c : completion A) (f : A -> completion B) : completion B :=
  match c with
  | Return v => f v
  | Throw e => Throw e
  end.

End JS.

(* ================================================================== *)
(** ** Regular expressions: pattern syntax                            *)
(* ================================================================== *)

Module RegExp.
Import JS.

(** A member of a character class. *)
Inductive cset :=
| CsChar (c : char16)
| CsRange (lo hi : char16)
| CsDigit (positive : bool)     (* \d, and \D when [positive = false] *)
| CsSpace (positive : bool)     (* \s, \S *)
| CsWord (positive : bool).     (* \w, \W *)

(** Abstract syntax of a pattern.  Capturing groups carry the number the
    pattern's left parentheses give them, counted from 1. *)
Inductive regex :=
| Empty
| Chr (c : char16)
| Any
| Class (invert : bool) (items : list cset)
| Seq (a b : regex)
| Alt (a b : regex)
| Group (i : nat) (a : regex)
| Repeat (a : regex) (min : nat) (max : option nat) (greedy : bool)
| LineStart
| LineEnd
| WordBoundary (positive : bool).

(** Outcome of compiling a pattern: the syntax tree, a [SyntaxError], or a
    construct of the ECMAScript grammar this model leaves out (look-around,
    back-references, named groups, numeric escapes); none of the patterns of
    the sources uses one, see [Patterns] below. *)
Inductive parsed (A : Type) :=
| Parsed (v : A)
| Invalid (why : string)
| NotModelled (what : string).
Arguments Parsed {A} v.
Arguments Invalid {A} why.
Arguments NotModelled {A} what.

Definition ch (a : ascii) : char16 := Z.of_N (N_of_ascii a).
Definition isCh (a : ascii) (c : char16) : bool := Z.eqb c (ch a).

Definition digitValue (c : char16) : nat := Z.to_nat (c - 48).

(** Zero or more decimal digits, as a number. *)
Fixpoint decimal (inp : jsstring) (acc : nat) : nat * jsstring :=
  match inp with
  | c :: t => if isDigit c then decimal t (10 * acc + digitValue c) else (acc, inp)
  | [] => (acc, [])
  end.

Definition startsWithDigit (inp : jsstring) : bool :=
  match inp with c :: _ => isDigit c | [] => false end.

Inductive quantifier :=
| QNone
| QBad (why : string)
| QRange (min : nat) (max : option nat) (rest : jsstring).

(** The text after [{]: [n}], [n,}] or [n,m}].  Anything else is not a
    quantifier (Annex B then reads the brace as a literal). *)
Definition braced (inp : jsstring) : quantifier :=
  if startsWithDigit inp then
    let '(n, r1) := decimal inp 0 in
    match r1 with
    | c :: r2 =>
        if isCh "}" c then QRange n (Some n) r2
        else if isCh "," c then
          match r2 with
          | d :: r3 =>
              if isCh "}" d then QRange n None r3
              else if isDigit d then
                let '(k, r4) := decimal r2 0 in
                match r4 with
                | e :: r5 =>
                    if isCh "}" e then
                      if Nat.ltb k n then QBad "numbers out of order in {} quantifier"
                      else QRange n (Some k) r5
                    else QNone
                | [] => QNone
                end
              else QNone
          | [] => QNone
          end
        else QNone
    | [] => QNone
    end
  else QNone.

Definition quantifierPrefix (inp : jsstring) : quantifier :=
  match inp with
  | c :: t =>
      if isCh "*" c then QRange 0 None t
      else if isCh "+" c then QRange 1 None t
      else if isCh "?" c then QRange 0 (Some 1) t
      else if isCh "{" c then braced t
      else QNone
  | [] => QNone
  end.

(** An atom followed by its optional quantifier and optional lazy mark. *)
Definition quantified (a : regex) (inp : jsstring) : parsed (regex * jsstring) :=
  match quantifierPrefix inp with
  | QNone => Parsed (a, inp)
  | QBad why => Invalid why
  | QRange mn mx r =>
      match r with
      | c :: t => if isCh "?" c then Parsed (Repeat a mn mx false, t)
                  else Parsed (Repeat a mn mx true, r)
      | [] => Parsed (Repeat a mn mx true, r)
      end
  end.

(** The character-class escapes [\d \D \s \S \w \W]. *)
Definition classEscape (c : char16) : option cset :=
  if isCh "d" c then Some (CsDigit true) else if isCh "D" c then Some (CsDigit false)
  else if isCh "s" c then Some (CsSpace true) else if isCh "S" c then Some (CsSpace false)
  else if isCh "w" c then Some (CsWord true) else if isCh "W" c then Some (CsWord false)
  else None.

(** The control escapes [\f \n \r \t \v]. *)
Definition controlEscape (c : char16) : option char16 :=
  if isCh "f" c then Some 12%Z else if isCh "n" c then Some 10%Z
  else if isCh "r" c then Some 13%Z else if isCh "t" c then Some 9%Z
  else if isCh "v" c then Some 11%Z else None.

(** Escapes with a numeric or named payload, left out of the model. *)
Definition payloadEscape (c : char16) : bool :=
  isDigit c || isCh "c" c || isCh "x" c || isCh "u" c || isCh "k" c || isCh "p" c || isCh "P" c.

(** One atom of a class: a set escape, or a single code unit. *)
Definition classAtom (inp : jsstring) : parsed (cset * jsstring) :=
  match inp with
  | [] => Invalid "Unterminated character class"
  | c :: t =>
      if isCh "\" c then
        match t with
        | [] => Invalid "\ at end of pattern"
        | e :: t' =>
            match classEscape e with
            | Some cs => Parsed (cs, t')
            | None =>
                match controlEscape e with
                | Some x => Parsed (CsChar x, t')
                | None =>
                    if isCh "b" e then Parsed (CsChar 8%Z, t')
                    else if payloadEscape e then NotModelled "numeric escape"
                    else Parsed (CsChar e, t')
                end
            end
        end
      else Parsed (CsChar c, t)
  end.

(** The members of a class up to its closing bracket. *)
Fixpoint classItems (fuel : nat) (inp : jsstring) (acc : list cset)
  : parsed (list cset * jsstring) :=
  match fuel with
  | O => NotModelled "class too long"
  | S f =>
      match inp with
      | [] => Invalid "Unterminated character class"
      | c :: t =>
          if isCh "]" c then Parsed (rev acc, t)
          else
            match classAtom inp with
            | Parsed (a, r1) =>
                match r1 with
                | d :: (e :: _) as r2 =>
                    if isCh "-" d && negb (isCh "]" e) then
                      match classAtom r2 with
                      | Parsed (b, r3) =>
                          match a, b with
                          | CsChar lo, CsChar hi =>
                              if Z.ltb hi lo then Invalid "Range out of order in character class"
                              else classItems f r3 (CsRange lo hi :: acc)
                          | _, _ => classItems f r3 (b :: CsChar (ch "-") :: a :: acc)
                          end
                      | Invalid w => Invalid w
                      | NotModelled w => NotModelled w
                      end
                    else classItems f r1 (a :: acc)
                | _ => classItems f r1 (a :: acc)
                end
            | Invalid w => Invalid w
            | NotModelled w => NotModelled w
            end
      end
  end.

Definition characterClass (inp : jsstring) : parsed (regex * jsstring) :=
  let '(inv, body) :=
    match inp with
    | c :: t => if isCh "^" c then (true, t) else (false, inp)
    | [] => (false, inp)
    end in
  match classItems (S (List.length body)) body [] with
  | Parsed (items, r) => Parsed (Class inv items, r)
  | Invalid w => Invalid w
  | NotModelled w => NotModelled w
  end.

(** An escape outside a class, after the backslash. *)
Definition atomEscape (inp : jsstring) : parsed (regex * jsstring) :=
  match inp with
  | [] => Invalid "\ at end of pattern"
  | e :: t =>
      if isCh "b" e then Parsed (WordBoundary true, t)
      else if isCh "B" e then Parsed (WordBoundary false, t)
      else
        match classEscape e with
        | Some cs => quantified (Class false [cs]) t
        | None =>
            match controlEscape e with
            | Some x => quantified (Chr x) t
            | None =>
                if payloadEscape e then NotModelled "numeric escape or back-reference"
                else quantified (Chr e) t
            end
        end
  end.

Definition andThen (a b : regex) : regex :=
  match a with Empty => b | _ => Seq a b end.

(** Disjunction, Alternative and Term of the pattern grammar.  [g] is the
    number of capturing groups opened so far. *)
Fixpoint disjunction (fuel : nat) (inp : jsstring) (g : nat) {struct fuel}
  : parsed (regex * jsstring * nat) :=
  match fuel with
  | O => NotModelled "pattern too long"
  | S f =>
      match alternative f inp g Empty with
      | Parsed (a, r, g1) =>
          match r with
          | c :: t =>
              if isCh "|" c then
                match disjunction f t g1 with
                | Parsed (b, r2, g2) => Parsed (Alt a b, r2, g2)
                | e => e
                end
              else Parsed (a, r, g1)
          | [] => Parsed (a, r, g1)
          end
      | e => e
      end
  end

with alternative (fuel : nat) (inp : jsstring) (g : nat) (acc : regex) {struct fuel}
  : parsed (regex * jsstring * nat) :=
  match fuel with
  | O => NotModelled "pattern too long"
  | S f =>
      match inp with
      | [] => Parsed (acc, [], g)
      | c :: _ =>
          if isCh "|" c || isCh ")" c then Parsed (acc, inp, g)
          else
            match term f inp g with
            | Parsed (a, r, g1) => alternative f r g1 (andThen acc a)
            | e => e
            end
      end
  end

with term (fuel : nat) (inp : jsstring) (g : nat) {struct fuel}
  : parsed (regex * jsstring * nat) :=
  let lift (p : parsed (regex * jsstring)) (g' : nat) :=
    match p with
    | Parsed (a, r) => Parsed (a, r, g')
    | Invalid w => Invalid w
    | NotModelled w => NotModelled w
    end in
  match fuel with
  | O => NotModelled "pattern too long"
  | S f =>
      match inp with
      | [] => Parsed (Empty, [], g)
      | c :: t =>
          if isCh "^" c then Parsed (LineStart, t, g)
          else if isCh "$" c then Parsed (LineEnd, t, g)
          else if isCh "*" c || isCh "+" c || isCh "?" c then Invalid "Nothing to repeat"
          else if isCh "{" c then
            match braced t with
            | QNone => lift (quantified (Chr c) t) g
            | _ => Invalid "Nothing to repeat"
            end
          else if isCh "." c then lift (quantified Any t) g
          else if isCh "\" c then lift (atomEscape t) g
          else if isCh "[" c then
            match characterClass t with
            | Parsed (a, r) => lift (quantified a r) g
            | Invalid w => Invalid w
            | NotModelled w => NotModelled w
            end
          else if isCh "(" c then
            match t with
            | q :: k :: t2 =>
                if isCh "?" q then
                  if isCh ":" k then
                    match disjunction f t2 g with
                    | Parsed (a, r, g1) =>
                        match r with
                        | p :: r' => if isCh ")" p then lift (quantified a r') g1
                                     else Invalid "Unterminated group"
                        | [] => Invalid "Unterminated group"
                        end
                    | e => e
                    end
                  else NotModelled "look-around or named group"
                else
                  match disjunction f t (S g) with
                  | Parsed (a, r, g1) =>
                      match r with
                      | p :: r' => if isCh ")" p then lift (quantified (Group (S g) a) r') g1
                                   else Invalid "Unterminated group"
                      | [] => Invalid "Unterminated group"
                      end
                  | e => e
                  end
            | _ =>
                match disjunction f t (S g) with
                | Parsed (a, r, g1) =>
                    match r with
                    | p :: r' => if isCh ")" p then lift (quantified (Group (S g) a) r') g1
                                 else Invalid "Unterminated group"
                    | [] => Invalid "Unterminated group"
                    end
                | e => e
                end
            end
          else lift (quantified (Chr c) t) g
      end
  end.

(** A compiled regular expression object. *)
Record RegExp := {
  pattern : regex;
  nGroups : nat;
  ignoreCase : bool;
  multiline : bool;
  global : bool
}.

Definition hasFlag (flags : string) (f : ascii) : bool :=
  existsb (Ascii.eqb f) (list_ascii_of_string flags).

(** [new RegExp(source, flags)] and regular-expression literals. *)
Definition compile (source : jsstring) (flags : string) : parsed RegExp :=
  match disjunction (4 * List.length source + 4) source 0 with
  | Parsed (r, [], g) =>
      Parsed {| pattern := r; nGroups := g;
                ignoreCase := hasFlag flags "i";
                multiline := hasFlag flags "m";
                global := hasFlag flags "g" |}
  | Parsed (_, _ :: _, _) => Invalid "Unmatched ')'"
  | Invalid w => Invalid w
  | NotModelled w => NotModelled w
  end.

(* ------------------------------------------------------------------ *)
(** *** Matching                                                      *)
(* ------------------------------------------------------------------ *)

(** A position of the matcher inside the subject string: the code unit
    just before it, the code units from it on, its offset from where the
    attempt started, and the captures made so far (latest first). *)
Record mstate := {
  prev : option char16;
  rest : jsstring;
  pos : nat;
  caps : list (nat * jsstring)
}.

Definition cont := mstate -> option mstate.

(** Canonicalize of the matcher without the [u] flag maps a code unit to
    its upper-case form, unless that form is longer than one code unit or is
    below 128 for a code unit from 128 on.  So, ignoring case, an ASCII
    character of a pattern meets the ASCII characters that differ from it by
    case at most, and no other code unit.  The patterns matched with [i] here
    hold ASCII characters only; the mapping of the code units from 128 on,
    which matters only when two of them are compared, is left as the
    identity. *)
Definition canonicalize (ic : bool) (c : char16) : char16 :=
  if ic && isLower c then (c - 32)%Z else c.

Definition swapCase (c : char16) : char16 :=
  if isLower c then (c - 32)%Z else if isUpper c then (c + 32)%Z else c.

(** [c] is, up to Canonicalize, a member of the class item [i].  The sets
    of [\d], [\s] and [\w] and their complements are closed under it. *)
Definition cset_mem (ic : bool) (i : cset) (c : char16) : bool :=
  match i with
  | CsChar a => Z.eqb (canonicalize ic a) (canonicalize ic c)
  | CsRange lo hi => between lo hi c || (ic && between lo hi (swapCase c))
  | CsDigit p => Bool.eqb p (isDigit c)
  | CsSpace p => Bool.eqb p (isWhiteSpace c)
  | CsWord p => Bool.eqb p (isWordChar c)
  end.

Definition class_mem (ic : bool) (inv : bool) (items : list cset) (c : char16) : bool :=
  xorb inv (existsb (fun i => cset_mem ic i c) items).

(** Consume one code unit accepted by [ok]. *)
Definition step (ok : char16 -> bool) (s : mstate) (k : cont) : option mstate :=
  match rest s with
  | c :: t =>
      if ok c
      then k {| prev := Some c; rest := t; pos := S (pos s); caps := caps s |}
      else None
  | [] => None
  end.

Fixpoint groupsOf (r : regex) : list nat :=
  match r with
  | Seq a b | Alt a b => groupsOf a ++ groupsOf b
  | Group i a => i :: groupsOf a
  | Repeat a _ _ _ => groupsOf a
  | _ => []
  end.

(** The captures of the groups inside a quantified atom are cleared at the
    start of each of its iterations. *)
Definition resetCaps (gs : list nat) (s : mstate) : mstate :=
  {| prev := prev s; rest := rest s; pos := pos s;
     caps := filter (fun e => negb (existsb (Nat.eqb (fst e)) gs)) (caps s) |}.

(** Group [i] captured the code units between [s] and [s1]. *)
Definition capture (i : nat) (s s1 : mstate) : mstate :=
  {| prev := prev s1; rest := rest s1; pos := pos s1;
     caps := (i, firstn (pos s1 - pos s) (rest s)) :: caps s1 |}.

Definition atLineStart (ml : bool) (s : mstate) : bool :=
  match prev s with
  | None => true
  | Some c => ml && isLineTerminator c
  end.

Definition atLineEnd (ml : bool) (s : mstate) : bool :=
  match rest s with
  | [] => true
  | c :: _ => ml && isLineTerminator c
  end.

Definition atWordBoundary (s : mstate) : bool :=
  xorb (match prev s with Some c => isWordChar c | None => false end)
       (match rest s with c :: _ => isWordChar c | [] => false end).

(** The iterations of a quantifier past its minimum, [body] being one
    iteration of the quantified atom.  Each has to consume at least one code
    unit (an empty iteration is rejected), so there are at most as many of
    them as code units are left: [room] starts at that number and goes down
    by one per iteration, and any larger bound gives the same result (lemma
    [quantifier_room]).  [left] is what the upper bound still allows.  A
    greedy quantifier tries one more iteration before the continuation, a
    lazy one the continuation first. *)
Fixpoint optionalReps (body : mstate -> cont -> option mstate) (greedy : bool)
         (k : cont) (room : nat) (left : option nat) (x : mstate) {struct room}
  : option mstate :=
  let again :=
    match room, left with
    | O, _ => None
    | S _, Some O => None
    | S room', _ =>
        body x (fun y => if Nat.ltb (pos x) (pos y)
                         then optionalReps body greedy k room' (option_map Nat.pred left) y
                         else None)
    end in
  if greedy
  then match again with Some z => Some z | None => k x end
  else match k x with Some z => Some z | None => again end.

(** The [n] mandatory iterations of a quantifier, then [after]. *)
Fixpoint requiredReps (body : mstate -> cont -> option mstate) (after : cont)
         (n : nat) (x : mstate) {struct n} : option mstate :=
  match n with
  | S n' => body x (requiredReps body after n')
  | O => after x
  end.

(** The matcher of a pattern, in continuation-passing style as in the
    language definition: [m r s k] tries [r] at [s] and hands every way of
    matching it to [k], in priority order, until [k] accepts one. *)
Fixpoint m (ic ml : bool) (r : regex) (s : mstate) (k : cont) {struct r}
  : option mstate :=
  match r with
  | Empty => k s
  | Chr a => step (fun c => Z.eqb (canonicalize ic a) (canonicalize ic c)) s k
  | Any => step (fun c => negb (isLineTerminator c)) s k
  | Class inv items => step (class_mem ic inv items) s k
  | Seq a b => m ic ml a s (fun s1 => m ic ml b s1 k)
  | Alt a b =>
      match m ic ml a s k with
      | Some z => Some z
      | None => m ic ml b s k
      end
  | Group i a => m ic ml a s (fun s1 => k (capture i s s1))
  | Repeat a mn mx greedy =>
      let body := fun x d => m ic ml a (resetCaps (groupsOf a) x) d in
      requiredReps body
        (fun x => optionalReps body greedy k (List.length (rest x))
                    (option_map (fun hi => hi - mn) mx) x)
        mn s
  | LineStart => if atLineStart ml s then k s else None
  | LineEnd => if atLineEnd ml s then k s else None
  | WordBoundary p => if Bool.eqb p (atWordBoundary s) then k s else None
  end.

(** One attempt of [re] at a position: before it lies [before] (its last
    code unit is what [^] and [\b] see), from it on [subject]. *)
Definition matchAt (re : RegExp) (before : option char16) (subject : jsstring)
  : option mstate :=
  m (ignoreCase re) (multiline re) (pattern re)
    {| prev := before; rest := subject; pos := 0; caps := [] |}
    (fun s => Some s).

(** The array returned by a successful [exec] or [match]: [index], the end
    of the match (the [lastIndex] a global expression is left with), element
    [0], and elements [1 ..], [None] standing for [undefined]. *)
Record MatchResult := {
  index : nat;
  endIndex : nat;
  matched : jsstring;
  groups : list (option jsstring)
}.

Fixpoint lookupCap (cs : list (nat * jsstring)) (i : nat) : option jsstring :=
  match cs with
  | (j, v) :: t => if Nat.eqb i j then Some v else lookupCap t i
  | [] => None
  end.

Definition resultOf (re : RegExp) (i : nat) (subject : jsstring) (s : mstate)
  : MatchResult :=
  {| index := i;
     endIndex := i + pos s;
     matched := firstn (pos s) subject;
     groups := List.map (fun g => lookupCap (caps s) (S g)) (seq 0 (nGroups re)) |}.

(** [match[n]] for [n >= 1]. *)
Definition group (r : MatchResult) (n : nat) : option jsstring :=
  nth (n - 1) (groups r) None.

(** The search loop of RegExpBuiltinExec: attempts at [i], [i + 1], ...,
    up to and including the end of the subject. *)
Fixpoint search (re : RegExp) (before : option char16) (subject : jsstring) (i : nat)
  : option MatchResult :=
  match matchAt re before subject with
  | Some s => Some (resultOf re i subject s)
  | None =>
      match subject with
      | [] => None
      | c :: t => search re (Some c) t (S i)
      end
  end.

Definition charBefore (text : jsstring) (i : nat) : option char16 :=
  match i with
  | O => None
  | S j => nth_error text j
  end.

(** [re.exec(text)] with [re.lastIndex = from] ([from] is 0 for an
    expression without the [g] flag). *)
Definition exec (re : RegExp) (text : jsstring) (from : nat) : option MatchResult :=
  if Nat.ltb (List.length text) from then None
  else search re (charBefore text from) (skipn from text) from.

(** [text.match(re)] for [re] without the [g] flag. *)
Definition String_match (text : jsstring) (re : RegExp) : option MatchResult :=
  exec re text 0.

(** [re.test(text)] for [re] without the [g] flag. *)
Definition test (re : RegExp) (text : jsstring) : bool :=
  match exec re text 0 with Some _ => true | None => false end.

(** The loop [while ((match = re.exec(text)) !== null) { ... }] over a
    global expression, collecting the successive results.  An expression
    that matched the empty string would leave [lastIndex] where it was and
    the loop would not end; [None] is the loop still running after [fuel]
    rounds. *)
Fixpoint execLoop (fuel : nat) (re : RegExp) (text : jsstring) (from : nat)
  : option (list MatchResult) :=
  match fuel with
  | O => None
  | S f =>
      match exec re text from with
      | None => Some []
      | Some r => option_map (cons r) (execLoop f re text (endIndex r))
      end
  end.

(** [text.split(re)] for a separator without capturing groups and no limit.
    The scan keeps the piece read so far (reversed) and, after a separator of
    [n + 1] code units matched, the [n] of them still to skip.  An empty
    match is ignored at the start of a piece and cuts the piece elsewhere. *)
Fixpoint splitLoop (re : RegExp) (before : option char16) (subject : jsstring)
         (piece : jsstring) (skip : nat) : list jsstring :=
  match subject with
  | [] => [rev piece]
  | c :: t =>
      match skip with
      | S n => splitLoop re (Some c) t piece n
      | O =>
          match matchAt re before subject with
          | None => splitLoop re (Some c) t (c :: piece) 0
          | Some s =>
              match pos s with
              | O =>
                  match piece with
                  | [] => splitLoop re (Some c) t [c] 0
                  | _ :: _ => rev piece :: splitLoop re (Some c) t [c] 0
                  end
              | S n => rev piece :: splitLoop re (Some c) t [] n
              end
          end
      end
  end.

Definition split (text : jsstring) (re : RegExp) : list jsstring :=
  match text with
  | [] => match matchAt re None [] with Some _ => [] | None => [[]] end
  | _ :: _ => splitLoop re None text [] 0
  end.

(** The value of a regular-expression literal of the source text.  A
    literal that is no pattern would keep the source file from loading; the
    literals of the sources all compile, see [literals_compile]. *)
Definition literal (source : jsstring) (flags : string) : RegExp :=
  match compile source flags with
  | Parsed re => re
  | _ => {| pattern := Class false []; nGroups := 0; ignoreCase := false;
            multiline := false; global := false |}
  end.

(** [new RegExp(source, flags)]: the expression, or a [SyntaxError].  The
    pattern texts the sources build stay inside the modelled grammar, see
    [companySource_compiles] and [keyword_sources_modelled]. *)
Definition RegExp_new (source : jsstring) (flags : string) : completion RegExp :=
  match compile source flags with
  | Parsed re => Return re
  | Invalid why => Throw (SyntaxError (lit "Invalid regular expression: " ++ lit why))
  | NotModelled what => Throw (Error (lit what))
  end.

End RegExp.

(* ================================================================== *)
(** ** [Buffer.prototype.toString('utf-8')]                           *)
(* ================================================================== *)

Module Utf8.
Import JS.
Local Open Scope Z_scope.

(** A [Buffer]: its bytes, each in [0 .. 255]. *)
Definition Buffer := list Z.

Definition REPLACEMENT : Z := 65533.

(** State of the decoder between two bytes: the code point under
    construction, how many continuation bytes it still needs, and the range
    the next byte has to lie in. *)
Record dstate := {
  codePoint : Z;
  needed : nat;
  lower : Z;
  upper : Z
}.

Definition idle : dstate :=
  {| codePoint := 0; needed := 0%nat; lower := 128; upper := 191 |}.

(** A byte read when no sequence is open: what it emits and the state it
    leaves. *)
Definition lead (b : Z) : list Z * dstate :=
  if between 0 127 b then ([b], idle)
  else if between 194 223 b then
    ([], {| codePoint := b - 192; needed := 1%nat; lower := 128; upper := 191 |})
  else if between 224 239 b then
    ([], {| codePoint := b - 224; needed := 2%nat;
            lower := if Z.eqb b 224 then 160 else 128;
            upper := if Z.eqb b 237 then 159 else 191 |})
  else if between 240 244 b then
    ([], {| codePoint := b - 240; needed := 3%nat;
            lower := if Z.eqb b 240 then 144 else 128;
            upper := if Z.eqb b 244 then 143 else 191 |})
  else ([REPLACEMENT], idle).

(** The decoder: a malformed or truncated sequence yields one U+FFFD and
    the byte that broke it is read again as a lead byte.  It has no failing
    case. *)
Fixpoint decode (bytes : Buffer) (st : dstate) : list Z :=
  match bytes with
  | [] => match needed st with O => [] | S _ => [REPLACEMENT] end
  | b :: t =>
      match needed st with
      | O => let '(out, st') := lead b in out ++ decode t st'
      | S n =>
          if between (lower st) (upper st) b then
            let cp := codePoint st * 64 + (b - 128) in
            match n with
            | O => cp :: decode t idle
            | S _ => decode t {| codePoint := cp; needed := n; lower := 128; upper := 191 |}
            end
          else
            let '(out, st') := lead b in REPLACEMENT :: out ++ decode t st'
      end
  end.

(** The code units of a code point in a JavaScript string. *)
Definition utf16 (cp : Z) : jsstring :=
  if Z.ltb cp 65536 then [cp]
  else [55296 + (cp - 65536) / 1024; 56320 + (cp - 65536) mod 1024].

Definition toString (buf : Buffer) : jsstring :=
  flat_map utf16 (decode buf idle).

(** A Unicode scalar value: a code point that is not a surrogate. *)
Definition scalar (cp : Z) : Prop :=
  0 <= cp < 55296 \/ 57344 <= cp <= 1114111.

(** The UTF-8 encoding of a scalar value, the reference against which the
    decoder is checked. *)
Definition encode1 (cp : Z) : Buffer :=
  if Z.ltb cp 128 then [cp]
  else if Z.ltb cp 2048 then [192 + cp / 64; 128 + cp mod 64]
  else if Z.ltb cp 65536 then
    [224 + cp / 4096; 128 + (cp / 64) mod 64; 128 + cp mod 64]
  else
    [240 + cp / 262144; 128 + (cp / 4096) mod 64; 128 + (cp / 64) mod 64;
     128 + cp mod 64].

Definition encode (cps : list Z) : Buffer := flat_map encode1 cps.

(** The code points of a JavaScript string: a high surrogate followed by a
    low one stands for one code point above U+FFFF. *)
Fixpoint codePoints (s : jsstring) : list Z :=
  match s with
  | [] => []
  | hi :: t =>
      match t with
      | lo :: t' =>
          if between 55296 56319 hi && between 56320 57343 lo
          then (65536 + (hi - 55296) * 1024 + (lo - 56320)) :: codePoints t'
          else hi :: codePoints t
      | [] => [hi]
      end
  end.

End Utf8.

(* ================================================================== *)
(** ** server/fileHandlers.ts                                         *)
(* ================================================================== *)

Module FileHandlers.
Import JS Utf8.

(** What a handler leaves behind: the lines it wrote with [console.error]
    and its completion. *)
Definition outcome (A : Type) : Type := list jsstring * completion A.

Definition PDF_SENTINEL : jsstring :=
  lit "Error: Could not extract text from this PDF. The file may be corrupted, password-protected, or in an unsupported format.".

Definition DOCX_SENTINEL : jsstring :=
  lit "Error: Could not extract text from this DOCX file. The file may be corrupted or in an unsupported format.".

Definition TXT_SENTINEL : jsstring :=
  lit "Error: Could not extract text from this TXT file. The file may be corrupted or in an unsupported format.".

Definition MIME_PDF : jsstring := lit "application/pdf".
Definition MIME_DOCX : jsstring :=
  lit "application/vnd.openxmlformats-officedocument.wordprocessingml.document".
Definition MIME_TXT : jsstring := lit "text/plain".

Section Decoders.

(** The external decoders: [pdf(buffer)] of pdf-parse and
    [mammoth.extractRawText({buffer})], each giving the text or throwing. *)
Variable pdf : Buffer -> completion jsstring.
Variable mammoth_extractRawText : Buffer -> completion jsstring.

Definition extractTextFromPDF (buffer : Buffer) : outcome jsstring :=
  match pdf buffer with
  | Return text => ([], Return text)
  | Throw _ => ([lit "Error extracting text from PDF:"], Return PDF_SENTINEL)
  end.

Definition extractTextFromDOCX (buffer : Buffer) : outcome jsstring :=
  match mammoth_extractRawText buffer with
  | Return value => ([], Return value)
  | Throw _ => ([lit "Error extracting text from DOCX:"], Return DOCX_SENTINEL)
  end.

(** [buffer.toString('utf-8')], the lossy decoding of the buffer.  Node
    refuses to build a string longer than the engine allows, which takes a
    buffer far larger than the 10 MiB that the upload route lets through;
    the embedding covers the buffers below that length. *)
Definition Buffer_toString (buffer : Buffer) : completion jsstring :=
  Return (Utf8.toString buffer).

Definition extractTextFromTXT (buffer : Buffer) : outcome jsstring :=
  match Buffer_toString buffer with
  | Return text => ([], Return text)
  | Throw _ => ([lit "Error extracting text from TXT:"], Return TXT_SENTINEL)
  end.

Definition extractTextFromFile (buffer : Buffer) (contentType : jsstring)
  : outcome jsstring :=
  if str_eqb contentType MIME_PDF then extractTextFromPDF buffer
  else if str_eqb contentType MIME_DOCX then extractTextFromDOCX buffer
  else if str_eqb contentType MIME_TXT then extractTextFromTXT buffer
  else ([], Throw (Error (lit "Unsupported file type: " ++ contentType))).

End Decoders.

End FileHandlers.

(* ================================================================== *)
(** ** server/resumeParser.ts                                         *)
(* ================================================================== *)

Module ResumeParser.
Import JS RegExp.

Definition LF : jsstring := [10%Z].

(** The pattern texts of the regular-expression literals, as written
    between the slashes, and the expressions they denote. *)

Definition nameSource : string := "^([A-Z][a-z]+(?:\s+[A-Z][a-z]+){1,2})".
Definition nameRe : RegExp := Eval vm_compute in literal (lit nameSource) "m".

Definition emailSource : string := "[\w._%+-]+@[\w.-]+\.[a-zA-Z]{2,}".
Definition emailRe : RegExp := Eval vm_compute in literal (lit emailSource) "".

Definition phoneSource : string :=
  "(\+\d{1,2}\s?)?(\(\d{3}\)|\d{3})[-.\s]?\d{3}[-.\s]?\d{4}".
Definition phoneRe : RegExp := Eval vm_compute in literal (lit phoneSource) "".

Definition degreeSources : list string :=
  [ "(?:B\.?S\.?|Bachelor of Science|Bachelor'?s Degree)(?:\sin\s|\s-\s)?([^,\n.]+)";
    "(?:B\.?A\.?|Bachelor of Arts|Bachelor'?s Degree)(?:\sin\s|\s-\s)?([^,\n.]+)";
    "(?:M\.?S\.?|Master of Science|Master'?s Degree)(?:\sin\s|\s-\s)?([^,\n.]+)";
    "(?:M\.?B\.?A\.?|Master of Business Administration)";
    "(?:Ph\.?D\.?|Doctor of Philosophy)(?:\sin\s|\s-\s)?([^,\n.]+)";
    "(?:M\.?D\.?|Doctor of Medicine)";
    "(?:J\.?D\.?|Juris Doctor)" ]%string.

Definition degreePatterns : list RegExp :=
  Eval vm_compute in List.map (fun src => literal (lit src) "gi") degreeSources.

(** The separator of [match[0].split(/\sin\s|\s-\s/)]. *)
Definition inOrDashSource : string := "\sin\s|\s-\s".
Definition inOrDashRe : RegExp := Eval vm_compute in literal (lit inOrDashSource) "".

Definition skillSources : list string :=
  [ (* Programming languages *)
    "(?:JavaScript|TypeScript|Python|Java|C\+\+|C#|Ruby|PHP|Swift|Kotlin|Go|Rust|SQL|HTML|CSS)";
    (* Frameworks and libraries *)
    "(?:React|Angular|Vue\.?js|Node\.?js|Express|Django|Flask|Spring|Laravel|Ruby on Rails|TensorFlow|PyTorch|Pandas|NumPy)";
    (* Databases *)
    "(?:MongoDB|MySQL|PostgreSQL|Oracle|SQL Server|Redis|Cassandra|DynamoDB)";
    (* Cloud services *)
    "(?:AWS|Amazon Web Services|Azure|Google Cloud|GCP|Heroku|Firebase)";
    (* DevOps *)
    "(?:Docker|Kubernetes|Jenkins|CI\/CD|Git|GitHub|GitLab|Terraform)";
    (* Design *)
    "(?:Photoshop|Illustrator|Figma|Sketch|UI\/UX|Adobe XD)";
    (* Soft skills *)
    "(?:Leadership|Communication|Teamwork|Problem[\s-]Solving|Critical Thinking|Project Management|Agile|Scrum)" ]%string.

Definition skillPatterns : list RegExp :=
  Eval vm_compute in List.map (fun src => literal (lit src) "gi") skillSources.

Definition skillsSectionSource : string :=
  "skills(?:[\s\n]*:[\s\n]*|[\s\n]+)([\s\S]*?)(?:\n\n|\n[A-Z])".
Definition skillsSectionRe : RegExp :=
  Eval vm_compute in literal (lit skillsSectionSource) "i".

(** The separator of the skills block as the source file holds it: between
    the comma and [\n] the class lists the three code units U+00E2, U+20AC
    and U+00A2. *)
Definition skillSeparatorSource : jsstring :=
  lit "[," ++ [226; 8364; 162]%Z ++ lit "\n]+".
Definition skillSeparatorRe : RegExp :=
  Eval vm_compute in literal skillSeparatorSource "".

Definition experienceSource : string :=
  "(\d+)(?:\+)?\s+years?(?:\s+of)?\s+experience".
Definition experienceRe : RegExp :=
  Eval vm_compute in literal (lit experienceSource) "i".

Definition positions : list jsstring :=
  List.map lit
    [ "Software Engineer"; "Software Developer"; "Front-end Developer";
      "Back-end Developer"; "Full-stack Developer"; "Data Scientist";
      "Data Engineer"; "Machine Learning Engineer"; "DevOps Engineer";
      "Product Manager"; "Project Manager"; "UX Designer"; "UI Designer" ]%string.

Definition experienceSectionSource : string :=
  "experience(?:[\s\n]*:[\s\n]*|[\s\n]+)([\s\S]*?)(?:\n\n|\n[A-Z])".
Definition experienceSectionRe : RegExp :=
  Eval vm_compute in literal (lit experienceSectionSource) "i".

Definition jobSource : string := "^([\w\s]+)(?:\s+(?:at|@|\|)\s+([\w\s&]+))?".
Definition jobRe : RegExp := Eval vm_compute in literal (lit jobSource) "m".

(** The pattern text built by the template literal
    [`${position}[\\s\n]+(?:at|@|\\|)\\s+([\\w\\s&]+)`]: the [\n] of the
    template is a line feed inside the class. *)
Definition companySource (position : jsstring) : jsstring :=
  position ++ lit "[\s" ++ LF ++ lit "]+(?:at|@|\|)\s+([\w\s&]+)".

(** The fields [parseResumeText] may set on its initially empty object. *)
Record PartialResume := {
  name : option jsstring;
  email : option jsstring;
  phone : option jsstring;
  qualifications : option (list jsstring);
  skills : option (list jsstring);
  totalYears : option jsstring;
  lastPosition : option jsstring
}.

(** A string in a condition: true unless empty. *)
Definition truthy (s : jsstring) : bool :=
  match s with [] => false | _ :: _ => true end.

(** [v.trim()] where [v] may be [undefined]. *)
Definition trimOf (v : option jsstring) : completion jsstring :=
  match v with
  | Some s => Return (trim s)
  | None => Throw (TypeError (lit "Cannot read properties of undefined (reading 'trim')"))
  end.

(** [for (const pattern of patterns) while ((match = pattern.exec(text)) !== null) push(entry(match))]:
    the entries pushed, in order; [None] when a [while] loop is still running
    after [fuel] rounds. *)
Fixpoint collect (fuel : nat) (patterns : list RegExp) (text : jsstring)
         (entry : MatchResult -> jsstring) : option (list jsstring) :=
  match patterns with
  | [] => Some []
  | re :: more =>
      match execLoop fuel re text 0 with
      | None => None
      | Some ms =>
          option_map (app (List.map entry ms)) (collect fuel more text entry)
      end
  end.

(** The entry pushed for a degree match. *)
Definition degreeEntry (mr : MatchResult) : jsstring :=
  match group mr 1 with
  | Some field =>
      if truthy field then
        match split (matched mr) inOrDashRe with
        | degree :: _ => degree ++ lit " in " ++ trim field
        | [] => lit "undefined in " ++ trim field
        end
      else trim (matched mr)
  | None => trim (matched mr)
  end.

Definition skillEntry (mr : MatchResult) : jsstring := trim (matched mr).

(** The tokens kept from the captured body of a "Skills" section. *)
Definition additionalSkills (body : jsstring) : list jsstring :=
  filter (fun skill => Nat.ltb 2 (List.length skill) && Nat.ltb (List.length skill) 30)
         (List.map trim (split body skillSeparatorRe)).

Definition sectionSkills (text : jsstring) : list jsstring :=
  match String_match text skillsSectionRe with
  | Some sec =>
      match group sec 1 with
      | Some body => if truthy body then additionalSkills body else []
      | None => []
      end
  | None => []
  end.

(** [lastPosition] once a title is found: the title, and " at " with the
    trimmed company when the expression built for the title matches in the
    section with a non-empty group 1. *)
Definition withCompany (section position : jsstring) (re : RegExp) : jsstring :=
  match String_match section re with
  | Some companyMatch =>
      match group companyMatch 1 with
      | Some company =>
          if truthy company then position ++ lit " at " ++ trim company
          else position
      | None => position
      end
  | None => position
  end.

(** The fallback over the fixed titles: the first one, in list order, that
    the section includes ends the loop. *)
Fixpoint positionIn (titles : list jsstring) (section : jsstring)
  : completion (option jsstring) :=
  match titles with
  | [] => Return None
  | position :: more =>
      if includes section position then
        bind (RegExp_new (companySource position) "i") (fun re =>
          Return (Some (withCompany section position re)))
      else positionIn more section
  end.

Definition lastPositionOf (text : jsstring) : completion (option jsstring) :=
  match String_match text experienceSectionRe with
  | Some experienceSection =>
      match group experienceSection 1 with
      | Some section =>
          if truthy section then
            match String_match section jobRe with
            | Some jobMatch => Return (Some (trim (matched jobMatch)))
            | None => positionIn positions section
            end
          else Return None
      | None => Return None
      end
  | None => Return None
  end.

Definition nameOf (text : jsstring) : completion (option jsstring) :=
  match String_match text nameRe with
  | Some nameMatch => bind (trimOf (group nameMatch 1)) (fun n => Return (Some n))
  | None => Return None
  end.

Definition totalYearsOf (text : jsstring) : option jsstring :=
  match String_match text experienceRe with
  | Some experienceMatch =>
      Some (match group experienceMatch 1 with
            | Some n => n | None => lit "undefined" end ++ lit " years")
  | None => None
  end.

Section Engine.

(** The number of arguments the engine can pass in one call at the place
    where [parseResumeText] runs.  It depends on the engine and on the stack
    that is left; it is one at least, as every call of the function passes
    an argument. *)
Variable maxArguments : positive.

(** [array.push(...items)]: the spread passes each element of [items] as an
    argument of its own, and the engine throws a RangeError when they are
    more than it can pass; otherwise they are appended in order. *)
Definition Array_push (array items : list jsstring) : completion (list jsstring) :=
  if (Z.of_nat (List.length items) <=? Z.pos maxArguments)%Z
  then Return (array ++ items)
  else Throw (RangeError (lit "Maximum call stack size exceeded")).

(** [parseResumeText], its [while] loops bounded by [fuel]: [None] is a
    loop still running, [Some (Throw _)] an exception, [Some (Return _)]
    the object returned.  The tokens kept from the "Skills" section are
    pushed in one call; where no section is found the source pushes nothing,
    which is what the push of no token comes to. *)
Definition parseResumeTextFor (fuel : nat) (text : jsstring)
  : option (completion PartialResume) :=
  match nameOf text with
  | Throw e => Some (Throw e)
  | Return name =>
      let email := option_map (fun r => trim (matched r)) (String_match text emailRe) in
      let phone := option_map (fun r => trim (matched r)) (String_match text phoneRe) in
      match collect fuel degreePatterns text degreeEntry with
      | None => None
      | Some degrees =>
          match collect fuel skillPatterns text skillEntry with
          | None => None
          | Some tableSkills =>
              Some (bind (Array_push tableSkills (sectionSkills text)) (fun skills =>
                    bind (lastPositionOf text) (fun lastPosition =>
                Return {| name := name;
                          email := email;
                          phone := phone;
                          qualifications := Some (Set_of degrees);
                          skills := Some (Set_of skills);
                          totalYears := totalYearsOf text;
                          lastPosition := lastPosition |})))
          end
      end
  end.

(** Each of the loops makes at most one round per code unit of the text
    and a last one that finds nothing, see [parseResumeTextFor_enough]. *)
Definition parseResumeText (text : jsstring) : option (completion PartialResume) :=
  parseResumeTextFor (S (List.length text)) text.

End Engine.

(** The resume record of shared/schema.ts as [processResume] builds it. *)
Record Resume := {
  id : jsstring;
  filename : jsstring;
  contentType : jsstring;
  rawText : jsstring;
  parsed : PartialResume
}.

(** The uploaded file as multer hands it over. *)
Record File := {
  buffer : Utf8.Buffer;
  mimetype : jsstring;
  originalname : jsstring
}.

Section ProcessResume.

Variable maxArguments : positive.
Variable pdf : Utf8.Buffer -> completion jsstring.
Variable mammoth_extractRawText : Utf8.Buffer -> completion jsstring.

(** [processResume]; [uuid] is the identifier [uuidv4()] returns.  The
    result carries the [console.error] lines of the extraction. *)
Definition processResume (uuid : jsstring) (file : File)
  : option (FileHandlers.outcome Resume) :=
  match FileHandlers.extractTextFromFile pdf mammoth_extractRawText
          (buffer file) (mimetype file) with
  | (log, Throw e) => Some (log, Throw e)
  | (log, Return text) =>
      option_map
        (fun c => (log, bind c (fun fields =>
           Return {| id := uuid;
                     filename := originalname file;
                     contentType := mimetype file;
                     rawText := text;
                     parsed := fields |})))
        (parseResumeText maxArguments text)
  end.

End ProcessResume.

End ResumeParser.

(* ================================================================== *)
(** ** client/src/utils/resumeParser.ts                               *)
(* ================================================================== *)

Module ClientResumeParser.
Import JS RegExp.
Import ResumeParser.

Definition programmingLanguages : list jsstring :=
  List.map lit
    [ "JavaScript"; "TypeScript"; "Python"; "Java"; "C#"; "C++"; "Ruby"; "PHP";
      "Swift"; "Kotlin"; "Go"; "Rust"; "Scala"; "Perl"; "R" ]%string.

Definition frameworks : list jsstring :=
  List.map lit
    [ "React"; "Angular"; "Vue"; "Next.js"; "Node.js"; "Express"; "Django";
      "Flask"; "Spring"; "ASP.NET"; "Laravel"; "Rails"; "TensorFlow"; "PyTorch";
      "Pandas"; "NumPy"; "jQuery"; "Bootstrap"; "Tailwind CSS" ]%string.

Definition tools : list jsstring :=
  List.map lit
    [ "Docker"; "Kubernetes"; "AWS"; "Azure"; "GCP"; "Git"; "CI/CD"; "Jenkins";
      "GitHub Actions"; "REST API"; "GraphQL"; "SQL"; "NoSQL"; "MongoDB"; "MySQL";
      "PostgreSQL"; "Redis"; "Firebase"; "Webpack"; "Babel" ]%string.

Definition allKeywords : list jsstring :=
  programmingLanguages ++ frameworks ++ tools.

(** [new RegExp(`\\b${keyword}\\b`, 'i').test(resumeText)]. *)
Definition keywordFound (resumeText keyword : jsstring) : completion bool :=
  bind (RegExp_new (lit "\b" ++ keyword ++ lit "\b") "i")
       (fun re => Return (test re resumeText)).

(** [keywords.filter(keyword => ...)]: the callback runs on every keyword
    in order and an exception it throws ends the whole call. *)
Fixpoint filterKeywords (keywords : list jsstring) (resumeText : jsstring)
  : completion (list jsstring) :=
  match keywords with
  | [] => Return []
  | keyword :: more =>
      bind (keywordFound resumeText keyword) (fun keep =>
        bind (filterKeywords more resumeText) (fun found =>
          Return (if keep then keyword :: found else found)))
  end.

Definition extractKeySkills (resumeText : jsstring) : completion (list jsstring) :=
  bind (filterKeywords allKeywords resumeText) (fun foundSkills =>
    Return (Set_of foundSkills)).

Definition withSkills (r : Resume) (ks : list jsstring) : Resume :=
  {| id := id r; filename := filename r; contentType := contentType r;
     rawText := rawText r;
     parsed := {| name := name (parsed r); email := email (parsed r);
                  phone := phone (parsed r);
                  qualifications := qualifications (parsed r);
                  skills := Some ks;
                  totalYears := totalYears (parsed r);
                  lastPosition := lastPosition (parsed r) |} |}.

(** [formatResumeForDisplay] assigns to a field of the object it was given
    and returns that same object.  The first component is the state the
    caller's object is left in, the second the completion of the call; on a
    normal return the value is that one object, in that state. *)
Definition formatResumeForDisplay (resume : Resume) : Resume * completion Resume :=
  match skills (parsed resume) with
  | Some (_ :: _) => (resume, Return resume)
  | _ =>
      match extractKeySkills (rawText resume) with
      | Return ks => (withSkills resume ks, Return (withSkills resume ks))
      | Throw e => (resume, Throw e)
      end
  end.

End ClientResumeParser.

(* ================================================================== *)
(** ** Further JavaScript built-ins used by the job search            *)
(* ================================================================== *)

Module Builtins.
Import JS RegExp.

(** The numbers of the paging parameters: what [parseInt] hands to
    [searchJobs], an integer or [NaN].  The arithmetic on them is that of the
    integers, as it is for doubles below 2^53. *)
Inductive number :=
| Int (z : Z)
| NaN.

Definition arith (op : Z -> Z -> Z) (a b : number) : number :=
  match a, b with
  | Int x, Int y => Int (op x y)
  | _, _ => NaN
  end.

(** ToIntegerOrInfinity. *)
Definition toInteger (n : number) : Z :=
  match n with
  | Int z => z
  | NaN => 0%Z
  end.

(** A relative index of [Array.prototype.slice]: counted from the end when
    negative, clamped to the array. *)
Definition relative (len : Z) (i : Z) : Z :=
  if (i <? 0)%Z then Z.max (len + i) 0 else Z.min i len.

(** [array.slice(start, end)]. *)
Definition Array_slice {A : Type} (array : list A) (start finish : number)
  : list A :=
  let len := Z.of_nat (List.length array) in
  let k := relative len (toInteger start) in
  let final := relative len (toInteger finish) in
  firstn (Z.to_nat (final - k)) (skipn (Z.to_nat k) array).

(** [array.includes(x)] on strings. *)
Definition Array_includes (array : list jsstring) (x : jsstring) : bool :=
  existsb (str_eqb x) array.

(** [text.split(sep)] for a separator of one code unit: the scan keeps the
    piece read so far, reversed. *)
Fixpoint splitOn (sep : char16) (text piece : jsstring) : list jsstring :=
  match text with
  | [] => [rev piece]
  | c :: t =>
      if char_eqb c sep then rev piece :: splitOn sep t []
      else splitOn sep t (c :: piece)
  end.

Definition String_split (text : jsstring) (sep : char16) : list jsstring :=
  splitOn sep text [].

(** [text.replace(re, '')] for [re] without the [g] flag: the first match
    is cut out. *)
Definition String_remove (text : jsstring) (re : RegExp) : jsstring :=
  match String_match text re with
  | Some r => firstn (index r) text ++ skipn (endIndex r) text
  | None => text
  end.

(** The decimal digits of an integer, as a template literal prints it. *)
Definition Number_toString (z : Z) : jsstring :=
  lit (DecimalString.NilZero.string_of_int (Z.to_int z)).

(** A promise once settled; the reason of a rejection is an error object
    or, for [throw lastError] with nothing assigned, [undefined]. *)
Inductive promise (A : Type) :=
| Fulfilled (v : A)
| Rejected (reason : option error).
Arguments Fulfilled {A} v.
Arguments Rejected {A} reason.

Definition await {A B} (p : promise A) (f : A -> promise B) : promise B :=
  match p with
  | Fulfilled v => f v
  | Rejected reason => Rejected reason
  end.

Definition settle {A} (c : completion A) : promise A :=
  match c with
  | Return v => Fulfilled v
  | Throw e => Rejected (Some e)
  end.

(** What a call leaves behind besides its result: the requests sent with
    [fetch] and the timers awaited, in order. *)
Inductive event :=
| Fetch (url : jsstring)
| Wait (ms : Z).

End Builtins.

(* ================================================================== *)
(** ** server/jobSearch.ts                                            *)
(* ================================================================== *)

Module JobSearch.
Import JS RegExp Builtins.

(** The jobs of the SerpAPI answer, with the fields [searchJobs] reads. *)
Module Api.

Record Link := { link : jsstring }.

Record Extensions := {
  posted_at : option jsstring;
  schedule_type : option jsstring;
  work_from_home : option bool
}.

Record Job := {
  title : jsstring;
  company_name : jsstring;
  location : jsstring;
  description : jsstring;
  via : jsstring;
  job_id : jsstring;
  detected_extensions : option Extensions;
  related_links : option (list Link);
  apply_options : option (list Link)
}.

Record Answer := {
  jobs_results : option (list Job);
  error : option jsstring
}.

End Api.

(** What [fetch] resolves to: [ok], [status] and the two readers of the
    body. *)
Record Response := {
  ok : bool;
  status : Z;
  text : promise jsstring;
  json : promise Api.Answer
}.

(** The job of shared/schema.ts. *)
Record Job := {
  id : jsstring;
  title : jsstring;
  company : jsstring;
  location : jsstring;
  description : jsstring;
  type : option jsstring;
  posted : option jsstring;
  url : jsstring;
  source : jsstring;
  isRemote : bool
}.

Module Params.
Record JobSearchParams := {
  query : jsstring;
  location : jsstring;
  page : option number;
  limit : option number
}.
End Params.

Record SearchResult := {
  jobs : list Job;
  totalResults : nat
}.

Definition viaSource : string := "^via\s+".
Definition viaRe : RegExp := Eval vm_compute in literal (lit viaSource) "i".

(** [a || b] on strings that may be [undefined]. *)
Definition orElse (a : option jsstring) (b : jsstring) : jsstring :=
  match a with
  | Some (c :: s) => c :: s
  | _ => b
  end.

Section Service.

(** [process.env.SERPAPI_KEY || process.env.VITE_SERPAPI_KEY]. *)
Variable SERPAPI_KEY : option jsstring.

(** The answer of the network to the [n]-th request (from 0) for [url]. *)
Variable fetch : jsstring -> nat -> promise Response.

(** [encodeURIComponent], which throws a URIError on a lone surrogate. *)
Variable encodeURIComponent : jsstring -> completion jsstring.

(** The [n]-th identifier (from 0) that [uuidv4()] generates. *)
Variable uuidv4 : nat -> jsstring.

(** [String.prototype.toLowerCase]. *)
Variable toLowerCase : jsstring -> jsstring.

Definition failure (response : Response) (errorText : jsstring) : error :=
  Error (lit "SerpAPI request failed with status: "
         ++ Number_toString (status response) ++ lit ". " ++ errorText).

(** [Math.min(1000 * Math.pow(2, attempt), 5000)]. *)
Definition delay (attempt : nat) : Z :=
  Z.min (1000 * 2 ^ Z.of_nat attempt) 5000.

(** The rounds of the [for] loop of [fetchWithRetry] from [attempt] on,
    [remaining] of them being left, and the [throw] after the loop. *)
Fixpoint attempts (url : jsstring) (maxRetries remaining attempt : nat)
         (lastError : option error) : list event * promise Response :=
  match remaining with
  | O => ([], Rejected lastError)
  | S remaining' =>
      let next (waited : list event) (lastError' : option error) :=
        let pause :=
          if (Z.of_nat attempt <? Z.of_nat maxRetries - 1)%Z
          then [Wait (delay attempt)] else [] in
        let (later, result) :=
          attempts url maxRetries remaining' (S attempt) lastError' in
        (Fetch url :: waited ++ pause ++ later, result) in
      match fetch url attempt with
      | Fulfilled response =>
          if ok response then ([Fetch url], Fulfilled response)
          else
            match text response with
            | Fulfilled errorText =>
                next (if (status response =? 429)%Z
                      then [Wait (2000 * (Z.of_nat attempt + 1))] else [])
                     (Some (failure response errorText))
            | Rejected reason => next [] reason
            end
      | Rejected reason => next [] reason
      end
  end.

Definition fetchWithRetry (url : jsstring) (maxRetries : nat)
  : list event * promise Response :=
  attempts url maxRetries maxRetries 0 None.

Definition apiUrlOf (key query location : jsstring) : completion jsstring :=
  bind (encodeURIComponent query) (fun q =>
  bind (encodeURIComponent location) (fun l =>
    Return (lit "https://serpapi.com/search?engine=google_jobs&q=" ++ q
            ++ lit "&location=" ++ l ++ lit "&api_key=" ++ key))).

Definition sourceOf (via : jsstring) : jsstring :=
  match via with
  | [] => lit "Google Jobs"
  | _ :: _ => String_remove via viaRe
  end.

Definition fallbackUrl (job : Api.Job) : completion jsstring :=
  bind (encodeURIComponent (Api.title job ++ lit " " ++ Api.company_name job))
       (fun q => Return (lit "https://www.google.com/search?q=" ++ q
                         ++ lit "&ibp=htl;jobs")).

Definition applyUrlOf (job : Api.Job) : completion jsstring :=
  let second :=
    match Api.related_links job with
    | Some (first :: _) => Return (Api.link first)
    | _ => fallbackUrl job
    end in
  match Api.apply_options job with
  | Some (first :: _) =>
      match Api.link first with
      | [] => second
      | _ :: _ => Return (Api.link first)
      end
  | _ => second
  end.

(** [data.jobs_results.map(job => ...)], [generated] identifiers having
    been drawn from [uuidv4] so far. *)
Fixpoint mapJobs (results : list Api.Job) (generated : nat)
  : completion (list Job) :=
  match results with
  | [] => Return []
  | job :: more =>
      bind (applyUrlOf job) (fun applyUrl =>
        let extensions := Api.detected_extensions job in
        let fresh := match Api.job_id job with [] => true | _ :: _ => false end in
        let mapped :=
          {| id := if fresh then uuidv4 generated else Api.job_id job;
             title := Api.title job;
             company := Api.company_name job;
             location := Api.location job;
             description := Api.description job;
             type := Some (orElse (match extensions with
                                   | Some e => Api.schedule_type e
                                   | None => None end) (lit "Full-time"));
             posted := Some (orElse (match extensions with
                                     | Some e => Api.posted_at e
                                     | None => None end) (lit "Recently"));
             url := applyUrl;
             source := sourceOf (Api.via job);
             isRemote := match extensions with
                         | Some e => match Api.work_from_home e with
                                     | Some true => true
                                     | _ => false
                                     end
                         | None => false
                         end |} in
        bind (mapJobs more (if fresh then S generated else generated))
             (fun others => Return (mapped :: others)))
  end.

(** The callback of [jobs.filter]. *)
Definition inLocation (location : jsstring) (job : Job) : bool :=
  let requestedLocation := trim (toLowerCase location) in
  let jobLocation := toLowerCase (JobSearch.location job) in
  includes jobLocation requestedLocation
  || (includes requestedLocation (lit "remote") && isRemote job).

Definition paginate (filteredJobs : list Job) (page limit : number) : SearchResult :=
  let startIndex := arith Z.mul (arith Z.sub page (Int 1)) limit in
  {| jobs := Array_slice filteredJobs startIndex (arith Z.add startIndex limit);
     totalResults := List.length filteredJobs |}.

(** [searchJobs]: the requests and timers, and the promise it returns.  Its
    [catch] logs and throws the same value again. *)
Definition searchJobs (params : Params.JobSearchParams)
  : list event * promise SearchResult :=
  match SERPAPI_KEY with
  | None | Some [] =>
      ([], Rejected (Some (Error (lit "SERPAPI_KEY is not set. Please set it in your environment variables."))))
  | Some key =>
      let query := Params.query params in
      let location := Params.location params in
      let page := match Params.page params with Some n => n | None => Int 1 end in
      let limit := match Params.limit params with Some n => n | None => Int 10 end in
      match apiUrlOf key query location with
      | Throw e => ([], Rejected (Some e))
      | Return apiUrl =>
          let (events, fetched) := fetchWithRetry apiUrl 3 in
          (events,
           await fetched (fun response =>
           await (json response) (fun data =>
             match Api.error data with
             | Some (c :: s) =>
                 Rejected (Some (Error (lit "SerpAPI error: " ++ c :: s)))
             | _ =>
                 match Api.jobs_results data with
                 | None => Fulfilled {| jobs := []; totalResults := 0 |}
                 | Some results =>
                     await (settle (mapJobs results 0)) (fun jobs =>
                       Fulfilled (paginate (filter (inLocation location) jobs)
                                           page limit))
                 end
             end)))
      end
  end.

End Service.

End JobSearch.

(* ================================================================== *)
(** ** server/routes.ts                                               *)
(* ================================================================== *)

Module Routes.
Import JS Builtins.

Definition allowedTypes : list jsstring :=
  List.map lit
    [ "application/pdf";
      "application/vnd.openxmlformats-officedocument.wordprocessingml.document";
      "text/plain" ]%string.

(** The [fileFilter] of the upload: what it hands to its callback, [true]
    or an error. *)
Definition fileFilter (file : ResumeParser.File) : completion bool :=
  if Array_includes allowedTypes (ResumeParser.mimetype file)
  then Return true
  else Throw (Error (lit "Invalid file type. Only PDF, DOCX, and TXT files are allowed.")).

(** [jobTitleString.split(',').map(title => title.trim()).filter(Boolean)]. *)
Definition jobTitlesOf (jobTitleString : jsstring) : list jsstring :=
  filter ResumeParser.truthy
         (List.map trim (String_split jobTitleString 44%Z)).

(** [jobTitles[0]], the query of the search; [None] is [undefined]. *)
Definition queryOf (jobTitleString : jsstring) : option jsstring :=
  hd_error (jobTitlesOf jobTitleString).

End Routes.

(* ================================================================== *)
(** ** client/src/components/JobSearch.tsx                            *)
(* ================================================================== *)

Module ClientJobSearch.
Import JS Builtins.

Definition resultsPerPage : Z := 10.

(** [handleSkillClick]: the value the job title field holds afterwards,
    [currentValue] being what it held. *)
Definition handleSkillClick (currentValue skill : jsstring) : jsstring :=
  match currentValue with
  | [] => skill
  | _ :: _ =>
      let skills := List.map trim (String_split currentValue 44%Z) in
      if Array_includes skills skill then currentValue
      else currentValue ++ lit ", " ++ skill
  end.

(** A response as [fetchWithRetry] reads it. *)
Record Response := {
  ok : bool;
  status : Z;
  text : promise jsstring
}.

Section Retry.

(** The answer to the [n]-th request (from 0) for [url]. *)
Variable fetch : jsstring -> nat -> promise Response.

Definition failure (response : Response) (errorText : jsstring) : error :=
  Error (lit "Request failed with status " ++ Number_toString (status response)
         ++ lit ": " ++ errorText).

(** [Math.min(1000 * Math.pow(2, retries), 5000)]. *)
Definition delay (retries : nat) : Z :=
  Z.min (1000 * 2 ^ Z.of_nat retries) 5000.

(** The rounds of the [while] loop of [fetchWithRetry] from [retries] on,
    [remaining] of them being left, and the [throw] after the loop. *)
Fixpoint attempts (url : jsstring) (maxRetries remaining retries : nat)
         (lastError : option error) : list event * promise Response :=
  match remaining with
  | O => ([], Rejected lastError)
  | S remaining' =>
      let next (lastError' : option error) :=
        let pause :=
          if (Z.of_nat (S retries) <? Z.of_nat maxRetries)%Z
          then [Wait (delay (S retries))] else [] in
        let (later, result) :=
          attempts url maxRetries remaining' (S retries) lastError' in
        (Fetch url :: pause ++ later, result) in
      match fetch url retries with
      | Fulfilled response =>
          if ok response then ([Fetch url], Fulfilled response)
          else
            match text response with
            | Fulfilled errorText => next (Some (failure response errorText))
            | Rejected reason => next reason
            end
      | Rejected reason => next reason
      end
  end.

Definition fetchWithRetry (url : jsstring) (maxRetries : nat)
  : list event * promise Response :=
  attempts url maxRetries maxRetries 0 None.

End Retry.

(** [Math.ceil(totalResults / resultsPerPage)]: the least integer that is
    not below the quotient. *)
Definition totalPages (totalResults : Z) : Z :=
  - ((- totalResults) / resultsPerPage).

Definition handlePreviousPage (currentPage : Z) : Z :=
  if (1 <? currentPage)%Z then currentPage - 1 else currentPage.

Definition handleNextPage (totalPages currentPage : Z) : Z :=
  if (currentPage <? totalPages)%Z then currentPage + 1 else currentPage.

(** The numbers on the page buttons: for [i] from 0 below
    [Math.min(5, totalPages)], the [pageNum] computed for [i]. *)
Definition pageNum (totalPages currentPage i : Z) : Z :=
  if (totalPages <=? 5)%Z then i + 1
  else if (currentPage <=? 3)%Z then i + 1
  else if (totalPages - 2 <=? currentPage)%Z then totalPages - 4 + i
  else currentPage - 2 + i.

Definition pageNumbers (totalPages currentPage : Z) : list Z :=
  List.map (fun i => pageNum totalPages currentPage (Z.of_nat i))
           (seq 0 (Z.to_nat (Z.min 5 totalPages))).

End ClientJobSearch.

(* ================================================================== *)
(** ** client/src/components/JobDetails.tsx                           *)
(* ================================================================== *)

Module ClientJobDetails.
Import JS RegExp.

Definition whiteSpaceSource : string := "\s+".
Definition whiteSpaceRe : RegExp := Eval vm_compute in literal (lit whiteSpaceSource) "".

Section Match.

(** [String.prototype.toLowerCase]. *)
Variable toLowerCase : jsstring -> jsstring.

(** [selectedJob.description?.toLowerCase().split(/\s+/) || []]. *)
Definition jobSkillsOf (description : option jsstring) : list jsstring :=
  match description with
  | Some d => split (toLowerCase d) whiteSpaceRe
  | None => []
  end.

(** The resume skills counted as matching the job. *)
Definition matchingSkills (description : option jsstring) (skills : list jsstring)
  : list jsstring :=
  filter (fun skill =>
            existsb (fun word => includes word (toLowerCase skill))
                    (jobSkillsOf description))
         skills.

End Match.

End ClientJobDetails.

(* ================================================================== *)
(** * Vocabulary of the properties                                    *)
(* ================================================================== *)

Module Spec.
Import JS RegExp Utf8 FileHandlers ResumeParser.

(** [x] stands before [y] in the array [d]. *)
Definition before (d : list jsstring) (x y : jsstring) : Prop :=
  exists a b c, d = a ++ x :: b ++ y :: c.

(** [x] is seen in [l] before any [y] is. *)
Definition seenFirst (l : list jsstring) (x y : jsstring) : Prop :=
  exists p q, l = p ++ x :: q /\ ~ In y p.

(** [result] lists the distinct entries of [pushed], each where it was
    first pushed. *)
Definition distinctInOrder (pushed result : list jsstring) : Prop :=
  NoDup result /\
  (forall x, In x result <-> In x pushed) /\
  (forall x y, before result x y -> seenFirst pushed x y).

(** The least number of code units a pattern consumes. *)
Fixpoint minLen (r : regex) : nat :=
  match r with
  | Chr _ | Any | Class _ _ => 1
  | Seq a b => minLen a + minLen b
  | Alt a b => Nat.min (minLen a) (minLen b)
  | Group _ a => minLen a
  | Repeat a mn _ _ => mn * minLen a
  | _ => 0
  end.

(** Every way through the pattern leaves group [i] captured. *)
Fixpoint definesGroup (i : nat) (r : regex) : bool :=
  match r with
  | Group j a => Nat.eqb i j || definesGroup i a
  | Seq a b =>
      (definesGroup i a && negb (existsb (Nat.eqb i) (groupsOf b)))
      || definesGroup i b
  | Alt a b => definesGroup i a && definesGroup i b
  | _ => false
  end.

(** [s'] lies at least [n] code units after [s] in the same subject. *)
Definition advances (n : nat) (s s' : mstate) : Prop :=
  pos s + n <= pos s' /\
  pos s' + List.length (rest s') = pos s + List.length (rest s).

(** The captures of [s] are still those of [s'], but for the groups [gs]. *)
Definition keeps (gs : list nat) (s s' : mstate) : Prop :=
  forall i v, ~ In i gs ->
    lookupCap (caps s) i = Some v -> lookupCap (caps s') i = Some v.

Definition reaches (n : nat) (gs : list nat) (s s' : mstate) : Prop :=
  advances n s s' /\ keeps gs s s'.

(** A body of a quantifier that passes on to its continuation a state at
    least [len] further, with the captures outside [gs] kept. *)
Definition bodyReaches (len : nat) (gs : list nat)
           (body : mstate -> cont -> option mstate) : Prop :=
  forall x d z, body x d = Some z ->
    exists y, d y = Some z /\ reaches len gs x y.

(** A body of a quantifier that looks at its continuation only on states
    further on in the same subject. *)
Definition bodyLocal (body : mstate -> cont -> option mstate) : Prop :=
  forall x d d',
    (forall y, advances 0 x y -> d y = d' y) -> body x d = body x d'.

(** The code unit before index [i] of [text], [b] lying before [text]. *)
Definition unitBefore (b : option char16) (text : jsstring) (i : nat)
  : option char16 :=
  match i with
  | O => b
  | S j => nth_error text j
  end.

(** No attempt of [re] succeeds at an index of [text] below [n]. *)
Definition noMatchBefore (re : RegExp) (b : option char16) (text : jsstring)
           (n : nat) : Prop :=
  forall i, i < n -> matchAt re (unitBefore b text i) (skipn i text) = None.

(** The code unit before the position reached after reading [w], [b]
    lying before [w]. *)
Definition lastOf (b : option char16) (w : jsstring) : option char16 :=
  fold_left (fun _ c => Some c) w b.

(** [n] pieces in a row, each accepted by [one] in its place. *)
Fixpoint iter (n : nat) (one : option char16 -> jsstring -> jsstring -> Prop)
         (b : option char16) (w t : jsstring) : Prop :=
  match n with
  | O => w = []
  | S n' =>
      exists w1 w2, w = w1 ++ w2 /\ one b w1 (w2 ++ t) /\
                    iter n' one (lastOf b w1) w2 t
  end.

(** What a pattern matches: [lang ic ml r b w t] says that [w], standing
    after the code unit [b] and before [t], is matched by [r].  Priorities
    (greedy, lazy, order of alternatives) play no part in it. *)
Fixpoint lang (ic ml : bool) (r : regex) (b : option char16) (w t : jsstring)
  : Prop :=
  match r with
  | Empty => w = []
  | Chr a => exists c, w = [c] /\ Z.eqb (canonicalize ic a) (canonicalize ic c) = true
  | Any => exists c, w = [c] /\ isLineTerminator c = false
  | Class inv items => exists c, w = [c] /\ class_mem ic inv items c = true
  | Seq r1 r2 =>
      exists w1 w2, w = w1 ++ w2 /\ lang ic ml r1 b w1 (w2 ++ t) /\
                    lang ic ml r2 (lastOf b w1) w2 t
  | Alt r1 r2 => lang ic ml r1 b w t \/ lang ic ml r2 b w t
  | Group _ a => lang ic ml a b w t
  | Repeat a mn mx _ =>
      exists extra,
        match mx with Some hi => extra <= hi - mn | None => True end /\
        iter (mn + extra) (lang ic ml a) b w t
  | LineStart =>
      w = [] /\ atLineStart ml {| prev := b; rest := t; pos := 0; caps := [] |} = true
  | LineEnd =>
      w = [] /\ atLineEnd ml {| prev := b; rest := t; pos := 0; caps := [] |} = true
  | WordBoundary p =>
      w = [] /\
      Bool.eqb p (atWordBoundary {| prev := b; rest := t; pos := 0; caps := [] |}) = true
  end.

(** Every capture of a group of [r] satisfies [P]. *)
Fixpoint groupsSound (ic ml : bool) (P : nat -> jsstring -> Prop) (r : regex) : Prop :=
  match r with
  | Seq a b | Alt a b => groupsSound ic ml P a /\ groupsSound ic ml P b
  | Group i a => (forall b w t, lang ic ml a b w t -> P i w) /\ groupsSound ic ml P a
  | Repeat a _ _ _ => groupsSound ic ml P a
  | _ => True
  end.

Definition capsIn (P : nat -> jsstring -> Prop) (s : mstate) : Prop :=
  forall i v, lookupCap (caps s) i = Some v -> P i v.

(** From [s] the matcher read [w] and stands at [y]. *)
Definition consumed (s y : mstate) (w : jsstring) : Prop :=
  rest s = w ++ rest y /\ prev y = lastOf (prev s) w /\
  pos y = pos s + List.length w.

Definition bodySound (ic ml : bool) (a : regex)
           (one : option char16 -> jsstring -> jsstring -> Prop)
           (body : mstate -> cont -> option mstate) : Prop :=
  forall x d z, body x d = Some z ->
    exists y w, d y = Some z /\ consumed x y w /\ one (prev x) w (rest y) /\
      (forall P, groupsSound ic ml P a -> capsIn P x -> capsIn P y).

(** [p] occurs in [s] as a substring. *)
Definition occursIn (p s : jsstring) : Prop := exists a b, s = a ++ p ++ b.


(** The shape local@domain.tld: a non-empty local part of word characters
    and [._%+-], a non-empty domain of word characters, dots and hyphens, a
    dot, and at least two ASCII letters. *)
Definition localChar (c : char16) : bool :=
  isWordChar c || existsb (Z.eqb c) [46; 95; 37; 43; 45]%Z.
Definition domainChar (c : char16) : bool :=
  isWordChar c || existsb (Z.eqb c) [46; 45]%Z.
Definition asciiLetter (c : char16) : bool := isLower c || isUpper c.

Definition addressShape (w : jsstring) : Prop :=
  exists loc dom tld : jsstring,
    w = loc ++ [64%Z] ++ dom ++ [46%Z] ++ tld /\
    loc <> [] /\ forallb localChar loc = true /\
    dom <> [] /\ forallb domainChar dom = true /\
    2 <= List.length tld /\ forallb asciiLetter tld = true.

(** Shorthands to write down the syntax of a pattern. *)

(** Terms in a row, as the grammar nests them. *)
Definition chain (terms : list regex) : regex := fold_left andThen terms Empty.

(** Alternatives, as the grammar nests them. *)
Fixpoint anyOf (alternatives : list regex) : regex :=
  match alternatives with
  | [] => Empty
  | [a] => a
  | a :: more => Alt a (anyOf more)
  end.

(** The characters of a word, one after the other. *)
Definition word (s : string) : list regex := List.map Chr (lit s).

Definition UPPER : regex := Class false [CsRange (ch "A") (ch "Z")].
Definition LOWER : regex := Class false [CsRange (ch "a") (ch "z")].
Definition SPACE : regex := Class false [CsSpace true].
Definition DIGIT : regex := Class false [CsDigit true].
Definition GAP : regex := Class false [CsSpace true; CsChar 10%Z].
Definition plus (a : regex) : regex := Repeat a 1 None true.
Definition star (a : regex) : regex := Repeat a 0 None true.
Definition opt (a : regex) : regex := Repeat a 0 (Some 1) true.

(** Texts and files the properties are tried on. *)

(** The engine's limit used in the examples, of the order of what Node
    passes in one call on its default stack. *)
Definition engineLimit : positive := 120000%positive.

Definition upload (text : string) : File :=
  {| buffer := lit text; mimetype := MIME_TXT; originalname := lit "cv.txt" |}.

Definition yearsPhrase : jsstring :=
  Eval vm_compute in lit "5+ years of experience".

Definition address : jsstring :=
  Eval vm_compute in lit "jane.doe@example.com".



(** A text with a degree named twice, a skill named in two spellings, and
    a "Skills" section that names known and new skills. *)
Definition repeatedEntries : jsstring :=
  lit "B.S. in Physics, B.S. in Physics. Python, python, Python" ++ LF
  ++ lit "Skills: Teamwork, Python, Drawing" ++ LF ++ LF.

(** The bullet U+2022. *)
Definition BULLET : jsstring := [8226%Z].

Definition bulletedBody : jsstring :=
  lit "Python " ++ BULLET ++ lit " Excel " ++ BULLET ++ lit " SQL".

Definition bulletedSkills : jsstring :=
  lit "Skills:" ++ LF ++ bulletedBody ++ LF ++ LF.

End Spec.

(* ================================================================== *)
(** * Vocabulary of the further properties                            *)
(* ================================================================== *)

Module SpecMore.
Import JS RegExp Utf8 FileHandlers ResumeParser Spec Builtins.

(** The record of a text on which no search finds anything. *)
Definition blank : PartialResume :=
  {| name := None; email := None; phone := None;
     qualifications := Some []; skills := Some [];
     totalYears := None; lastPosition := None |}.


(** A capitalized word: an upper-case ASCII letter, then one or more
    lower-case ASCII letters. *)
Definition capitalized (w : jsstring) : Prop :=
  exists u ls,
    w = u :: ls /\ isUpper u = true /\ ls <> [] /\ forallb isLower ls = true.

(** One or more code units of white space (line breaks included). *)
Definition gap (w : jsstring) : Prop :=
  w <> [] /\ forallb isWhiteSpace w = true.

(** Two or three capitalized words with white space between them. *)
Definition nameShape (n : jsstring) : Prop :=
  exists first others,
    capitalized first /\
    1 <= List.length others <= 2 /\
    Forall (fun p => exists g w, p = g ++ w /\ gap g /\ capitalized w) others /\
    n = first ++ List.concat others.

(** The part of the name expression inside its group. *)
Definition nameBody : regex :=
  chain [UPPER; plus LOWER; Repeat (chain [plus SPACE; UPPER; plus LOWER]) 1 (Some 2) true].

(** [w] stands in [text] at the start of a line. *)
Definition atLineOf (text w : jsstring) : Prop :=
  exists pre suf,
    text = pre ++ w ++ suf /\
    (pre = [] \/ exists p c, pre = p ++ [c] /\ isLineTerminator c = true).

(** [n] decimal digits. *)
Definition digits (n : nat) (w : jsstring) : Prop :=
  List.length w = n /\ forallb isDigit w = true.

(** Nothing, or one code unit accepted by [ok]. *)
Definition atMostOne (ok : char16 -> bool) (w : jsstring) : Prop :=
  w = [] \/ exists c, w = [c] /\ ok c = true.

(** A hyphen, a dot or white space. *)
Definition phoneSeparator (c : char16) : bool :=
  Z.eqb c 45 || Z.eqb c 46 || isWhiteSpace c.

(** The shape of a phone number: an optional "+" with one or two digits
    and an optional white space, three digits with or without parentheses,
    three digits and four digits, a separator being allowed before each of
    the last two groups. *)
Definition phoneShape (w : jsstring) : Prop :=
  exists country area s1 mid s2 last : jsstring,
    w = country ++ area ++ s1 ++ mid ++ s2 ++ last /\
    (country = [] \/
     exists d sp : jsstring,
       country = [43%Z] ++ d ++ sp /\ 1 <= List.length d <= 2 /\
       forallb isDigit d = true /\ atMostOne isWhiteSpace sp) /\
    (digits 3 area \/ exists d, area = [40%Z] ++ d ++ [41%Z] /\ digits 3 d) /\
    atMostOne phoneSeparator s1 /\ digits 3 mid /\
    atMostOne phoneSeparator s2 /\ digits 4 last.

(** The code units a match of the job expression is made of: word
    characters, white space, "@", "|" and "&". *)
Definition positionChar (c : char16) : bool :=
  isWordChar c || isWhiteSpace c || existsb (Z.eqb c) [64; 124; 38]%Z.

(** The code units the separator of the skills block is made of: a comma,
    U+00E2, U+20AC, U+00A2 and a line feed. *)
Definition separatorChar (c : char16) : bool :=
  existsb (Z.eqb c) [44; 226; 8364; 162; 10]%Z.

(** What ends a section: a blank line, or a line feed and an ASCII letter
    of either case. *)
Definition sectionEnd (s : jsstring) : bool :=
  match s with
  | a :: c :: _ => Z.eqb a 10 && (Z.eqb c 10 || asciiLetter c)
  | _ => false
  end.

(** The end of both section expressions. *)
Definition sectionEndRe : regex :=
  Alt (Seq (Chr 10%Z) (Chr 10%Z)) (Seq (Chr 10%Z) (Class false [CsRange 65%Z 90%Z])).

(** A section expression: a heading, the lazy group 1 over any code
    units, and the end of the section. *)
Definition sectionRe (heading : regex) : regex :=
  Seq (Seq heading
           (Group 1 (Repeat (Class false [CsSpace true; CsSpace false]) 0 None false)))
      sectionEndRe.

(** [body], followed by [suf], stops at the first place where what
    follows ends a section. *)
Definition endsAtFirstBreak (body suf : jsstring) : Prop :=
  sectionEnd suf = true /\
  forall a b, body = a ++ b -> b <> [] -> sectionEnd (b ++ suf) = false.

(** What an open sequence of the UTF-8 decoder will decode to is a scalar
    value, whichever continuation bytes complete it. *)
Definition pending (st : dstate) : Prop :=
  match needed st with
  | 0%nat => True
  | 1%nat => forall b1, (lower st <= b1 <= upper st)%Z ->
               scalar (codePoint st * 64 + (b1 - 128))%Z
  | 2%nat => forall b1 b2,
               (lower st <= b1 <= upper st)%Z -> (128 <= b2 <= 191)%Z ->
               scalar ((codePoint st * 64 + (b1 - 128)) * 64 + (b2 - 128))%Z
  | _ => needed st = 3%nat /\
         forall b1 b2 b3,
           (lower st <= b1 <= upper st)%Z -> (128 <= b2 <= 191)%Z ->
           (128 <= b3 <= 191)%Z ->
           scalar (((codePoint st * 64 + (b1 - 128)) * 64 + (b2 - 128)) * 64
                   + (b3 - 128))%Z
  end.

(** Checks on the syntax of a pattern, each with a lemma that says what
    it guarantees of every match. *)

(** No comma can be matched. *)
Fixpoint commaFree (ic : bool) (r : regex) : bool :=
  match r with
  | Chr a => negb (Z.eqb (canonicalize ic a) (canonicalize ic 44%Z))
  | Any => false
  | Class inv items => negb (class_mem ic inv items 44%Z)
  | Seq a b | Alt a b => commaFree ic a && commaFree ic b
  | Group _ a | Repeat a _ _ _ => commaFree ic a
  | _ => true
  end.

(** A printable ASCII character other than the space. *)
Definition printable (c : char16) : bool := between 33%Z 126%Z c.

Definition printableItem (i : cset) : bool :=
  match i with
  | CsChar a => printable a
  | CsRange lo hi => Z.leb 33%Z lo && Z.leb hi 126%Z
  | CsDigit true | CsWord true => true
  | _ => false
  end.

(** What the pattern matches begins with a printable character. *)
Fixpoint headPrintable (r : regex) : bool :=
  match r with
  | Chr a => printable a
  | Class false items => forallb printableItem items
  | Seq a _ => headPrintable a
  | Alt a b => headPrintable a && headPrintable b
  | Group _ a => headPrintable a
  | Repeat a mn _ _ => Nat.ltb 0 mn && headPrintable a
  | _ => false
  end.

(** What the pattern matches ends with a printable character. *)
Fixpoint lastPrintable (r : regex) : bool :=
  match r with
  | Chr a => printable a
  | Class false items => forallb printableItem items
  | Seq _ b => lastPrintable b
  | Alt a b => lastPrintable a && lastPrintable b
  | Group _ a => lastPrintable a
  | Repeat a mn _ _ => Nat.ltb 0 mn && lastPrintable a
  | _ => false
  end.

(** [pieces.join(sep)]. *)
Fixpoint join (sep : jsstring) (pieces : list jsstring) : jsstring :=
  match pieces with
  | [] => []
  | [p] => p
  | p :: more => p ++ sep ++ join sep more
  end.

(** A comma or white space. *)
Definition commaOrSpace (c : char16) : bool := Z.eqb c 44 || isWhiteSpace c.

(** The requests and timers of a run. *)

(** The URLs requested, in order. *)
Definition requests (events : list event) : list jsstring :=
  flat_map (fun e => match e with
                     | Fetch url => [url]
                     | Wait _ => []
                     end) events.

(** The timers awaited, in order, in milliseconds. *)
Definition waits (events : list event) : list Z :=
  flat_map (fun e => match e with
                     | Fetch _ => []
                     | Wait ms => [ms]
                     end) events.

Definition total (l : list Z) : Z := fold_right Z.add 0%Z l.

(** What the timers of the rounds from [attempt] on may add up to. *)
Fixpoint budget (maxRetries remaining attempt : nat) : Z :=
  match remaining with
  | O => 0
  | S n =>
      (2000 * (Z.of_nat attempt + 1)
       + (if (Z.of_nat attempt <? Z.of_nat maxRetries - 1)%Z then JobSearch.delay attempt else 0)
       + budget maxRetries n (S attempt))%Z
  end.

(** Three jobs, named "a", "b" and "c", in Oslo, in Bergen and remote. *)
Definition jobAt (name place : string) (remote : bool) : JobSearch.Job :=
  {| JobSearch.id := lit name; JobSearch.title := lit "Engineer";
     JobSearch.company := lit "Acme"; JobSearch.location := lit place;
     JobSearch.description := []; JobSearch.type := None;
     JobSearch.posted := None; JobSearch.url := []; JobSearch.source := [];
     JobSearch.isRemote := remote |}.

Definition threeJobs : list JobSearch.Job :=
  [jobAt "a" "oslo" false; jobAt "b" "bergen" false; jobAt "c" "anywhere" true].

(** Lower case for the ASCII letters, the other code units as they are: a
    function to try the properties on; they hold of any [toLowerCase]. *)
Definition asciiLower (s : jsstring) : jsstring :=
  List.map (fun c => if isUpper c then (c + 32)%Z else c) s.

(** An answer of the API with three jobs, in Oslo, in Bergen and remote. *)
Definition apiJob (name place : string) (remote : bool) : JobSearch.Api.Job :=
  {| JobSearch.Api.title := lit "Engineer";
     JobSearch.Api.company_name := lit "Acme";
     JobSearch.Api.location := lit place;
     JobSearch.Api.description := [];
     JobSearch.Api.via := lit "via LinkedIn";
     JobSearch.Api.job_id := lit name;
     JobSearch.Api.detected_extensions :=
       Some {| JobSearch.Api.posted_at := None;
               JobSearch.Api.schedule_type := None;
               JobSearch.Api.work_from_home := Some remote |};
     JobSearch.Api.related_links := None;
     JobSearch.Api.apply_options := None |}.

Definition threeResults : JobSearch.Response :=
  {| JobSearch.ok := true; JobSearch.status := 200;
     JobSearch.text := Fulfilled [];
     JobSearch.json :=
       Fulfilled
         {| JobSearch.Api.jobs_results :=
              Some [apiJob "a" "Oslo" false; apiJob "b" "Bergen" false;
                    apiJob "c" "Anywhere" true];
            JobSearch.Api.error := None |} |}.

Definition searchIn (place : string) (page limit : number)
  : list event * promise JobSearch.SearchResult :=
  JobSearch.searchJobs (Some (lit "key")) (fun _ _ => Fulfilled threeResults)
    (fun s => Return s) (fun _ => lit "generated") asciiLower
    {| JobSearch.Params.query := lit "engineer";
       JobSearch.Params.location := lit place;
       JobSearch.Params.page := Some page;
       JobSearch.Params.limit := Some limit |}.

(** A response with [ok] set and an empty answer, and a network on which
    the first request is reset and the later ones get that response, or a
    429, or nothing at all. *)
Definition okResponse : JobSearch.Response :=
  {| JobSearch.ok := true; JobSearch.status := 200;
     JobSearch.text := Fulfilled [];
     JobSearch.json :=
       Fulfilled {| JobSearch.Api.jobs_results := None;
                              JobSearch.Api.error := None |} |}.

Definition busyResponse : JobSearch.Response :=
  {| JobSearch.ok := false; JobSearch.status := 429;
     JobSearch.text := Fulfilled (lit "slow down");
     JobSearch.json := Rejected None |}.

Definition resetThenOk (url : jsstring) (j : nat)
  : promise JobSearch.Response :=
  match j with
  | O => Rejected (Some (Error (lit "ECONNRESET")))
  | S _ => Fulfilled okResponse
  end.

Definition alwaysBusy (url : jsstring) (j : nat)
  : promise JobSearch.Response :=
  Fulfilled busyResponse.

Section Network.

Variable fetch : jsstring -> nat -> promise JobSearch.Response.

(** The response of request [j] when it is one with [ok] set. *)
Definition answered (url : jsstring) (j : nat) : option JobSearch.Response :=
  match fetch url j with
  | Fulfilled response =>
      if JobSearch.ok response then Some response else None
  | Rejected _ => None
  end.

(** What request [j] leaves in [lastError] when it fails: the error made
    of the status and the body, or the reason for which the request or the
    reading of the body was rejected. *)
Definition lastErrorOf (url : jsstring) (j : nat) : option error :=
  match fetch url j with
  | Fulfilled response =>
      match JobSearch.text response with
      | Fulfilled errorText => Some (JobSearch.failure response errorText)
      | Rejected reason => reason
      end
  | Rejected reason => reason
  end.

(** Request [j] was answered with status 429 and a body that could be
    read. *)
Definition rateLimited (url : jsstring) (j : nat) : bool :=
  match fetch url j with
  | Fulfilled response =>
      match JobSearch.text response with
      | Fulfilled _ => Z.eqb (JobSearch.status response) 429
      | Rejected _ => false
      end
  | Rejected _ => false
  end.

(** The timers awaited after round [attempt] failed: the one of a rate
    limit, then the back-off unless the round was the last. *)
Definition pauses (url : jsstring) (maxRetries attempt : nat)
  : list event :=
  (if rateLimited url attempt
   then [Wait (2000 * (Z.of_nat attempt + 1))] else [])
  ++ (if (Z.of_nat attempt <? Z.of_nat maxRetries - 1)%Z
      then [Wait (JobSearch.delay attempt)] else []).

End Network.

Section ClientNetwork.

Variable fetch : jsstring -> nat -> promise ClientJobSearch.Response.

(** The same for the requests of the client. *)
Definition clientAnswered (url : jsstring) (j : nat)
  : option ClientJobSearch.Response :=
  match fetch url j with
  | Fulfilled response =>
      if ClientJobSearch.ok response then Some response else None
  | Rejected _ => None
  end.

Definition clientLastErrorOf (url : jsstring) (j : nat) : option error :=
  match fetch url j with
  | Fulfilled response =>
      match ClientJobSearch.text response with
      | Fulfilled errorText => Some (ClientJobSearch.failure response errorText)
      | Rejected reason => reason
      end
  | Rejected reason => reason
  end.

End ClientNetwork.

(** A server that answers 500 with a body that cannot be read. *)
Definition alwaysDown (url : jsstring) (j : nat)
  : promise ClientJobSearch.Response :=
  Fulfilled {| ClientJobSearch.ok := false; ClientJobSearch.status := 500;
               ClientJobSearch.text := Rejected (Some (TypeError (lit "body used already"))) |}.

(** The matcher state [n] code units into a subject, before [r], with no
    group captured. *)
Definition stateAt (p : option char16) (r : jsstring) (n : nat) : mstate :=
  {| prev := p; rest := r; pos := n; caps := [] |}.

(** What a greedy run over the code units [w], followed by [t], comes to:
    the continuation is tried after all of [w] first, then after one code
    unit less, and so on down to none. *)
Fixpoint greedyScan (k : cont) (p : option char16) (n : nat) (w t : jsstring)
  : option mstate :=
  match w with
  | [] => k (stateAt p t n)
  | c :: w' =>
      match greedyScan k (Some c) (S n) w' t with
      | Some z => Some z
      | None => k (stateAt p (c :: w' ++ t) n)
      end
  end.

(** The longest prefix of [s] made of code units accepted by [ok], and what
    follows it. *)
Fixpoint leading (ok : char16 -> bool) (s : jsstring) : jsstring :=
  match s with
  | [] => []
  | c :: t => if ok c then c :: leading ok t else []
  end.

Fixpoint trailing (ok : char16 -> bool) (s : jsstring) : jsstring :=
  match s with
  | [] => []
  | c :: t => if ok c then trailing ok t else s
  end.

(** [s] begins with a dot and two ASCII letters. *)
Definition tldAt (s : jsstring) : bool :=
  match s with
  | dot :: a :: b :: _ => Z.eqb dot 46 && asciiLetter a && asciiLetter b
  | _ => false
  end.

(** From the start of [s], code units that can stand in a domain lead to a
    dot followed by two letters. *)
Fixpoint laterTld (s : jsstring) : bool :=
  match s with
  | [] => false
  | c :: t => tldAt s || (domainChar c && laterTld t)
  end.

(** What follows an address makes the match of the e-mail expression run
    on: it begins with a letter, or leads to another dot and two letters. *)
Definition goesOn (suf : jsstring) : bool :=
  match suf with
  | c :: _ => asciiLetter c
  | [] => false
  end || laterTld suf.

(** The end of the e-mail expression: the dot and the letters after it. *)
Definition tldRe : regex :=
  Seq (Chr 46%Z) (Repeat (Class false [CsRange 97%Z 122%Z; CsRange 65%Z 90%Z]) 2 None true).

Definition localRe : regex := Eval cbv in
  match pattern emailRe with Seq (Seq (Seq la _) _) _ => la | _ => Empty end.
Definition domainRe : regex := Eval cbv in
  match pattern emailRe with Seq (Seq (Seq _ d) _) _ => d | _ => Empty end.








Definition manySkills (n : nat) : jsstring :=
  lit "Skills:" ++ LF ++ List.concat (repeat (lit "abc,") n) ++ LF ++ LF.

Definition skillsHeading : regex := Eval cbv in
  match pattern skillsSectionRe with Seq (Seq h _) _ => h | _ => Empty end.

Definition skillTokens (n : nat) : jsstring := List.concat (repeat (lit "abc,") n).




(** A network on which the first request is answered 429 and the later
    ones get the three jobs. *)
Definition busyThenJobs (url : jsstring) (j : nat)
  : promise JobSearch.Response :=
  match j with
  | O => Fulfilled busyResponse
  | S _ => Fulfilled threeResults
  end.

End SpecMore.

(* ================================================================== *)
(** * Properties                                                      *)
(* ================================================================== *)

(** ** Strings and insertion-ordered sets *)

Module JSFacts.
Import JS Spec.

Lemma str_eqb_eq (a b : jsstring) : str_eqb a b = true <-> a = b.
Proof.
  revert b; induction a as [|x a IH]; intros [|y b]; simpl; split;
    try discriminate; try reflexivity.
  - rewrite andb_true_iff. intros [Hx Hab].
    apply Z.eqb_eq in Hx. apply IH in Hab. now subst.
  - intros E; injection E as -> ->.
    rewrite andb_true_iff; split; [apply Z.eqb_refl | now apply IH].
Qed.

Lemma str_eqb_refl (a : jsstring) : str_eqb a a = true.
Proof. now apply str_eqb_eq. Qed.

Lemma Set_has_In (s : list jsstring) (x : jsstring) :
  Set_has s x = true <-> In x s.
Proof.
  unfold Set_has. rewrite existsb_exists. split.
  - intros (y & Hy & E). apply str_eqb_eq in E. now subst.
  - intros H. exists x. split; [assumption | apply str_eqb_refl].
Qed.

Lemma Set_has_not_In (s : list jsstring) (x : jsstring) :
  Set_has s x = false <-> ~ In x s.
Proof.
  rewrite <- Set_has_In. destruct (Set_has s x); split; intros H;
    try discriminate; try reflexivity; try congruence.
Qed.

(** Adding at the end of the array is adding to the set. *)
Lemma Set_of_snoc (l : list jsstring) (x : jsstring) :
  Set_of (l ++ [x]) = Set_add (Set_of l) x.
Proof. unfold Set_of. now rewrite fold_left_app. Qed.

Lemma Set_of_In (l : list jsstring) (x : jsstring) :
  In x (Set_of l) <-> In x l.
Proof.
  induction l as [|z l IH] using rev_ind.
  - reflexivity.
  - rewrite Set_of_snoc. unfold Set_add.
    destruct (Set_has (Set_of l) z) eqn:E.
    + apply Set_has_In in E. rewrite in_app_iff, <- IH. simpl.
      split; [tauto | intros [H|[->|[]]]; assumption].
    + rewrite !in_app_iff, IH. reflexivity.
Qed.

Lemma Set_of_NoDup (l : list jsstring) : NoDup (Set_of l).
Proof.
  induction l as [|z l IH] using rev_ind.
  - constructor.
  - rewrite Set_of_snoc. unfold Set_add.
    destruct (Set_has (Set_of l) z) eqn:E; [assumption|].
    apply Set_has_not_In in E.
    apply NoDup_rev in IH. rewrite <- (rev_involutive (Set_of l ++ [z])).
    apply NoDup_rev. rewrite rev_app_distr. simpl.
    constructor; [now rewrite <- in_rev | assumption].
Qed.

Lemma Set_of_order (l : list jsstring) (x y : jsstring) :
  before (Set_of l) x y -> seenFirst l x y.
Proof.
  induction l as [|z l IH] using rev_ind.
  - intros (a & b & c & E). destruct a; discriminate.
  - rewrite Set_of_snoc. unfold Set_add.
    destruct (Set_has (Set_of l) z) eqn:Hz.
    + intros H. destruct (IH H) as (p & q & -> & Hp).
      exists p, (q ++ [z]). split; [now rewrite <- app_assoc | assumption].
    + apply Set_has_not_In in Hz. intros (a & b & c & E).
      destruct c as [|c0 c] using rev_ind.
      * (* [y] is the entry just added *)
        replace (a ++ x :: b ++ [y]) with ((a ++ x :: b) ++ [y]) in E
          by (now rewrite <- app_assoc).
        apply app_inj_tail in E. destruct E as [E ->].
        assert (Hx : In x l).
        { apply Set_of_In. rewrite E. apply in_elt. }
        destruct (in_split _ _ Hx) as (p & q & ->).
        exists p, (q ++ [y]). split; [now rewrite <- app_assoc|].
        intros Hy. apply Hz, Set_of_In. apply in_or_app. now left.
      * 
        replace (a ++ x :: b ++ y :: c ++ [c0])
          with ((a ++ x :: b ++ y :: c) ++ [c0]) in E
          by (rewrite <- !app_assoc; simpl; now rewrite <- !app_assoc).
        apply app_inj_tail in E. destruct E as [E ->].
        destruct IH as (p & q & -> & Hp); [now exists a, b, c|].
        exists p, (q ++ [c0]). split; [now rewrite <- app_assoc | assumption].
Qed.

End JSFacts.

(** ** The matcher: what a successful attempt went through *)

Module RegExpFacts.
Import JS RegExp Spec.

Lemma reaches_refl gs s : reaches 0 gs s s.
Proof. split; [unfold advances; lia | now intros i v _ H]. Qed.

Lemma reaches_trans n p gs s1 s2 s3 :
  reaches n gs s1 s2 -> reaches p gs s2 s3 -> reaches (n + p) gs s1 s3.
Proof.
  intros [A1 K1] [A2 K2]. split; [unfold advances in *; lia|].
  intros i v Hi H. apply K2, K1; assumption.
Qed.

Lemma reaches_weaken n p gs gs' s1 s2 :
  p <= n -> incl gs gs' -> reaches n gs s1 s2 -> reaches p gs' s1 s2.
Proof.
  intros Hle Hin [A K]. split; [unfold advances in *; lia|].
  intros i v Hi H. apply K; [|assumption]. intros Hgs. apply Hi, Hin, Hgs.
Qed.

Lemma lookupCap_filter gs i : forall cs,
  ~ In i gs ->
  lookupCap (filter (fun e => negb (existsb (Nat.eqb (fst e)) gs)) cs) i
  = lookupCap cs i.
Proof.
  intros cs Hi. induction cs as [|[j v] cs IH]; [reflexivity|].
  simpl. destruct (existsb (Nat.eqb j) gs) eqn:E; simpl.
  - destruct (Nat.eqb_spec i j) as [->|_]; [|exact IH].
    apply existsb_exists in E. destruct E as (x & Hx & Ex).
    apply Nat.eqb_eq in Ex. subst x. contradiction.
  - now rewrite IH.
Qed.

Lemma resetCaps_reaches gs s : reaches 0 gs s (resetCaps gs s).
Proof.
  split; [unfold advances; simpl; lia|].
  intros i v Hi H. simpl. now rewrite lookupCap_filter.
Qed.

Lemma step_inv ok s k z :
  step ok s k = Some z ->
  exists c t, rest s = c :: t /\ ok c = true /\
    k {| prev := Some c; rest := t; pos := S (pos s); caps := caps s |} = Some z.
Proof.
  unfold step. destruct (rest s) as [|c t]; [discriminate|].
  destruct (ok c) eqn:E; [|discriminate].
  intros H. now exists c, t.
Qed.

Lemma step_reaches ok : bodyReaches 1 [] (step ok).
Proof.
  intros s k z H. apply step_inv in H. destruct H as (c & t & Hr & _ & Hk).
  eexists; split; [exact Hk|]. split.
  - unfold advances; simpl. rewrite Hr; simpl. lia.
  - now intros i v _ Hv.
Qed.

Lemma requiredReps_inv len gs body after n :
  bodyReaches len gs body ->
  forall x z, requiredReps body after n x = Some z ->
    exists y, after y = Some z /\ reaches (n * len) gs x y.
Proof.
  intros Hb. induction n as [|n IH]; intros x z H; simpl in H.
  - exists x. split; [assumption | apply reaches_refl].
  - apply Hb in H. destruct H as (y & Hy & A1).
    apply IH in Hy. destruct Hy as (y' & Hy' & A2).
    exists y'. split; [assumption|].
    simpl. eapply reaches_trans; eassumption.
Qed.

Lemma optionalReps_inv len gs body greedy k room :
  bodyReaches len gs body ->
  forall left x z, optionalReps body greedy k room left x = Some z ->
    exists y, k y = Some z /\ reaches 0 gs x y.
Proof.
  intros Hb. induction room as [|room IH]; intros left x z H.
  - simpl in H. exists x. split; [|apply reaches_refl].
    destruct greedy; [assumption|]. now destruct (k x).
  - assert (Hagain : forall left',
      body x (fun y => if Nat.ltb (pos x) (pos y)
                       then optionalReps body greedy k room left' y
                       else None) = Some z ->
      exists y, k y = Some z /\ reaches 0 gs x y).
    { intros left' Ha. apply Hb in Ha. destruct Ha as (y & Hy & A1).
      destruct (Nat.ltb (pos x) (pos y)); [|discriminate].
      apply IH in Hy. destruct Hy as (y' & Hy' & A2).
      exists y'. split; [assumption|].
      apply reaches_weaken with (n := len + 0) (gs := gs);
        [lia | apply incl_refl |].
      eapply reaches_trans; eassumption. }
    simpl in H. destruct greedy.
    + destruct left as [[|l]|].
      * exists x. split; [assumption | apply reaches_refl].
      * match type of H with
        | match ?a with _ => _ end = _ => destruct a eqn:Ea
        end.
        -- injection H as ->. now apply Hagain in Ea.
        -- exists x. split; [assumption | apply reaches_refl].
      * match type of H with
        | match ?a with _ => _ end = _ => destruct a eqn:Ea
        end.
        -- injection H as ->. now apply Hagain in Ea.
        -- exists x. split; [assumption | apply reaches_refl].
    + destruct (k x) eqn:Ek.
      * injection H as ->. exists x. split; [assumption | apply reaches_refl].
      * destruct left as [[|l]|]; [discriminate| |]; now apply Hagain in H.
Qed.

(** Every success of the matcher is a success of its continuation, at a
    state at least [minLen r] code units further on that still has the
    captures of the groups outside [r]. *)
Lemma m_inv ic ml r : bodyReaches (minLen r) (groupsOf r) (m ic ml r).
Proof.
  induction r as [ |c| |inv items|a IHa b IHb|a IHa b IHb|i a IHa
                  |a IHa mn mx greedy| | |p]; intros s k z H; simpl in H.
  - exists s. split; [assumption | apply reaches_refl].
  - now apply step_reaches in H.
  - now apply step_reaches in H.
  - now apply step_reaches in H.
  - apply IHa in H. destruct H as (s1 & H1 & A1).
    apply IHb in H1. destruct H1 as (s2 & H2 & A2).
    exists s2. split; [assumption|]. simpl.
    eapply reaches_trans.
    + eapply reaches_weaken; [apply Nat.le_refl | | exact A1].
      apply incl_appl, incl_refl.
    + eapply reaches_weaken; [apply Nat.le_refl | | exact A2].
      apply incl_appr, incl_refl.
  - destruct (m ic ml a s k) eqn:Ea.
    + injection H as ->. apply IHa in Ea. destruct Ea as (y & Hy & A).
      exists y. split; [assumption|]. simpl.
      eapply reaches_weaken; [apply Nat.le_min_l | | exact A].
      apply incl_appl, incl_refl.
    + apply IHb in H. destruct H as (y & Hy & A).
      exists y. split; [assumption|]. simpl.
      eapply reaches_weaken; [apply Nat.le_min_r | | exact A].
      apply incl_appr, incl_refl.
  - apply IHa in H. destruct H as (s1 & H1 & [A1 K1]).
    exists (capture i s s1). split; [assumption|]. split; [exact A1|].
    intros j v Hj Hv. simpl in Hj. simpl.
    destruct (Nat.eqb_spec j i) as [->|_]; [tauto|].
    apply K1; [tauto | assumption].
  - assert (Hb : bodyReaches (minLen a) (groupsOf a)
                   (fun x d => m ic ml a (resetCaps (groupsOf a) x) d)).
    { intros x d z' Hx. apply IHa in Hx. destruct Hx as (y & Hy & A).
      exists y. split; [assumption|].
      apply (reaches_trans 0 (minLen a) (groupsOf a) x (resetCaps (groupsOf a) x) y
               (resetCaps_reaches (groupsOf a) x) A). }
    apply (requiredReps_inv _ _ _ _ _ Hb) in H. destruct H as (y & Hy & A1).
    apply (optionalReps_inv _ _ _ _ _ _ Hb) in Hy. destruct Hy as (y' & Hy' & A2).
    exists y'. split; [assumption|]. simpl.
    apply reaches_weaken with (n := mn * minLen a + 0) (gs := groupsOf a);
      [lia | apply incl_refl |].
    eapply reaches_trans; eassumption.
  - destruct (atLineStart ml s); [|discriminate].
    exists s. split; [assumption | apply reaches_refl].
  - destruct (atLineEnd ml s); [|discriminate].
    exists s. split; [assumption | apply reaches_refl].
  - destruct (Bool.eqb p (atWordBoundary s)); [|discriminate].
    exists s. split; [assumption | apply reaches_refl].
Qed.

(** A pattern that defines group [i] hands to its continuation a state in
    which [i] is captured. *)
Lemma m_defines ic ml i r :
  definesGroup i r = true ->
  forall s k z, m ic ml r s k = Some z ->
    exists y v, k y = Some z /\ lookupCap (caps y) i = Some v.
Proof.
  induction r as [ |c| |inv items|a IHa b IHb|a IHa b IHb|j a IHa
                  |a IHa mn mx greedy| | |p]; simpl; try discriminate;
    intros Hd s k z H.
  - apply orb_true_iff in Hd. destruct Hd as [Hd|Hd].
    + apply andb_true_iff in Hd. destruct Hd as [Ha Hb].
      apply (IHa Ha) in H. destruct H as (s1 & v & H1 & Hv).
      apply m_inv in H1. destruct H1 as (y & Hy & _ & K).
      exists y, v. split; [assumption|]. apply K; [|assumption].
      intros Hin. apply negb_true_iff in Hb.
      assert (E : existsb (Nat.eqb i) (groupsOf b) = true).
      { apply existsb_exists. exists i. split; [assumption | apply Nat.eqb_refl]. }
      congruence.
    + apply m_inv in H. destruct H as (s1 & H1 & _).
      now apply (IHb Hd) in H1.
  - apply andb_true_iff in Hd. destruct Hd as [Ha Hb].
    destruct (m ic ml a s k) eqn:Ea.
    + injection H as ->. now apply (IHa Ha) in Ea.
    + now apply (IHb Hb) in H.
  - apply orb_true_iff in Hd. destruct Hd as [Hd|Hd].
    + apply Nat.eqb_eq in Hd. subst j.
      apply m_inv in H. destruct H as (s1 & H1 & _).
      eexists; eexists. split; [exact H1|]. simpl. now rewrite Nat.eqb_refl.
    + apply (IHa Hd) in H. destruct H as (s1 & v & H1 & Hv).
      exists (capture j s s1). simpl.
      destruct (Nat.eqb i j); eauto.
Qed.

(** *** The bound on the iterations of a quantifier *)

Lemma advances_step n s y y' :
  advances n s y -> advances 0 y y' -> advances n s y'.
Proof. unfold advances. lia. Qed.

Lemma step_local ok : bodyLocal (step ok).
Proof.
  intros s d d' H. unfold step. destruct (rest s) as [|c t] eqn:E; [reflexivity|].
  destruct (ok c); [|reflexivity]. apply H.
  unfold advances; simpl. rewrite E; simpl. lia.
Qed.

Lemma optionalReps_local body greedy room :
  bodyLocal body ->
  forall left x k k',
    (forall y, advances 0 x y -> k y = k' y) ->
    optionalReps body greedy k room left x = optionalReps body greedy k' room left x.
Proof.
  intros Hb. induction room as [|room IH]; intros left x k k' H; simpl.
  - now rewrite (H x ltac:(unfold advances; lia)).
  - rewrite (H x ltac:(unfold advances; lia)).
    assert (E : forall left',
      body x (fun y => if Nat.ltb (pos x) (pos y)
                       then optionalReps body greedy k room left' y else None)
      = body x (fun y => if Nat.ltb (pos x) (pos y)
                         then optionalReps body greedy k' room left' y else None)).
    { intros left'. apply Hb. intros y Hy.
      destruct (Nat.ltb (pos x) (pos y)); [|reflexivity].
      apply IH. intros y' Hy'. apply H. eapply advances_step; eassumption. }
    destruct left as [[|l]|]; [reflexivity | |]; now rewrite E.
Qed.

Lemma requiredReps_local body n :
  bodyLocal body ->
  forall x after after',
    (forall y, advances 0 x y -> after y = after' y) ->
    requiredReps body after n x = requiredReps body after' n x.
Proof.
  intros Hb. induction n as [|n IH]; intros x after after' H; simpl.
  - apply H. unfold advances; lia.
  - apply Hb. intros y Hy. apply IH. intros y' Hy'. apply H.
    eapply advances_step; eassumption.
Qed.

Lemma m_local ic ml r : bodyLocal (m ic ml r).
Proof.
  induction r as [ |c| |inv items|a IHa b IHb|a IHa b IHb|i a IHa
                  |a IHa mn mx greedy| | |p]; intros s k k' H; simpl.
  - apply H. unfold advances; lia.
  - now apply step_local.
  - now apply step_local.
  - now apply step_local.
  - apply IHa. intros y Hy. apply IHb. intros y' Hy'. apply H.
    eapply advances_step; eassumption.
  - rewrite (IHa s k k' H), (IHb s k k' H). reflexivity.
  - apply IHa. intros y Hy. apply H. exact Hy.
  - assert (Hb : bodyLocal (fun x d => m ic ml a (resetCaps (groupsOf a) x) d)).
    { intros x d d' Hd. apply IHa. intros y Hy. apply Hd. exact Hy. }
    apply requiredReps_local; [exact Hb|].
    intros y Hy. apply optionalReps_local; [exact Hb|].
    intros y' Hy'. apply H. eapply advances_step; eassumption.
  - destruct (atLineStart ml s); [|reflexivity]. apply H. unfold advances; lia.
  - destruct (atLineEnd ml s); [|reflexivity]. apply H. unfold advances; lia.
  - destruct (Bool.eqb p (atWordBoundary s)); [|reflexivity].
    apply H. unfold advances; lia.
Qed.

(** A body cannot reach a continuation that refuses every state. *)
Lemma body_refused len gs body x d :
  bodyReaches len gs body ->
  (forall y, advances 0 x y -> d y = None) ->
  body x d = None.
Proof.
  intros Hb H. destruct (body x d) as [z|] eqn:E; [|reflexivity].
  apply Hb in E. destruct E as (y & Hy & [A _]).
  rewrite H in Hy; [discriminate|]. unfold advances in *. lia.
Qed.

(** The bound on the iterations of a quantifier is never what ends them:
    any bound from the number of code units left on gives the same result. *)
Lemma optionalReps_room len gs body greedy k :
  bodyLocal body -> bodyReaches len gs body ->
  forall room room' left x,
    List.length (rest x) <= room -> List.length (rest x) <= room' ->
    optionalReps body greedy k room left x
    = optionalReps body greedy k room' left x.
Proof.
  intros Hl Hb.
  assert (Hend : forall room left x, List.length (rest x) = 0 ->
            optionalReps body greedy k room left x
            = optionalReps body greedy k 0 left x).
  { intros [|room] left x Hx; [reflexivity|]. simpl.
    assert (E : forall left',
      body x (fun y => if Nat.ltb (pos x) (pos y)
                       then optionalReps body greedy k room left' y else None)
      = None).
    { intros left'. apply (body_refused len gs); [exact Hb|].
      intros y Hy. replace (Nat.ltb (pos x) (pos y)) with false; [reflexivity|].
      symmetry. apply Nat.ltb_ge. unfold advances in Hy. lia. }
    destruct left as [[|l]|]; [reflexivity | |]; now rewrite E. }
  induction room as [|room IH]; intros room' left x Hr Hr'.
  - symmetry. apply Hend. lia.
  - destruct room' as [|room']; [apply Hend; lia|]. simpl.
    assert (E : forall left',
      body x (fun y => if Nat.ltb (pos x) (pos y)
                       then optionalReps body greedy k room left' y else None)
      = body x (fun y => if Nat.ltb (pos x) (pos y)
                         then optionalReps body greedy k room' left' y else None)).
    { intros left'. apply Hl. intros y Hy.
      destruct (Nat.ltb (pos x) (pos y)) eqn:Elt; [|reflexivity].
      apply Nat.ltb_lt in Elt. unfold advances in Hy.
      apply IH; lia. }
    destruct left as [[|l]|]; [reflexivity | |]; now rewrite E.
Qed.

(** So for the quantifiers of the matcher. *)
Lemma quantifier_room ic ml a greedy k room left x :
  List.length (rest x) <= room ->
  optionalReps (fun y d => m ic ml a (resetCaps (groupsOf a) y) d) greedy k room left x
  = optionalReps (fun y d => m ic ml a (resetCaps (groupsOf a) y) d) greedy k
      (List.length (rest x)) left x.
Proof.
  intros H. apply (optionalReps_room (minLen a) (groupsOf a)); [| |exact H|lia].
  - intros y d d' Hd. apply m_local. intros y' Hy'. apply Hd. exact Hy'.
  - intros y d z Hz. apply m_inv in Hz. destruct Hz as (y' & Hy' & A).
    exists y'. split; [assumption|].
    apply (reaches_trans 0 (minLen a) (groupsOf a) y (resetCaps (groupsOf a) y) y'
             (resetCaps_reaches (groupsOf a) y) A).
Qed.

(** *** Attempts, searches and loops *)

(** A successful attempt ends inside the subject, past the least length
    of the pattern. *)
Lemma matchAt_bounds re before subject s :
  matchAt re before subject = Some s ->
  minLen (pattern re) <= pos s <= List.length subject.
Proof.
  unfold matchAt. intros H. apply m_inv in H.
  destruct H as (y & Hy & A & _). injection Hy as ->.
  unfold advances in A; simpl in A. lia.
Qed.

(** What [search] returns is the result of the attempt at the least index
    where one succeeds. *)
Lemma search_leftmost re : forall subject before k r,
  search re before subject k = Some r ->
  exists j s,
    noMatchBefore re before subject j /\
    matchAt re (unitBefore before subject j) (skipn j subject) = Some s /\
    r = resultOf re (k + j) (skipn j subject) s /\
    j <= List.length subject.
Proof.
  induction subject as [|c t IH]; intros before k r H; simpl in H.
  - destruct (matchAt re before []) as [s|] eqn:E; [|discriminate].
    injection H as <-. exists 0, s. rewrite Nat.add_0_r.
    repeat split; auto. intros i Hi; lia.
  - destruct (matchAt re before (c :: t)) as [s|] eqn:E.
    + injection H as <-. exists 0, s. rewrite Nat.add_0_r.
      repeat split; auto; [intros i Hi; lia | simpl; lia].
    + apply IH in H. destruct H as (j & s & Hno & Hm & -> & Hj).
      exists (S j), s. rewrite Nat.add_succ_r.
      repeat split; auto; [| | simpl; lia].
      * intros [|i] Hi; [exact E|].
        specialize (Hno i ltac:(lia)). simpl. destruct i; exact Hno.
      * simpl. destruct j; exact Hm.
Qed.

Lemma String_match_leftmost re text r :
  String_match text re = Some r ->
  noMatchBefore re None text (index r) /\
  exists s,
    matchAt re (unitBefore None text (index r)) (skipn (index r) text) = Some s /\
    r = resultOf re (index r) (skipn (index r) text) s.
Proof.
  unfold String_match, exec. cbn [Nat.ltb Nat.leb]. intros H.
  apply search_leftmost in H. destruct H as (j & s & Hno & Hm & -> & _).
  simpl. split; [exact Hno | eauto].
Qed.

Lemma exec_bounds re text from r :
  exec re text from = Some r ->
  from + minLen (pattern re) <= endIndex r <= List.length text.
Proof.
  unfold exec. destruct (Nat.ltb (List.length text) from) eqn:E; [discriminate|].
  apply Nat.ltb_ge in E. intros H. apply search_leftmost in H.
  destruct H as (j & s & _ & Hm & -> & Hj).
  apply matchAt_bounds in Hm. rewrite !length_skipn in *. simpl. lia.
Qed.

(** A match of an expression that defines group [i] has [match[i]]. *)
Lemma group_defined re i text r :
  definesGroup i (pattern re) = true ->
  1 <= i <= nGroups re ->
  String_match text re = Some r ->
  exists v, group r i = Some v.
Proof.
  intros Hd Hi H. apply String_match_leftmost in H.
  destruct H as (_ & s & Hm & ->).
  unfold matchAt in Hm. apply (m_defines _ _ _ _ Hd) in Hm.
  destruct Hm as (y & v & Hy & Hv). injection Hy as <-.
  exists v. unfold group, resultOf. cbn [groups].
  rewrite (nth_indep _ None (lookupCap (caps y) (S 0)))
    by (rewrite length_map, length_seq; lia).
  rewrite (map_nth (fun g => lookupCap (caps y) (S g))).
  rewrite seq_nth by lia. replace (S (0 + (i - 1))) with i by lia. exact Hv.
Qed.

(** A [while] loop over [exec] ends when the expression cannot match the
    empty string: [lastIndex] then grows at every round. *)
Lemma execLoop_ends re text :
  0 < minLen (pattern re) ->
  forall fuel from, 0 < fuel -> List.length text < from + fuel ->
    exists ms, execLoop fuel re text from = Some ms.
Proof.
  intros Hlen. induction fuel as [|fuel IH]; intros from Hpos Hf; [lia|].
  simpl. destruct (exec re text from) as [r|] eqn:E.
  - apply exec_bounds in E.
    destruct (IH (endIndex r)) as (ms & ->); [lia | lia |].
    now exists (r :: ms).
  - now exists [].
Qed.

Lemma execLoop_more re text : forall fuel from ms,
  execLoop fuel re text from = Some ms ->
  forall fuel', fuel <= fuel' -> execLoop fuel' re text from = Some ms.
Proof.
  induction fuel as [|fuel IH]; intros from ms H fuel' Hle; [discriminate|].
  destruct fuel' as [|fuel']; [lia|]. simpl in *.
  destruct (exec re text from) as [r|]; [|assumption].
  destruct (execLoop fuel re text (endIndex r)) as [ms'|] eqn:E; [|discriminate].
  rewrite (IH _ _ E fuel'); [assumption | lia].
Qed.

(** The search is leftmost: it passes over the indices where the attempt
    fails and stops at the first where it succeeds. *)
Lemma search_skip re : forall pre b rest k,
  noMatchBefore re b (pre ++ rest) (List.length pre) ->
  search re b (pre ++ rest) k
  = search re (unitBefore b (pre ++ rest) (List.length pre)) rest
      (k + List.length pre).
Proof.
  induction pre as [|c pre IH]; intros b rest k H.
  - simpl. now rewrite Nat.add_0_r.
  - cbn [app List.length search].
    pose proof (H 0 ltac:(simpl; lia)) as H0. cbn [unitBefore skipn app] in H0.
    rewrite H0. rewrite IH.
    + simpl. rewrite Nat.add_succ_r. f_equal.
      destruct (List.length pre); reflexivity.
    + intros i Hi. specialize (H (S i) ltac:(simpl; lia)).
      simpl in H. destruct i; exact H.
Qed.

Lemma search_here re b subject k s :
  matchAt re b subject = Some s ->
  search re b subject k = Some (resultOf re k subject s).
Proof. intros H. destruct subject; simpl; now rewrite H. Qed.

Lemma String_match_at re pre rest s :
  noMatchBefore re None (pre ++ rest) (List.length pre) ->
  matchAt re (unitBefore None (pre ++ rest) (List.length pre)) rest = Some s ->
  String_match (pre ++ rest) re = Some (resultOf re (List.length pre) rest s).
Proof.
  intros Hno Hm. unfold String_match, exec. cbn [Nat.ltb Nat.leb].
  change (charBefore (pre ++ rest) 0) with (@None char16).
  change (skipn 0 (pre ++ rest)) with (pre ++ rest).
  rewrite search_skip by exact Hno. now apply search_here.
Qed.

(** *** What the matcher matches *)

Lemma lastOf_app b w1 w2 : lastOf b (w1 ++ w2) = lastOf (lastOf b w1) w2.
Proof. unfold lastOf. apply fold_left_app. Qed.

Lemma consumed_refl s : consumed s s [].
Proof. unfold consumed. simpl. repeat split. lia. Qed.

Lemma consumed_trans s1 s2 s3 w1 w2 :
  consumed s1 s2 w1 -> consumed s2 s3 w2 -> consumed s1 s3 (w1 ++ w2).
Proof.
  intros (R1 & P1 & N1) (R2 & P2 & N2). unfold consumed.
  rewrite R1, R2, P2, P1, N2, N1, lastOf_app, length_app, <- app_assoc.
  repeat split. lia.
Qed.

Lemma consumed_advances s y w : consumed s y w -> advances 0 s y.
Proof.
  intros (R & _ & N). unfold advances. rewrite R, N, length_app. lia.
Qed.

Lemma iter_app one : forall n j b w1 w2 t,
  iter n one b w1 (w2 ++ t) -> iter j one (lastOf b w1) w2 t ->
  iter (n + j) one b (w1 ++ w2) t.
Proof.
  induction n as [|n IH]; intros j b w1 w2 t H1 H2; simpl in *.
  - subst w1. exact H2.
  - destruct H1 as (u1 & u2 & -> & Hone & Hrest).
    exists u1, (u2 ++ w2). rewrite <- !app_assoc in *. repeat split; auto.
    apply IH; [exact Hrest|]. now rewrite <- lastOf_app.
Qed.

Lemma lookupCap_filter_some gs i v : forall cs,
  lookupCap (filter (fun e => negb (existsb (Nat.eqb (fst e)) gs)) cs) i = Some v ->
  lookupCap cs i = Some v.
Proof.
  induction cs as [|[j u] cs IH]; simpl; [discriminate|].
  destruct (existsb (Nat.eqb j) gs) eqn:E; simpl.
  - intros H. destruct (Nat.eqb_spec i j) as [->|_]; [|now apply IH].
    exfalso. clear IH. induction cs as [|[j' u'] cs IHcs]; simpl in H; [discriminate|].
    destruct (existsb (Nat.eqb j') gs) eqn:E'; simpl in H; [now apply IHcs|].
    destruct (Nat.eqb_spec j j') as [->|_]; [congruence | now apply IHcs].
  - destruct (Nat.eqb i j); [auto | apply IH].
Qed.

Lemma capsIn_reset P gs s : capsIn P s -> capsIn P (resetCaps gs s).
Proof.
  intros H i v Hv. simpl in Hv. apply lookupCap_filter_some in Hv. now apply H.
Qed.

Lemma step_sound ic ml a ok (one : option char16 -> jsstring -> jsstring -> Prop) :
  (forall b c t, ok c = true -> one b [c] t) ->
  (forall P, groupsSound ic ml P a) ->
  bodySound ic ml a one (step ok).
Proof.
  intros Hone _ s k z H. apply step_inv in H.
  destruct H as (c & t & Hr & Hok & Hk).
  eexists; exists [c]. split; [exact Hk|]. split; [|split].
  - unfold consumed; simpl. rewrite Hr. repeat split. lia.
  - simpl. now apply Hone.
  - intros P _ HP. exact HP.
Qed.

Lemma requiredReps_sound ic ml a one body after n :
  bodySound ic ml a one body ->
  forall x z, requiredReps body after n x = Some z ->
    exists y w, after y = Some z /\ consumed x y w /\
      iter n one (prev x) w (rest y) /\
      (forall P, groupsSound ic ml P a -> capsIn P x -> capsIn P y).
Proof.
  intros Hb. induction n as [|n IH]; intros x z H; simpl in H.
  - exists x, []. split; [assumption|]. split; [apply consumed_refl|].
    split; [reflexivity | auto].
  - apply Hb in H. destruct H as (y & w1 & Hy & C1 & L1 & G1).
    apply IH in Hy. destruct Hy as (y' & w2 & Hy' & C2 & L2 & G2).
    exists y', (w1 ++ w2). split; [assumption|].
    split; [eapply consumed_trans; eassumption|]. split.
    + simpl. exists w1, w2. split; [reflexivity|].
      destruct C1 as (_ & P1 & _). destruct C2 as (R2 & _ & _).
      rewrite <- R2, <- P1. auto.
    + intros P HP Hx. apply G2; [assumption|]. now apply G1.
Qed.

Lemma optionalReps_sound ic ml a one body greedy k room :
  bodySound ic ml a one body ->
  forall left x z, optionalReps body greedy k room left x = Some z ->
    exists y w j, k y = Some z /\ consumed x y w /\
      match left with Some hi => j <= hi | None => True end /\
      iter j one (prev x) w (rest y) /\
      (forall P, groupsSound ic ml P a -> capsIn P x -> capsIn P y).
Proof.
  intros Hb. induction room as [|room IH]; intros left x z H.
  - simpl in H. exists x, [], 0. split; [|split; [apply consumed_refl|]].
    + destruct greedy; [assumption|]. now destruct (k x).
    + split; [destruct left; lia || exact I|]. split; [reflexivity | auto].
  - assert (Hstop : k x = Some z ->
      exists y w j, k y = Some z /\ consumed x y w /\
        match left with Some hi => j <= hi | None => True end /\
        iter j one (prev x) w (rest y) /\
        (forall P, groupsSound ic ml P a -> capsIn P x -> capsIn P y)).
    { intros Hk. exists x, [], 0. split; [assumption|].
      split; [apply consumed_refl|].
      split; [destruct left; lia || exact I|]. split; [reflexivity | auto]. }
    assert (Hagain : forall left',
      match left with Some hi => hi <> 0 /\ left' = Some (Nat.pred hi)
                    | None => left' = None end ->
      body x (fun y => if Nat.ltb (pos x) (pos y)
                       then optionalReps body greedy k room left' y
                       else None) = Some z ->
      exists y w j, k y = Some z /\ consumed x y w /\
        match left with Some hi => j <= hi | None => True end /\
        iter j one (prev x) w (rest y) /\
        (forall P, groupsSound ic ml P a -> capsIn P x -> capsIn P y)).
    { intros left' Hleft Ha. apply Hb in Ha.
      destruct Ha as (y & w1 & Hy & C1 & L1 & G1).
      destruct (Nat.ltb (pos x) (pos y)); [|discriminate].
      apply IH in Hy. destruct Hy as (y' & w2 & j & Hy' & C2 & Hj & L2 & G2).
      exists y', (w1 ++ w2), (S j). split; [assumption|].
      split; [eapply consumed_trans; eassumption|]. split; [|split].
      - destruct left as [hi|]; [|exact I].
        destruct Hleft as [Hne ->]. simpl in Hj. lia.
      - simpl. exists w1, w2. split; [reflexivity|].
        destruct C1 as (_ & P1 & _). destruct C2 as (R2 & _ & _).
        rewrite <- R2, <- P1. auto.
      - intros P HP Hx. apply G2; [assumption|]. now apply G1. }
    simpl in H. destruct greedy.
    + destruct left as [[|l]|].
      * now apply Hstop.
      * match type of H with
        | match ?e with _ => _ end = _ => destruct e eqn:Ea
        end.
        -- injection H as ->. revert Ea. apply Hagain. split; [lia | reflexivity].
        -- now apply Hstop.
      * match type of H with
        | match ?e with _ => _ end = _ => destruct e eqn:Ea
        end.
        -- injection H as ->. revert Ea. now apply Hagain.
        -- now apply Hstop.
    + destruct (k x) eqn:Ek.
      * injection H as ->. now apply Hstop.
      * destruct left as [[|l]|]; [discriminate| |]; revert H; apply Hagain;
          [split; [lia | reflexivity] | reflexivity].
Qed.

(** The matcher is sound for [lang]: what it read on the way to the state
    its continuation accepted is matched by the pattern, and the captures it
    made are matched by their groups. *)
Lemma m_sound ic ml r : bodySound ic ml r (lang ic ml r) (m ic ml r).
Proof.
  induction r as [ |c| |inv items|a IHa b IHb|a IHa b IHb|i a IHa
                  |a IHa mn mx greedy| | |p]; intros s k z H; simpl in H.
  - exists s, []. split; [assumption|]. split; [apply consumed_refl|].
    split; [reflexivity | auto].
  - revert H. apply step_sound; [|simpl; auto]. intros b x t Hx. simpl. eauto.
  - revert H. apply step_sound; [|simpl; auto]. intros b x t Hx. simpl.
    exists x. split; [reflexivity|]. now apply negb_true_iff.
  - revert H. apply step_sound; [|simpl; auto]. intros b x t Hx. simpl. eauto.
  - apply IHa in H. destruct H as (s1 & w1 & H1 & C1 & L1 & G1).
    apply IHb in H1. destruct H1 as (s2 & w2 & H2 & C2 & L2 & G2).
    exists s2, (w1 ++ w2). split; [assumption|].
    split; [eapply consumed_trans; eassumption|]. split.
    + simpl. exists w1, w2. split; [reflexivity|].
      destruct C1 as (_ & P1 & _). destruct C2 as (R2 & _ & _).
      rewrite <- R2, <- P1. auto.
    + intros P [HPa HPb] Hs. apply G2; [assumption|]. now apply G1.
  - destruct (m ic ml a s k) eqn:Ea.
    + injection H as ->. apply IHa in Ea. destruct Ea as (y & w & Hy & C & L & G).
      exists y, w. repeat split; auto; try apply C.
      * simpl. now left.
      * intros P [HPa _]. now apply G.
    + apply IHb in H. destruct H as (y & w & Hy & C & L & G).
      exists y, w. repeat split; auto; try apply C.
      * simpl. now right.
      * intros P [_ HPb]. now apply G.
  - apply IHa in H. destruct H as (s1 & w & H1 & C & L & G).
    exists (capture i s s1), w. split; [assumption|]. split; [exact C|].
    split; [exact L|].
    intros P [HPi HPa] Hs j v Hv. simpl in Hv.
    destruct (Nat.eqb_spec j i) as [->|_].
    * injection Hv as <-. destruct C as (R & _ & N).
      rewrite N, R. replace (pos s + List.length w - pos s) with (List.length w) by lia.
      rewrite firstn_app, firstn_all, Nat.sub_diag. simpl. rewrite app_nil_r.
      eapply HPi. exact L.
    * revert Hv. now apply G.
  - assert (Hb : bodySound ic ml a (lang ic ml a)
                   (fun x d => m ic ml a (resetCaps (groupsOf a) x) d)).
    { intros x d z' Hx. apply IHa in Hx. destruct Hx as (y & w & Hy & C & L & G).
      exists y, w. repeat split; auto; try apply C.
      intros P HP Hcx. apply G; [assumption|]. now apply capsIn_reset. }
    apply (requiredReps_sound _ _ _ _ _ _ _ Hb) in H.
    destruct H as (y & w1 & Hy & C1 & L1 & G1).
    apply (optionalReps_sound _ _ _ _ _ _ _ _ Hb) in Hy.
    destruct Hy as (y' & w2 & j & Hy' & C2 & Hj & L2 & G2).
    exists y', (w1 ++ w2). split; [assumption|].
    split; [eapply consumed_trans; eassumption|]. split.
    + simpl. exists j. split.
      * destruct mx; [exact Hj | exact I].
      * apply iter_app.
        -- destruct C2 as (R2 & _ & _). now rewrite <- R2.
        -- destruct C1 as (_ & P1 & _). now rewrite <- P1.
    + intros P HP Hs. apply G2; [assumption|]. now apply G1.
  - destruct (atLineStart ml s) eqn:E; [|discriminate].
    exists s, []. split; [assumption|]. split; [apply consumed_refl|].
    split; [|auto]. simpl. split; [reflexivity | exact E].
  - destruct (atLineEnd ml s) eqn:E; [|discriminate].
    exists s, []. split; [assumption|]. split; [apply consumed_refl|].
    split; [|auto]. simpl. split; [reflexivity | exact E].
  - destruct (Bool.eqb p (atWordBoundary s)) eqn:E; [|discriminate].
    exists s, []. split; [assumption|]. split; [apply consumed_refl|].
    split; [|auto]. simpl. split; [reflexivity | exact E].
Qed.

Lemma unitBefore_lastOf : forall text b j,
  j <= List.length text -> unitBefore b text j = lastOf b (firstn j text).
Proof.
  induction text as [|c text IH]; intros b j Hj.
  - simpl in Hj. replace j with 0 by lia. reflexivity.
  - destruct j as [|j]; [reflexivity|].
    simpl in Hj. cbn [firstn lastOf fold_left unitBefore nth_error].
    specialize (IH (Some c) j ltac:(lia)). unfold lastOf in IH. rewrite <- IH.
    destruct j; reflexivity.
Qed.

(** A successful attempt read a word of the pattern's language, and its
    captures are words of their groups. *)
Lemma matchAt_sound re b subject s :
  matchAt re b subject = Some s ->
  subject = firstn (pos s) subject ++ rest s /\
  List.length (firstn (pos s) subject) = pos s /\
  lang (ignoreCase re) (multiline re) (pattern re) b (firstn (pos s) subject) (rest s) /\
  (forall P, groupsSound (ignoreCase re) (multiline re) P (pattern re) -> capsIn P s).
Proof.
  unfold matchAt. intros H. apply m_sound in H.
  destruct H as (y & w & Hy & (R & _ & N) & L & G). injection Hy as ->.
  simpl in R, N, L. subst subject. rewrite N.
  rewrite firstn_app, firstn_all, Nat.sub_diag. simpl. rewrite app_nil_r.
  repeat split; auto. intros P HP. apply G; [assumption|].
  intros i v Hv. discriminate Hv.
Qed.

(** What [text.match(re)] returns: the leftmost place of the text where an
    attempt succeeds, the word of the pattern's language read there, and
    captures that are words of their groups. *)
Lemma String_match_sound re text r :
  String_match text re = Some r ->
  exists pre suf,
    text = pre ++ matched r ++ suf /\
    index r = List.length pre /\
    noMatchBefore re None text (index r) /\
    lang (ignoreCase re) (multiline re) (pattern re) (lastOf None pre) (matched r) suf /\
    (forall P, groupsSound (ignoreCase re) (multiline re) P (pattern re) ->
       forall i v, 1 <= i -> group r i = Some v -> P i v).
Proof.
  unfold String_match, exec. cbn [Nat.ltb Nat.leb]. intros H.
  apply search_leftmost in H. destruct H as (j & s & Hno & Hm & -> & Hj).
  change (skipn 0 text) with text in *. change (charBefore text 0) with (@None char16) in *.
  apply matchAt_sound in Hm. destruct Hm as (Hsplit & Hlen & L & G).
  exists (firstn j text), (rest s). cbn [index matched resultOf Nat.add].
  split; [|split; [|split; [|split]]].
  - rewrite <- Hsplit. symmetry. apply firstn_skipn.
  - rewrite length_firstn. lia.
  - exact Hno.
  - rewrite <- unitBefore_lastOf by exact Hj. exact L.
  - intros P HP i v Hi Hv. apply (G P HP i v).
    unfold group, resultOf in Hv. cbn [groups] in Hv.
    destruct (Nat.lt_ge_cases (i - 1) (nGroups re)) as [Hlt|Hge].
    + rewrite (nth_indep _ None (lookupCap (caps s) (S 0))) in Hv
        by (rewrite length_map, length_seq; lia).
      rewrite (map_nth (fun g => lookupCap (caps s) (S g))) in Hv.
      rewrite seq_nth in Hv by lia.
      replace (S (0 + (i - 1))) with i in Hv by lia. exact Hv.
    + rewrite nth_overflow in Hv by (rewrite length_map, length_seq; lia).
      discriminate Hv.
Qed.

(** Pieces of one code unit each, all of one class. *)
Lemma iter_class ic ml inv items : forall n b w t,
  iter n (lang ic ml (Class inv items)) b w t ->
  List.length w = n /\ Forall (fun c => class_mem ic inv items c = true) w.
Proof.
  induction n as [|n IH]; intros b w t H; simpl in H.
  - subst w. split; [reflexivity | constructor].
  - destruct H as (w1 & w2 & -> & (c & -> & Hc) & Hrest).
    apply IH in Hrest. destruct Hrest as [Hlen Hall].
    split; [simpl; lia | now constructor].
Qed.

End RegExpFacts.

(** ** The matcher on the examples of the language definition *)

Module RegExpExamples.
Import JS RegExp.

Definition run (source flags subject : string)
  : option (nat * jsstring * list (option jsstring)) :=
  option_map (fun r => (index r, matched r, groups r))
             (String_match (lit subject) (literal (lit source) flags)).

(** Alternatives are tried left to right. *)
Example first_alternative_wins :
  run "a|ab" "" "abc" = Some (0, lit "a", []).
Proof. vm_compute. reflexivity. Qed.

Example alternatives_and_captures :
  run "((a)|(ab))((c)|(bc))" "" "abc"
  = Some (0, lit "abc",
          [Some (lit "a"); Some (lit "a"); None; Some (lit "bc"); None; Some (lit "bc")]).
Proof. vm_compute. reflexivity. Qed.

(** Greedy and lazy bounded quantifiers. *)
Example greedy_bounded :
  run "a[a-z]{2,4}" "" "abcdefghi" = Some (0, lit "abcde", []).
Proof. vm_compute. reflexivity. Qed.

Example lazy_bounded :
  run "a[a-z]{2,4}?" "" "abcdefghi" = Some (0, lit "abc", []).
Proof. vm_compute. reflexivity. Qed.

(** Backtracking into a quantified group. *)
Example backtracking_star :
  run "(aa|aabaac|ba|b|c)*" "" "aabaac" = Some (0, lit "aaba", [Some (lit "ba")]).
Proof. vm_compute. reflexivity. Qed.

(** The captures inside a quantified atom are cleared at each iteration. *)
Example captures_cleared_per_iteration :
  run "(z)((a+)?(b+)?(c))*" "" "zaacbbbcac"
  = Some (0, lit "zaacbbbcac",
          [Some (lit "z"); Some (lit "ac"); Some (lit "a"); None; Some (lit "c")]).
Proof. vm_compute. reflexivity. Qed.

(** An iteration that consumes nothing is rejected. *)
Example empty_iteration_rejected :
  run "(a*)*" "" "b" = Some (0, [], [None]).
Proof. vm_compute. reflexivity. Qed.

(** [^] with and without the [m] flag; the search is leftmost. *)
Example line_start_multiline :
  run "^b" "m" "ab.b" = None /\
  String_match (lit "a" ++ [10%Z] ++ lit "b") (literal (lit "^b") "m")
  = Some {| index := 2; endIndex := 3; matched := lit "b"; groups := [] |} /\
  String_match (lit "a" ++ [10%Z] ++ lit "b") (literal (lit "^b") "") = None.
Proof. repeat split; vm_compute; reflexivity. Qed.

(** [\b] and the [i] flag. *)
Example word_boundary_ignore_case :
  run "\bjava\b" "i" "I use Java daily" = Some (6, lit "Java", []) /\
  run "\bjava\b" "i" "I use JavaScript" = None.
Proof. split; vm_compute; reflexivity. Qed.

(** Patterns that are not well formed. *)
Example syntax_errors :
  compile (lit "C++") "" = Invalid "Nothing to repeat" /\
  compile (lit "a{2,1}") "" = Invalid "numbers out of order in {} quantifier" /\
  compile (lit "(a") "" = Invalid "Unterminated group" /\
  compile (lit "a)") "" = Invalid "Unmatched ')'" /\
  compile (lit "[z-a]") "" = Invalid "Range out of order in character class".
Proof. repeat split; vm_compute; reflexivity. Qed.

End RegExpExamples.

(** ** The syntax of the expressions of the source *)

Module PatternSyntax.
Import JS RegExp ResumeParser Spec.

Example nameRe_syntax :
  nameRe =
  {| pattern :=
       chain [LineStart;
              Group 1 (chain [UPPER; plus LOWER;
                              Repeat (chain [plus SPACE; UPPER; plus LOWER])
                                     1 (Some 2) true])];
     nGroups := 1; ignoreCase := false; multiline := true; global := false |}.
Proof. reflexivity. Qed.

Example emailRe_syntax :
  emailRe =
  {| pattern :=
       chain [plus (Class false [CsWord true; CsChar (ch "."); CsChar (ch "_");
                                 CsChar (ch "%"); CsChar (ch "+"); CsChar (ch "-")]);
              Chr (ch "@");
              plus (Class false [CsWord true; CsChar (ch "."); CsChar (ch "-")]);
              Chr (ch ".");
              Repeat (Class false [CsRange (ch "a") (ch "z"); CsRange (ch "A") (ch "Z")])
                     2 None true];
     nGroups := 0; ignoreCase := false; multiline := false; global := false |}.
Proof. reflexivity. Qed.

Example experienceRe_syntax :
  experienceRe =
  {| pattern :=
       chain ([Group 1 (plus DIGIT); opt (Chr (ch "+")); plus SPACE]
              ++ word "year" ++ [opt (Chr (ch "s"));
                                 opt (chain (plus SPACE :: word "of"));
                                 plus SPACE]
              ++ word "experience");
     nGroups := 1; ignoreCase := true; multiline := false; global := false |}.
Proof. reflexivity. Qed.

Example skillsSectionRe_syntax :
  skillsSectionRe =
  {| pattern :=
       chain (word "skills"
              ++ [Alt (chain [star GAP; Chr (ch ":"); star GAP]) (plus GAP);
                  Group 1 (Repeat (Class false [CsSpace true; CsSpace false])
                                  0 None false);
                  Alt (chain [Chr 10%Z; Chr 10%Z]) (chain [Chr 10%Z; UPPER])]);
     nGroups := 1; ignoreCase := true; multiline := false; global := false |}.
Proof. reflexivity. Qed.

Example skillSeparatorRe_syntax :
  skillSeparatorRe =
  {| pattern :=
       plus (Class false [CsChar (ch ","); CsChar 226%Z; CsChar 8364%Z;
                          CsChar 162%Z; CsChar 10%Z]);
     nGroups := 0; ignoreCase := false; multiline := false; global := false |}.
Proof. reflexivity. Qed.

Example jobRe_syntax :
  jobRe =
  {| pattern :=
       chain [LineStart;
              Group 1 (plus (Class false [CsWord true; CsSpace true]));
              opt (chain [plus SPACE;
                          anyOf [chain (word "at"); Chr (ch "@"); Chr (ch "|")];
                          plus SPACE;
                          Group 2 (plus (Class false [CsWord true; CsSpace true;
                                                      CsChar (ch "&")]))])];
     nGroups := 2; ignoreCase := false; multiline := true; global := false |}.
Proof. reflexivity. Qed.

Example companyRe_syntax :
  RegExp_new (companySource (lit "UX Designer")) "i" =
  Return
  {| pattern :=
       chain (word "UX Designer"
              ++ [plus GAP;
                  anyOf [chain (word "at"); Chr (ch "@"); Chr (ch "|")];
                  plus SPACE;
                  Group 1 (plus (Class false [CsWord true; CsSpace true;
                                              CsChar (ch "&")]))]);
     nGroups := 1; ignoreCase := true; multiline := false; global := false |}.
Proof. reflexivity. Qed.

Example first_skillPattern_syntax :
  nth_error skillPatterns 0 =
  Some
  {| pattern :=
       anyOf (List.map (fun w => chain (word w))
                ["JavaScript"; "TypeScript"; "Python"; "Java"; "C++"; "C#"; "Ruby";
                 "PHP"; "Swift"; "Kotlin"; "Go"; "Rust"; "SQL"; "HTML"; "CSS"]%string);
     nGroups := 0; ignoreCase := true; multiline := false; global := true |}.
Proof. reflexivity. Qed.

Example first_degreePattern_syntax :
  nth_error degreePatterns 0 =
  Some
  {| pattern :=
       chain [anyOf [chain [Chr (ch "B"); opt (Chr (ch ".")); Chr (ch "S"); opt (Chr (ch "."))];
                     chain (word "Bachelor of Science");
                     chain (word "Bachelor" ++ [opt (Chr (ch "'"))] ++ word "s Degree")];
              opt (Alt (chain (SPACE :: word "in" ++ [SPACE]))
                       (chain [SPACE; Chr (ch "-"); SPACE]));
              Group 1 (plus (Class true [CsChar (ch ","); CsChar 10%Z; CsChar (ch ".")]))];
     nGroups := 1; ignoreCase := true; multiline := false; global := true |}.
Proof. reflexivity. Qed.

Example phoneRe_syntax :
  phoneRe =
  {| pattern :=
       chain [opt (Group 1 (chain [Chr (ch "+"); Repeat DIGIT 1 (Some 2) true; opt SPACE]));
              Group 2 (Alt (chain [Chr (ch "("); Repeat DIGIT 3 (Some 3) true; Chr (ch ")")])
                           (Repeat DIGIT 3 (Some 3) true));
              opt (Class false [CsChar (ch "-"); CsChar (ch "."); CsSpace true]);
              Repeat DIGIT 3 (Some 3) true;
              opt (Class false [CsChar (ch "-"); CsChar (ch "."); CsSpace true]);
              Repeat DIGIT 4 (Some 4) true];
     nGroups := 2; ignoreCase := false; multiline := false; global := false |}.
Proof. reflexivity. Qed.

End PatternSyntax.

(** ** UTF-8: the decoder inverts the encoder *)

Module Utf8Facts.
Import JS Utf8.
Local Open Scope Z_scope.

Lemma between_true lo hi x : lo <= x <= hi -> between lo hi x = true.
Proof. intros H. unfold between. apply andb_true_iff. split; apply Z.leb_le; lia. Qed.

Lemma between_false lo hi x : x < lo \/ hi < x -> between lo hi x = false.
Proof.
  intros H. unfold between. apply andb_false_iff.
  destruct H; [left | right]; apply Z.leb_gt; lia.
Qed.

Ltac settle_between :=
  repeat match goal with
  | |- context [between ?lo ?hi ?x] =>
      first [ rewrite (between_true lo hi x) by lia
            | rewrite (between_false lo hi x) by lia ]
  end.

Ltac settle_eqb :=
  repeat match goal with
  | |- context [Z.eqb ?x ?y] =>
      let E := fresh "E" in destruct (Z.eqb_spec x y) as [E|E]
  end.

Lemma decode_encode1 cp t :
  scalar cp -> decode (encode1 cp ++ t) idle = cp :: decode t idle.
Proof.
  intros Hs. unfold scalar in Hs. unfold encode1.
  destruct (Z.ltb_spec cp 128) as [H1|H1].
  - cbn [app decode idle needed]. unfold lead. settle_between.
    cbn [app decode needed lower upper codePoint]. reflexivity.
  - destruct (Z.ltb_spec cp 2048) as [H2|H2].
    + pose proof (Z.div_mod cp 64 ltac:(lia)) as E.
      pose proof (Z.mod_pos_bound cp 64 ltac:(lia)) as B.
      set (q := cp / 64) in *. set (r := cp mod 64) in *.
      cbn [app decode idle needed]. unfold lead. settle_between.
      cbn [app decode needed lower upper codePoint]. settle_between.
      f_equal. lia.
    + destruct (Z.ltb_spec cp 65536) as [H3|H3].
      * pose proof (Z.div_mod cp 64 ltac:(lia)) as E.
        pose proof (Z.mod_pos_bound cp 64 ltac:(lia)) as B.
        pose proof (Z.div_mod (cp / 64) 64 ltac:(lia)) as E'.
        pose proof (Z.mod_pos_bound (cp / 64) 64 ltac:(lia)) as B'.
        replace (cp / 4096) with (cp / 64 / 64)
          by (rewrite Z.div_div by lia; reflexivity).
        set (q := cp / 64) in *. set (r := cp mod 64) in *.
        set (a := q / 64) in *. set (b := q mod 64) in *.
        assert (Hsc : cp < 55296 \/ 57344 <= cp) by (unfold scalar in Hs; lia).
        cbn [app decode idle needed]. unfold lead. settle_between.
        cbn [app decode needed lower upper codePoint].
        settle_eqb; settle_between;
          cbn [app decode needed lower upper codePoint]; settle_between;
          f_equal; lia.
      * pose proof (Z.div_mod cp 64 ltac:(lia)) as E.
        pose proof (Z.mod_pos_bound cp 64 ltac:(lia)) as B.
        pose proof (Z.div_mod (cp / 64) 64 ltac:(lia)) as E'.
        pose proof (Z.mod_pos_bound (cp / 64) 64 ltac:(lia)) as B'.
        pose proof (Z.div_mod (cp / 64 / 64) 64 ltac:(lia)) as E''.
        pose proof (Z.mod_pos_bound (cp / 64 / 64) 64 ltac:(lia)) as B''.
        replace (cp / 262144) with (cp / 64 / 64 / 64)
          by (rewrite !Z.div_div by lia; reflexivity).
        replace (cp / 4096) with (cp / 64 / 64)
          by (rewrite Z.div_div by lia; reflexivity).
        set (q := cp / 64) in *. set (r := cp mod 64) in *.
        set (a := q / 64) in *. set (b := q mod 64) in *.
        set (a' := a / 64) in *. set (b' := a mod 64) in *.
        assert (Hsc : cp <= 1114111) by (unfold scalar in Hs; lia).
        cbn [app decode idle needed]. unfold lead. settle_between.
        cbn [app decode needed lower upper codePoint].
        settle_eqb; settle_between;
          cbn [app decode needed lower upper codePoint]; settle_between;
          cbn [app decode needed lower upper codePoint]; settle_between;
          f_equal; lia.
Qed.

Lemma decode_encode cps :
  Forall scalar cps -> decode (encode cps) idle = cps.
Proof.
  induction 1 as [|cp cps Hcp _ IH]; [reflexivity|].
  unfold encode in *. cbn [flat_map]. rewrite decode_encode1 by assumption.
  now rewrite IH.
Qed.

Lemma toString_encode cps :
  Forall scalar cps -> toString (encode cps) = flat_map utf16 cps.
Proof. intros H. unfold toString. now rewrite decode_encode. Qed.

(** The code points are read back from the string. *)
Lemma codePoints_utf16 cps :
  Forall scalar cps -> codePoints (flat_map utf16 cps) = cps.
Proof.
  induction 1 as [|cp cps Hcp _ IH]; [reflexivity|].
  unfold scalar in Hcp. cbn [flat_map]. unfold utf16 at 1.
  destruct (Z.ltb_spec cp 65536) as [Hlt|Hge].
  - cbn [app codePoints]. destruct (flat_map utf16 cps) as [|lo t] eqn:E.
    + simpl in IH. now rewrite <- IH.
    + rewrite (between_false 55296 56319 cp) by lia. cbn [andb].
      now rewrite IH.
  - pose proof (Z.div_mod (cp - 65536) 1024 ltac:(lia)) as E.
    pose proof (Z.mod_pos_bound (cp - 65536) 1024 ltac:(lia)) as B.
    set (q := (cp - 65536) / 1024) in *. set (r := (cp - 65536) mod 1024) in *.
    cbn [app codePoints].
    rewrite (between_true 55296 56319 (55296 + q)) by lia.
    rewrite (between_true 56320 57343 (56320 + r)) by lia. cbn [andb].
    rewrite IH. f_equal. lia.
Qed.

(** The decoding is lossy on other buffers: a byte that opens no sequence
    and a truncated sequence each come out as U+FFFD. *)
Example toString_lossy :
  toString [72; 255; 105; 226; 130] = [72; 65533; 105; 65533].
Proof. reflexivity. Qed.

End Utf8Facts.

(** ** [parseResumeText] returns *)

Module ResumeParserFacts.
Import JS RegExp ResumeParser Spec JSFacts RegExpFacts.

(** Every literal of the source is a pattern of the modelled grammar and
    denotes the expression used for it. *)
Lemma literals_compile :
  compile (lit nameSource) "m" = Parsed nameRe /\
  compile (lit emailSource) "" = Parsed emailRe /\
  compile (lit phoneSource) "" = Parsed phoneRe /\
  List.map (fun src => compile (lit src) "gi") degreeSources
    = List.map Parsed degreePatterns /\
  compile (lit inOrDashSource) "" = Parsed inOrDashRe /\
  List.map (fun src => compile (lit src) "gi") skillSources
    = List.map Parsed skillPatterns /\
  compile (lit skillsSectionSource) "i" = Parsed skillsSectionRe /\
  compile skillSeparatorSource "" = Parsed skillSeparatorRe /\
  compile (lit experienceSource) "i" = Parsed experienceRe /\
  compile (lit experienceSectionSource) "i" = Parsed experienceSectionRe /\
  compile (lit jobSource) "m" = Parsed jobRe.
Proof. repeat split; vm_compute; reflexivity. Qed.

(** None of the expressions run in a [while] loop matches the empty
    string. *)
Lemma degreePatterns_consume :
  Forall (fun re => 0 < minLen (pattern re)) degreePatterns.
Proof. repeat constructor. Qed.

Lemma skillPatterns_consume :
  Forall (fun re => 0 < minLen (pattern re)) skillPatterns.
Proof. repeat constructor. Qed.

Lemma collect_ends patterns text entry fuel :
  Forall (fun re => 0 < minLen (pattern re)) patterns ->
  List.length text < fuel ->
  exists l, collect fuel patterns text entry = Some l.
Proof.
  intros Hp Hf. induction Hp as [|re more Hre _ IH]; simpl.
  - now exists [].
  - destruct (execLoop_ends re text Hre fuel 0) as (ms & ->); [lia | lia |].
    destruct IH as (l & ->). simpl. eauto.
Qed.

Lemma collect_more patterns text entry : forall fuel fuel' l,
  collect fuel patterns text entry = Some l -> fuel <= fuel' ->
  collect fuel' patterns text entry = Some l.
Proof.
  induction patterns as [|re more IH]; intros fuel fuel' l H Hle; simpl in *.
  - assumption.
  - destruct (execLoop fuel re text 0) as [ms|] eqn:E; [|discriminate].
    rewrite (execLoop_more re text fuel 0 ms E fuel' Hle).
    destruct (collect fuel more text entry) as [l'|] eqn:E'; [|discriminate].
    now rewrite (IH fuel fuel' l' E' Hle).
Qed.

(** A match of the name expression defines its group 1, so [.trim()] is
    never called on [undefined]. *)
Lemma nameRe_group1 text r :
  String_match text nameRe = Some r -> exists g, group r 1 = Some g.
Proof. apply group_defined; [reflexivity | simpl; lia]. Qed.

Lemma nameOf_returns text : exists n, nameOf text = Return n.
Proof.
  unfold nameOf. destruct (String_match text nameRe) as [r|] eqn:E; [|eauto].
  destruct (nameRe_group1 text r E) as (g & ->). simpl. eauto.
Qed.

(** The expression built for each of the fixed titles is well formed. *)
Lemma companySource_compiles :
  Forall (fun p => exists re, RegExp_new (companySource p) "i" = Return re) positions.
Proof. repeat constructor; eexists; vm_compute; reflexivity. Qed.

Lemma positionIn_returns titles section :
  Forall (fun p => exists re, RegExp_new (companySource p) "i" = Return re) titles ->
  exists v, positionIn titles section = Return v.
Proof.
  induction 1 as [|p more (re & Hre) _ IH]; simpl; [eauto|].
  destruct (includes section p); [|assumption].
  rewrite Hre. simpl.
  destruct (String_match section re) as [cm|]; [|eauto].
  destruct (group cm 1) as [c|]; [|eauto].
  destruct (truthy c); eauto.
Qed.

Lemma lastPositionOf_returns text : exists v, lastPositionOf text = Return v.
Proof.
  unfold lastPositionOf.
  destruct (String_match text experienceSectionRe) as [es|]; [|eauto].
  destruct (group es 1) as [section|]; [|eauto].
  destruct (truthy section); [|eauto].
  destruct (String_match section jobRe); [eauto|].
  apply positionIn_returns, companySource_compiles.
Qed.

(** A push of no more tokens than the engine passes appends them; a push of
    more throws. *)
Lemma Array_push_fits maxArguments array items :
  (Z.of_nat (List.length items) <= Z.pos maxArguments)%Z ->
  Array_push maxArguments array items = Return (array ++ items).
Proof. intros H. unfold Array_push. apply Z.leb_le in H. now rewrite H. Qed.

Lemma Array_push_overflow maxArguments array items :
  (Z.pos maxArguments < Z.of_nat (List.length items))%Z ->
  Array_push maxArguments array items
  = Throw (RangeError (lit "Maximum call stack size exceeded")).
Proof. intros H. unfold Array_push. apply Z.leb_gt in H. now rewrite H. Qed.

Lemma Array_push_returned maxArguments array items pushed :
  Array_push maxArguments array items = Return pushed ->
  (Z.of_nat (List.length items) <= Z.pos maxArguments)%Z /\ pushed = array ++ items.
Proof.
  unfold Array_push.
  destruct (Z.leb_spec (Z.of_nat (List.length items)) (Z.pos maxArguments));
    [|discriminate].
  intros E. injection E as <-. auto.
Qed.

(** With fuel for one round per code unit and one more, the loops of
    [parseResumeText] end and its matchers return: what is left is the push
    of the section's tokens and the record made of the results. *)
Lemma parseResumeTextFor_enough maxArguments text fuel :
  List.length text < fuel ->
  exists n degrees found lp,
    nameOf text = Return n /\
    collect fuel degreePatterns text degreeEntry = Some degrees /\
    collect fuel skillPatterns text skillEntry = Some found /\
    lastPositionOf text = Return lp /\
    parseResumeTextFor maxArguments fuel text =
      Some (bind (Array_push maxArguments found (sectionSkills text)) (fun pushed =>
        Return
        {| name := n;
           email := option_map (fun r => trim (matched r)) (String_match text emailRe);
           phone := option_map (fun r => trim (matched r)) (String_match text phoneRe);
           qualifications := Some (Set_of degrees);
           skills := Some (Set_of pushed);
           totalYears := totalYearsOf text;
           lastPosition := lp |})).
Proof.
  intros Hf.
  destruct (nameOf_returns text) as (n & Hn).
  destruct (collect_ends degreePatterns text degreeEntry fuel degreePatterns_consume Hf)
    as (degrees & Hd).
  destruct (collect_ends skillPatterns text skillEntry fuel skillPatterns_consume Hf)
    as (found & Hs).
  destruct (lastPositionOf_returns text) as (lp & Hl).
  exists n, degrees, found, lp. unfold parseResumeTextFor.
  rewrite Hn, Hd, Hs, Hl. repeat split.
Qed.

(** More fuel than that changes nothing. *)
Lemma parseResumeTextFor_stable maxArguments text fuel :
  List.length text < fuel ->
  parseResumeTextFor maxArguments fuel text = parseResumeText maxArguments text.
Proof.
  intros Hf. unfold parseResumeText.
  destruct (parseResumeTextFor_enough maxArguments text (S (List.length text)))
    as (n & degrees & found & lp & Hn & Hd & Hs & Hl & ->); [lia|].
  unfold parseResumeTextFor. rewrite Hn, Hl.
  rewrite (collect_more _ _ _ _ fuel _ Hd), (collect_more _ _ _ _ fuel _ Hs) by lia.
  now destruct (Array_push maxArguments found (sectionSkills text)).
Qed.

(** The three ways [parseResumeText] ends.  When the tokens of the section
    fit in one call it returns the record made of the results of its
    matchers; a record it returns is that one; and when the tokens do not
    fit, the push throws. *)
Lemma parseResumeText_fits maxArguments text :
  (Z.of_nat (List.length (sectionSkills text)) <= Z.pos maxArguments)%Z ->
  exists n degrees found lp,
    nameOf text = Return n /\
    collect (S (List.length text)) degreePatterns text degreeEntry = Some degrees /\
    collect (S (List.length text)) skillPatterns text skillEntry = Some found /\
    lastPositionOf text = Return lp /\
    parseResumeText maxArguments text =
      Some (Return
        {| name := n;
           email := option_map (fun r => trim (matched r)) (String_match text emailRe);
           phone := option_map (fun r => trim (matched r)) (String_match text phoneRe);
           qualifications := Some (Set_of degrees);
           skills := Some (Set_of (found ++ sectionSkills text));
           totalYears := totalYearsOf text;
           lastPosition := lp |}).
Proof.
  intros Hfit. unfold parseResumeText.
  destruct (parseResumeTextFor_enough maxArguments text (S (List.length text)))
    as (n & degrees & found & lp & Hn & Hd & Hs & Hl & ->); [lia|].
  exists n, degrees, found, lp. rewrite (Array_push_fits _ _ _ Hfit). auto.
Qed.

Lemma parseResumeText_returned maxArguments text r :
  parseResumeText maxArguments text = Some (Return r) ->
  (Z.of_nat (List.length (sectionSkills text)) <= Z.pos maxArguments)%Z /\
  exists n degrees found lp,
    nameOf text = Return n /\
    collect (S (List.length text)) degreePatterns text degreeEntry = Some degrees /\
    collect (S (List.length text)) skillPatterns text skillEntry = Some found /\
    lastPositionOf text = Return lp /\
    r = {| name := n;
           email := option_map (fun r => trim (matched r)) (String_match text emailRe);
           phone := option_map (fun r => trim (matched r)) (String_match text phoneRe);
           qualifications := Some (Set_of degrees);
           skills := Some (Set_of (found ++ sectionSkills text));
           totalYears := totalYearsOf text;
           lastPosition := lp |}.
Proof.
  unfold parseResumeText. intros H.
  destruct (parseResumeTextFor_enough maxArguments text (S (List.length text)))
    as (n & degrees & found & lp & Hn & Hd & Hs & Hl & Hr); [lia|].
  rewrite Hr in H.
  destruct (Array_push maxArguments found (sectionSkills text)) as [pushed|e] eqn:E;
    [|discriminate H].
  apply Array_push_returned in E. destruct E as [Hfit ->].
  split; [exact Hfit|]. exists n, degrees, found, lp.
  cbn [bind] in H. injection H as <-. auto.
Qed.

Lemma parseResumeText_overflow maxArguments text :
  (Z.pos maxArguments < Z.of_nat (List.length (sectionSkills text)))%Z ->
  parseResumeText maxArguments text
  = Some (Throw (RangeError (lit "Maximum call stack size exceeded"))).
Proof.
  intros Hover. unfold parseResumeText.
  destruct (parseResumeTextFor_enough maxArguments text (S (List.length text)))
    as (n & degrees & found & lp & _ & _ & _ & _ & ->); [lia|].
  now rewrite (Array_push_overflow _ _ _ Hover).
Qed.

Lemma Set_of_distinctInOrder l : distinctInOrder l (Set_of l).
Proof.
  repeat split.
  - apply Set_of_NoDup.
  - now apply Set_of_In.
  - now apply Set_of_In.
  - apply Set_of_order.
Qed.

Lemma collect_nothing fuel patterns text entry :
  0 < fuel ->
  Forall (fun re => exec re text 0 = None) patterns ->
  collect fuel patterns text entry = Some [].
Proof.
  intros Hf. induction 1 as [|re more Hre _ IH]; simpl; [reflexivity|].
  destruct fuel; [lia|]. simpl. rewrite Hre. simpl in IH. now rewrite IH.
Qed.

End ResumeParserFacts.

Import JS RegExp ResumeParser Spec JSFacts RegExpFacts ResumeParserFacts.

(** C1. For every text and whatever the engine's limit is, every record
    that [parseResumeText] returns has [qualifications] and [skills] present
    as lists; each of them holds the entries pushed by the matchers without
    duplicates (equality of code-unit sequences), in the order in which they
    were first pushed; and when no degree expression matches,
    [qualifications] is the empty list.  Such a record is returned whenever
    the tokens of the "Skills" section fit in one call. *)
Theorem C1_qualifications_and_skills_distinct
  (maxArguments : positive) (text : jsstring) :
  ((Z.of_nat (List.length (sectionSkills text)) <= Z.pos maxArguments)%Z ->
   exists r, parseResumeText maxArguments text = Some (Return r)) /\
  (forall r, parseResumeText maxArguments text = Some (Return r) ->
   exists degrees found,
     collect (S (List.length text)) degreePatterns text degreeEntry = Some degrees /\
     collect (S (List.length text)) skillPatterns text skillEntry = Some found /\
     (exists q, qualifications r = Some q /\ distinctInOrder degrees q) /\
     (exists s, skills r = Some s /\
                distinctInOrder (found ++ sectionSkills text) s) /\
     (Forall (fun re => exec re text 0 = None) degreePatterns ->
      qualifications r = Some [])).
Proof.
  split.
  - intros Hfit.
    destruct (parseResumeText_fits maxArguments text Hfit)
      as (n & degrees & found & lp & _ & _ & _ & _ & Hr).
    eexists. exact Hr.
  - intros r Hr.
    destruct (parseResumeText_returned maxArguments text r Hr)
      as (_ & n & degrees & found & lp & _ & Hd & Hs & _ & ->).
    exists degrees, found. split; [exact Hd|]. split; [exact Hs|]. simpl.
    split; [eexists; split; [reflexivity | apply Set_of_distinctInOrder]|].
    split; [eexists; split; [reflexivity | apply Set_of_distinctInOrder]|].
    intros Hnone.
    rewrite (collect_nothing (S (List.length text)) degreePatterns text degreeEntry) in Hd
      by (lia || assumption).
    now injection Hd as <-.
Qed.

(** A text that names a degree twice and a skill three times, once in
    lower case, before a "Skills" section that names it again: each list
    holds an entry once, in the order of the first push, and the two
    spellings are two entries. *)
Lemma C1_witness :
  exists r,
    parseResumeText engineLimit repeatedEntries = Some (Return r) /\
    qualifications r = Some [lit "B.S. in Physics"] /\
    skills r = Some [lit "Python"; lit "python"; lit "Teamwork"; lit "Drawing"] /\
    exists degrees found,
      collect (S (List.length repeatedEntries)) degreePatterns repeatedEntries degreeEntry
      = Some degrees /\
      collect (S (List.length repeatedEntries)) skillPatterns repeatedEntries skillEntry
      = Some found /\
      (exists q, qualifications r = Some q /\ distinctInOrder degrees q) /\
      (exists s, skills r = Some s /\
                 distinctInOrder (found ++ sectionSkills repeatedEntries) s).
Proof.
  destruct (proj1 (C1_qualifications_and_skills_distinct engineLimit repeatedEntries))
    as (r & Hr); [vm_compute; discriminate|].
  exists r. split; [exact Hr|].
  destruct (proj2 (C1_qualifications_and_skills_distinct engineLimit repeatedEntries)
              r Hr) as (degrees & found & Hd & Hf & Hq & Hs & _).
  vm_compute in Hr. injection Hr as <-.
  split; [reflexivity|]. split; [reflexivity|].
  exists degrees, found. auto.
Defined.

Import Utf8 FileHandlers Utf8Facts.

(** C2. For every buffer that is valid UTF-8, that is the encoding of a
    sequence of Unicode scalar values, [extractTextFromFile(buffer,
    "text/plain")] returns the string of exactly these code points and
    writes nothing to the console; the buffer is read back from that string,
    so nothing was added, dropped or replaced. *)
Theorem C2_plain_text_is_utf8_passthrough
  (pdf mammoth : Buffer -> completion jsstring) (cps : list Z) :
  Forall scalar cps ->
  extractTextFromFile pdf mammoth (encode cps) MIME_TXT
  = ([], Return (flat_map utf16 cps)) /\
  encode (codePoints (flat_map utf16 cps)) = encode cps.
Proof.
  intros H. split; [|now rewrite codePoints_utf16].
  unfold extractTextFromFile.
  change (str_eqb MIME_TXT MIME_PDF) with false.
  change (str_eqb MIME_TXT MIME_DOCX) with false.
  change (str_eqb MIME_TXT MIME_TXT) with true.
  cbv iota. unfold extractTextFromTXT, Buffer_toString.
  now rewrite toString_encode.
Qed.

Lemma C2_witness :
  extractTextFromFile (fun _ => Return []) (fun _ => Return [])
    [72; 195; 169; 226; 130; 172; 240; 159; 152; 128]%Z MIME_TXT
  = ([], Return [72; 233; 8364; 55357; 56832]%Z) /\
  encode (codePoints [72; 233; 8364; 55357; 56832]%Z)
  = [72; 195; 169; 226; 130; 172; 240; 159; 152; 128]%Z.
Proof.
  apply (C2_plain_text_is_utf8_passthrough
           (fun _ => Return []) (fun _ => Return [])
           [72; 233; 8364; 128512]%Z).
  repeat constructor; unfold scalar; lia.
Defined.

(** C3. For every buffer, a content type other than the three supported
    ones makes [extractTextFromFile] throw the error whose message is
    "Unsupported file type: " followed by that content type; one of the three
    supported types makes it return a string. *)
Theorem C3_unsupported_content_type
  (pdf mammoth : Buffer -> completion jsstring)
  (buffer : Buffer) (contentType : jsstring) :
  (contentType <> MIME_PDF -> contentType <> MIME_DOCX ->
   contentType <> MIME_TXT ->
   extractTextFromFile pdf mammoth buffer contentType
   = ([], Throw (Error (lit "Unsupported file type: " ++ contentType)))) /\
  (contentType = MIME_PDF \/ contentType = MIME_DOCX \/ contentType = MIME_TXT ->
   exists log text,
     extractTextFromFile pdf mammoth buffer contentType = (log, Return text)).
Proof.
  unfold extractTextFromFile. split.
  - intros Hp Hd Ht.
    destruct (str_eqb contentType MIME_PDF) eqn:Ep;
      [apply str_eqb_eq in Ep; contradiction|].
    destruct (str_eqb contentType MIME_DOCX) eqn:Ed;
      [apply str_eqb_eq in Ed; contradiction|].
    destruct (str_eqb contentType MIME_TXT) eqn:Et;
      [apply str_eqb_eq in Et; contradiction|].
    reflexivity.
  - intros [-> | [-> | ->]].
    + change (str_eqb MIME_PDF MIME_PDF) with true. cbv iota.
      unfold extractTextFromPDF. destruct (pdf buffer); eauto.
    + change (str_eqb MIME_DOCX MIME_PDF) with false.
      change (str_eqb MIME_DOCX MIME_DOCX) with true. cbv iota.
      unfold extractTextFromDOCX. destruct (mammoth buffer); eauto.
    + change (str_eqb MIME_TXT MIME_PDF) with false.
      change (str_eqb MIME_TXT MIME_DOCX) with false.
      change (str_eqb MIME_TXT MIME_TXT) with true. cbv iota.
      unfold extractTextFromTXT. simpl. eauto.
Qed.

Lemma C3_witness :
  extractTextFromFile (fun _ => Return []) (fun _ => Return [])
    [137; 80; 78; 71]%Z (lit "image/png")
  = ([], Throw (Error (lit "Unsupported file type: image/png"))) /\
  exists log text,
    extractTextFromFile (fun _ => Throw (Error [])) (fun _ => Return [])
      [37; 80; 68; 70]%Z MIME_PDF = (log, Return text).
Proof.
  split.
  - apply (proj1 (C3_unsupported_content_type
                    (fun _ => Return []) (fun _ => Return [])
                    [137; 80; 78; 71]%Z (lit "image/png")));
      intros E; vm_compute in E; discriminate E.
  - apply (proj2 (C3_unsupported_content_type
                    (fun _ => Throw (Error [])) (fun _ => Return [])
                    [37; 80; 68; 70]%Z MIME_PDF)).
    left. reflexivity.
Defined.

Import ClientResumeParser.

(** The expressions built for the keywords stay inside the modelled
    grammar: each is a pattern or a [SyntaxError]. *)
Lemma keyword_sources_modelled :
  Forall (fun keyword =>
            match compile (lit "\b" ++ keyword ++ lit "\b") "i" with
            | NotModelled _ => False
            | _ => True
            end) allKeywords.
Proof. repeat constructor. Qed.

(** The expression built for the keyword "C++" is not a pattern: its second
    [+] has nothing to repeat. *)
Lemma keyword_cpp_is_no_pattern :
  compile (lit "\bC++\b") "i" = Invalid "Nothing to repeat".
Proof. vm_compute. reflexivity. Qed.

(** C9 (as amended). [formatResumeForDisplay] leaves the record it was
    given as it is and returns it, every field as received, whenever that
    record has a non-empty [skills] list. *)
Theorem C9_format_keeps_record_with_skills (resume : Resume) :
  (exists first others, skills (parsed resume) = Some (first :: others)) ->
  formatResumeForDisplay resume = (resume, Return resume).
Proof.
  intros (first & others & H). unfold formatResumeForDisplay. now rewrite H.
Qed.

Lemma C9_witness :
  exists resume,
    processResume engineLimit (fun _ => Return []) (fun _ => Return []) (lit "id-1")
      (upload "I write Python") = Some ([], Return resume) /\
    formatResumeForDisplay resume = (resume, Return resume).
Proof.
  eexists. split; [vm_compute; reflexivity|].
  apply C9_format_keeps_record_with_skills.
  vm_compute. eauto.
Defined.

(** C9 as stated fails on a record whose [skills] list is empty: the
    function then goes on to compute a replacement for the list and does not
    hand the record back. *)
Lemma C9_counterexample_empty_skills :
  exists resume,
    processResume engineLimit (fun _ => Return []) (fun _ => Return []) (lit "id-1")
      (upload "hello") = Some ([], Return resume) /\
    skills (parsed resume) = Some [] /\
    snd (formatResumeForDisplay resume) <> Return resume.
Proof.
  eexists. split; [vm_compute; reflexivity|].
  split; [reflexivity|]. vm_compute. discriminate.
Qed.

(** ** Total years and e-mail address *)

Lemma Forall_forallb (f g : char16 -> bool) w :
  (forall c, f c = true -> g c = true) ->
  Forall (fun c => f c = true) w -> forallb g w = true.
Proof.
  intros Hfg H. apply forallb_forall. rewrite Forall_forall in H.
  intros c Hc. apply Hfg, H, Hc.
Qed.

Lemma class_local c :
  class_mem false false
    [CsWord true; CsChar 46%Z; CsChar 95%Z; CsChar 37%Z; CsChar 43%Z; CsChar 45%Z] c = true ->
  localChar c = true.
Proof.
  unfold class_mem, localChar. cbn [existsb cset_mem canonicalize andb xorb].
  rewrite !(Z.eqb_sym c). destruct (isWordChar c); simpl; auto.
Qed.

Lemma class_domain c :
  class_mem false false [CsWord true; CsChar 46%Z; CsChar 45%Z] c = true ->
  domainChar c = true.
Proof.
  unfold class_mem, domainChar. cbn [existsb cset_mem canonicalize andb xorb].
  rewrite !(Z.eqb_sym c). destruct (isWordChar c); simpl; auto.
Qed.

Lemma class_letter c :
  class_mem false false [CsRange 97%Z 122%Z; CsRange 65%Z 90%Z] c = true ->
  asciiLetter c = true.
Proof.
  unfold class_mem, asciiLetter, isLower, isUpper.
  cbn [existsb cset_mem andb xorb]. now rewrite !orb_false_r.
Qed.

Lemma length_nonempty (w : jsstring) n : List.length w = S n -> w <> [].
Proof. intros H ->. discriminate H. Qed.

Lemma emailRe_shape b w t :
  lang false false (pattern emailRe) b w t -> addressShape w.
Proof.
  cbn [pattern emailRe lang]. 
  intros (w1234 & tld & -> & (w123 & dot & -> & (w12 & dom & -> &
            (loc & at' & -> & (e1 & _ & Hloc) & (c1 & -> & Hc1)) &
            (e2 & _ & Hdom)) & (c2 & -> & Hc2)) & (e3 & _ & Htld)).
  apply (iter_class false false) in Hloc, Hdom, Htld.
  destruct Hloc as [Nl Fl], Hdom as [Nd Fd], Htld as [Nt Ft].
  cbn [canonicalize andb] in Hc1, Hc2. apply Z.eqb_eq in Hc1, Hc2. subst c1 c2.
  exists loc, dom, tld. rewrite <- !app_assoc. simpl.
  split; [reflexivity|].
  split; [eapply length_nonempty; exact Nl|].
  split; [eapply Forall_forallb; [|exact Fl]; apply class_local|].
  split; [eapply length_nonempty; exact Nd|].
  split; [eapply Forall_forallb; [|exact Fd]; apply class_domain|].
  split; [lia|].
  eapply Forall_forallb; [|exact Ft]; apply class_letter.
Qed.

Lemma trim_unchanged (w : jsstring) :
  (exists c w', w = c :: w' /\ isWhiteSpace c = false) ->
  (exists c w', w = w' ++ [c] /\ isWhiteSpace c = false) ->
  trim w = w.
Proof.
  intros (c & w' & E & Hc) (d & w'' & E' & Hd). unfold trim, trimEnd.
  assert (Hs : trimStart w = w) by (subst w; simpl; now rewrite Hc).
  rewrite Hs. rewrite E', rev_app_distr. simpl. rewrite Hd.
  change (d :: rev w'') with (rev [d] ++ rev w''). 
  now rewrite <- rev_app_distr, rev_involutive.
Qed.

Lemma wordChar_not_space c : isWordChar c = true -> isWhiteSpace c = false.
Proof.
  intros H. apply not_true_is_false. intros Hw. revert H.
  unfold isWordChar, isWhiteSpace, isLower, isUpper, isDigit, between in *.
  intros H. repeat (rewrite ?orb_true_iff, ?andb_true_iff, ?Z.leb_le, ?Z.eqb_eq in H, Hw).
  lia.
Qed.

Lemma localChar_not_space c : localChar c = true -> isWhiteSpace c = false.
Proof.
  unfold localChar. intros H. apply orb_true_iff in H. destruct H as [H|H].
  - now apply wordChar_not_space.
  - simpl in H. repeat (apply orb_true_iff in H; destruct H as [H|H]);
      try discriminate H; apply Z.eqb_eq in H; subst c; reflexivity.
Qed.

Lemma asciiLetter_not_space c : asciiLetter c = true -> isWhiteSpace c = false.
Proof.
  intros H. apply wordChar_not_space. unfold isWordChar, asciiLetter in *.
  now rewrite H.
Qed.

(** A string of that shape has no white space at either end. *)
Lemma addressShape_trim w : addressShape w -> trim w = w.
Proof.
  intros (loc & dom & tld & -> & Hl & Fl & _ & _ & Nt & Ft).
  apply trim_unchanged.
  - destruct loc as [|c loc]; [contradiction|]. exists c. eexists.
    split; [reflexivity|]. simpl in Fl. apply andb_true_iff in Fl.
    apply localChar_not_space, Fl.
  - destruct tld as [|d tld] using rev_ind; [simpl in Nt; lia|].
    exists d, (loc ++ [64%Z] ++ dom ++ [46%Z] ++ tld).
    split; [now rewrite <- !app_assoc|].
    rewrite forallb_app in Ft. apply andb_true_iff in Ft. destruct Ft as [_ Ft].
    simpl in Ft. rewrite andb_true_r in Ft. now apply asciiLetter_not_space.
Qed.

(** What [email] holds when the e-mail expression matches. *)
Lemma emailRe_match text r :
  String_match text emailRe = Some r ->
  addressShape (matched r) /\ trim (matched r) = matched r /\
  exists pre suf, text = pre ++ matched r ++ suf /\ index r = List.length pre.
Proof.
  intros H. apply String_match_sound in H.
  destruct H as (pre & suf & E & Hi & _ & L & _).
  apply emailRe_shape in L. repeat split; [exact L | now apply addressShape_trim | eauto].
Qed.

(** Group 1 of the experience expression holds one or more digits. *)
Lemma experienceRe_digits text r digits :
  String_match text experienceRe = Some r ->
  group r 1 = Some digits ->
  digits <> [] /\ forallb isDigit digits = true.
Proof.
  intros H Hg. apply String_match_sound in H.
  destruct H as (pre & suf & _ & _ & _ & _ & G).
  refine (G (fun i w => i = 1 -> w <> [] /\ forallb isDigit w = true) _
            1 digits (le_n 1) Hg eq_refl).
  cbn [groupsSound pattern experienceRe].
  assert (Hd : forall b0 w0 t0,
             lang (ignoreCase experienceRe) (multiline experienceRe)
               (Repeat (Class false [CsDigit true]) 1 None true) b0 w0 t0 ->
             1 = 1 -> w0 <> [] /\ forallb isDigit w0 = true).
  { intros b0 w0 t0 (extra & _ & Hit) _. apply (iter_class true false) in Hit.
    destruct Hit as [N F]. split; [eapply length_nonempty; exact N|].
    eapply Forall_forallb; [|exact F]. intros c Hc.
    unfold class_mem in Hc. cbn [existsb cset_mem xorb] in Hc.
    rewrite orb_false_r in Hc. now destruct (isDigit c). }
  repeat match goal with |- _ /\ _ => split end; try exact I; exact Hd.
Qed.

(** The attempt at the phrase: group 1 takes the digit, the [+] and the
    "of" are matched outside of it. *)
Lemma experienceRe_on_phrase b suf :
  matchAt experienceRe b (yearsPhrase ++ suf)
  = Some {| prev := Some 101%Z; rest := suf; pos := 22; caps := [(1, [53%Z])] |}.
Proof. vm_compute. reflexivity. Qed.

(** The expressions whose group 1 is read without a test define it on
    every match. *)
Lemma experienceRe_group1 text r :
  String_match text experienceRe = Some r -> exists g, group r 1 = Some g.
Proof. apply group_defined; [reflexivity | simpl; lia]. Qed.

(** An attempt of the experience expression fails where no digit stands,
    so no match starts inside a stretch of text without digits. *)
Lemma experienceRe_needs_digit b c t :
  isDigit c = false -> matchAt experienceRe b (c :: t) = None.
Proof.
  intros H. unfold matchAt. cbn -[class_mem optionalReps].
  replace (class_mem true false [CsDigit true] c) with false; [reflexivity|].
  unfold class_mem. simpl. now rewrite H.
Qed.

Lemma no_digit_noMatchBefore : forall pre b rest,
  forallb (fun c => negb (isDigit c)) pre = true ->
  noMatchBefore experienceRe b (pre ++ rest) (List.length pre).
Proof.
  induction pre as [|c pre IH]; intros b rest H i Hi; [simpl in Hi; lia|].
  simpl in H. apply andb_true_iff in H. destruct H as [Hc Hp].
  destruct i as [|i].
  - simpl. apply experienceRe_needs_digit. now destruct (isDigit c).
  - specialize (IH (Some c) rest Hp i ltac:(simpl in Hi; lia)).
    simpl. destruct i; exact IH.
Qed.

(** C5 (as amended). In every record that [parseResumeText] returns,
    [totalYears] is taken from the first match of the experience expression,
    the leftmost place where an attempt succeeds: it is the digits of group
    1, one or more, followed by " years", and absent when there is no match.
    When the text holds "5+ years of experience" at a place before which no
    attempt succeeds, that first match is the phrase, its group 1 is "5" and
    [totalYears] is "5 years".  A record is returned whenever the tokens of
    the "Skills" section fit in one call. *)
Theorem C5_total_years_of_first_match :
  (forall maxArguments text,
     ((Z.of_nat (List.length (sectionSkills text)) <= Z.pos maxArguments)%Z ->
      exists r, parseResumeText maxArguments text = Some (Return r)) /\
     (forall r, parseResumeText maxArguments text = Some (Return r) ->
      match String_match text experienceRe with
      | None => totalYears r = None
      | Some found =>
          noMatchBefore experienceRe None text (index found) /\
          exists digits,
            group found 1 = Some digits /\
            digits <> [] /\ forallb isDigit digits = true /\
            totalYears r = Some (digits ++ lit " years")
      end)) /\
  (forall pre suf,
     noMatchBefore experienceRe None (pre ++ yearsPhrase ++ suf) (List.length pre) ->
     exists found,
       String_match (pre ++ yearsPhrase ++ suf) experienceRe = Some found /\
       index found = List.length pre /\
       group found 1 = Some (lit "5") /\
       forall maxArguments r,
         parseResumeText maxArguments (pre ++ yearsPhrase ++ suf) = Some (Return r) ->
         totalYears r = Some (lit "5 years")).
Proof.
  split.
  - intros maxArguments text. split.
    + intros Hfit.
      destruct (parseResumeText_fits maxArguments text Hfit)
        as (n & degrees & skills & lp & _ & _ & _ & _ & Hr).
      eexists. exact Hr.
    + intros r Hr.
      destruct (parseResumeText_returned maxArguments text r Hr)
        as (_ & n & degrees & skills & lp & _ & _ & _ & _ & ->).
      cbn [totalYears]. unfold totalYearsOf.
      destruct (String_match text experienceRe) as [found|] eqn:E; [|reflexivity].
      split; [now apply String_match_leftmost|].
      destruct (experienceRe_group1 text found E) as (g & Hg).
      destruct (experienceRe_digits text found g E Hg) as [Hne Hall].
      exists g. rewrite Hg. auto.
  - intros pre suf H.
    pose proof (String_match_at experienceRe pre (yearsPhrase ++ suf) _ H
                  (experienceRe_on_phrase _ suf)) as Hm.
    eexists. split; [exact Hm|].
    split; [reflexivity|]. split; [reflexivity|].
    intros maxArguments r Hr.
    destruct (parseResumeText_returned maxArguments _ r Hr)
      as (_ & n & degrees & skills & lp & _ & _ & _ & _ & ->).
    cbn [totalYears]. unfold totalYearsOf. rewrite Hm. reflexivity.
Qed.

Lemma C5_witness :
  exists r found,
    parseResumeText engineLimit (lit "Over " ++ yearsPhrase ++ lit " in labs")
    = Some (Return r) /\
    String_match (lit "Over " ++ yearsPhrase ++ lit " in labs") experienceRe
      = Some found /\
    index found = 5 /\
    group found 1 = Some (lit "5") /\
    totalYears r = Some (lit "5 years").
Proof.
  destruct (proj1 (proj1 C5_total_years_of_first_match engineLimit
                     (lit "Over " ++ yearsPhrase ++ lit " in labs")))
    as (r & Hr); [vm_compute; discriminate|].
  destruct (proj2 C5_total_years_of_first_match (lit "Over ") (lit " in labs"))
    as (found & Hm & Hi & Hg & Hy).
  - intros i Hi.
    do 5 (destruct i as [|i]; [vm_compute; reflexivity|]).
    simpl in Hi. lia.
  - exists r, found. split; [exact Hr|]. split; [exact Hm|].
    split; [exact Hi|]. split; [exact Hg|]. exact (Hy engineLimit r Hr).
Defined.

(** C5 as stated fails when a match starts before the phrase: in
    "15+ years of experience" the phrase is there, from index 1 on, and
    [totalYears] is "15 years". *)
Lemma C5_counterexample_digit_before_phrase :
  lit "15+ years of experience" = lit "1" ++ yearsPhrase /\
  exists r,
    parseResumeText engineLimit (lit "15+ years of experience") = Some (Return r) /\
    totalYears r = Some (lit "15 years") /\
    totalYears r <> Some (lit "5 years").
Proof.
  split; [reflexivity|]. eexists. split; [vm_compute; reflexivity|].
  split; [reflexivity | discriminate].
Qed.

(** No match of the e-mail expression starts inside a stretch of text
    that holds no at-sign and ends with a code unit that cannot stand in a
    local part, a space for instance. *)
Lemma no_at_noMatchBefore pre last rest :
  forallb (fun c => negb (Z.eqb c 64)) (pre ++ [last]) = true ->
  localChar last = false ->
  noMatchBefore emailRe None ((pre ++ [last]) ++ rest) (List.length (pre ++ [last])).
Proof.
  intros Hat Hlast i Hi.
  destruct (matchAt emailRe _ _) as [s|] eqn:E; [exfalso|reflexivity].
  apply matchAt_sound in E. destruct E as (Hsplit & _ & L & _).
  apply emailRe_shape in L.
  destruct L as (loc & dom & tld & Hw & _ & Fl & _).
  rewrite Hw in Hsplit. rewrite skipn_app in Hsplit.
  replace (i - List.length (pre ++ [last])) with 0 in Hsplit by lia.
  cbn [skipn] in Hsplit.
  assert (Hp : exists p, skipn i (pre ++ [last]) = p ++ [last]).
  { rewrite length_app in Hi. simpl in Hi.
    rewrite skipn_app.
    destruct (Nat.le_gt_cases (List.length pre) i) as [Hge|Hlt].
    - rewrite skipn_all2 by exact Hge.
      replace (i - List.length pre) with 0 by lia. now exists [].
    - replace (i - List.length pre) with 0 by lia. now exists (skipn i pre). }
  destruct Hp as (p & Hp). 
  assert (Hin : forall c, In c (p ++ [last]) -> c <> 64%Z).
  { intros c Hc. rewrite <- Hp in Hc.
    assert (Hc' : In c (pre ++ [last])).
    { rewrite <- (firstn_skipn i (pre ++ [last])). apply in_or_app. now right. }
    rewrite forallb_forall in Hat. specialize (Hat c Hc').
    apply negb_true_iff, Z.eqb_neq in Hat. exact Hat. }
  rewrite Hp in Hsplit. rewrite <- !app_assoc in Hsplit.
  apply app_eq_app in Hsplit. destruct Hsplit as (l & [[E1 E2]|[E1 E2]]).
  - (* the local part ends inside the stretch: its at-sign is there *)
    destruct l as [|c l]; simpl in E2; injection E2 as E2 _.
    + apply (Hin last); [|now symmetry]. apply in_or_app. right. now left.
    + apply (Hin 64%Z); [|reflexivity]. rewrite E1, E2.
      apply in_or_app. left. apply in_or_app. right. now left.
  - (* the local part runs past the stretch: it holds [last] *)
    destruct l as [|c l]; simpl in E2; injection E2 as E2 _.
    + apply (Hin last); [|exact E2]. apply in_or_app. right. now left.
    + subst c. rewrite E1, !forallb_app in Fl. apply andb_true_iff in Fl.
      destruct Fl as [_ Fl]. simpl in Fl. rewrite Hlast in Fl. discriminate Fl.
Qed.

(** ** Last position: the fallback over the fixed titles *)

Lemma startsWith_prefix p : forall s,
  startsWith p s = true <-> exists b, s = p ++ b.
Proof.
  induction p as [|x p IH]; intros s; simpl.
  - split; [intros _; now exists s | reflexivity].
  - destruct s as [|y s].
    + split; [discriminate | intros (b & E); discriminate E].
    + rewrite andb_true_iff, IH. unfold char_eqb. rewrite Z.eqb_eq. split.
      * intros (-> & b & ->). now exists b.
      * intros (b & E). injection E as -> ->. split; [reflexivity | now exists b].
Qed.

Lemma includes_occursIn p : forall s, includes s p = true <-> occursIn p s.
Proof.
  induction s as [|y s IH].
  - simpl. rewrite orb_false_r, startsWith_prefix. split.
    + intros (b & E). now exists [], b.
    + intros (a & b & E). destruct a; [now exists b|discriminate E].
  - cbn [includes]. rewrite orb_true_iff, IH, startsWith_prefix. split.
    + intros [(b & E)|(a & b & E)].
      * now exists [], b.
      * exists (y :: a), b. now rewrite E.
    + intros (a & b & E). destruct a as [|z a].
      * left. now exists b.
      * right. injection E as -> ->. now exists a, b.
Qed.



(** ** The "Skills" section *)

(** A token of the section body is kept exactly when its trimmed length is
    more than 2 and less than 30. *)
Lemma additionalSkills_kept (body token : jsstring) :
  In token (additionalSkills body) <->
  (exists piece, In piece (split body skillSeparatorRe) /\ token = trim piece) /\
  2 < List.length token < 30.
Proof.
  unfold additionalSkills. rewrite filter_In, in_map_iff, andb_true_iff.
  rewrite !Nat.ltb_lt. split.
  - intros ((piece & <- & Hp) & H2 & H30). split; [now exists piece | lia].
  - intros ((piece & Hp & ->) & H). split; [now exists piece | lia].
Qed.

(** A section whose captured body is "Python, Excel, SQL" puts the three
    names among the skills. *)
Lemma skills_of_comma_separated_body (maxArguments : positive)
      (text : jsstring) (found : MatchResult) :
  String_match text skillsSectionRe = Some found ->
  group found 1 = Some (lit "Python, Excel, SQL") ->
  (3 <= Z.pos maxArguments)%Z ->
  exists r s,
    parseResumeText maxArguments text = Some (Return r) /\ skills r = Some s /\
    In (lit "Python") s /\ In (lit "Excel") s /\ In (lit "SQL") s.
Proof.
  intros Hsec Hg Hmax.
  assert (E : sectionSkills text = [lit "Python"; lit "Excel"; lit "SQL"]).
  { unfold sectionSkills. rewrite Hsec, Hg. vm_compute. reflexivity. }
  destruct (parseResumeText_fits maxArguments text)
    as (n & degrees & table & lp & _ & _ & _ & _ & Hr); [rewrite E; exact Hmax|].
  eexists; eexists. split; [exact Hr|]. split; [reflexivity|].
  cbn [skills].
  split; [|split]; apply Set_of_In, in_or_app; right; rewrite E; cbn [In]; auto 6.
Qed.

(** C7. On the failing input: the body of the section is split on commas
    and line feeds, and on U+00E2, U+20AC and U+00A2, but not on the bullet
    U+2022.  A bulleted body stays one token, and "Excel" is not among the
    skills. *)
Theorem C7_bullets_do_not_split :
  split bulletedBody skillSeparatorRe = [bulletedBody] /\
  split (lit "Python, Excel, SQL") skillSeparatorRe
    = [lit "Python"; lit " Excel"; lit " SQL"] /\
  split (lit "Python" ++ [226%Z] ++ lit "Excel") skillSeparatorRe
    = [lit "Python"; lit "Excel"] /\
  forall maxArguments, exists r,
    parseResumeText maxArguments bulletedSkills = Some (Return r) /\
    skills r = Some [lit "Python"; lit "SQL"; bulletedBody] /\
    ~ In (lit "Excel") [lit "Python"; lit "SQL"; bulletedBody].
Proof.
  split; [vm_compute; reflexivity|].
  split; [vm_compute; reflexivity|].
  split; [vm_compute; reflexivity|].
  intros maxArguments.
  destruct (parseResumeText_fits maxArguments bulletedSkills)
    as (n & degrees & table & lp & _ & Hd & Ht & _ & Hr).
  { change (sectionSkills bulletedSkills) with [bulletedBody]. cbn [List.length]. lia. }
  eexists. split; [exact Hr|]. cbn [skills].
  vm_compute in Ht. injection Ht as <-.
  split; [vm_compute; reflexivity|].
  vm_compute. intros [E|[E|[E|[]]]]; discriminate E.
Qed.
Import JS RegExp Utf8 FileHandlers ResumeParser ClientResumeParser Spec Builtins.
Import SpecMore JSFacts RegExpFacts Utf8Facts ResumeParserFacts.

(* ================================================================== *)
(** * The upload: filter, extraction and record                       *)
(* ================================================================== *)

Module UploadFacts.
Import Routes.

Lemma allowedTypes_supported :
  allowedTypes = [MIME_PDF; MIME_DOCX; MIME_TXT].
Proof. reflexivity. Qed.

Lemma fileFilter_accepts file :
  fileFilter file = Return true <->
  mimetype file = MIME_PDF \/ mimetype file = MIME_DOCX \/ mimetype file = MIME_TXT.
Proof.
  unfold fileFilter, Array_includes. rewrite allowedTypes_supported.
  cbn [existsb]. rewrite orb_false_r. split.
  - destruct (str_eqb (mimetype file) MIME_PDF) eqn:Ep;
      [left; now apply str_eqb_eq|].
    destruct (str_eqb (mimetype file) MIME_DOCX) eqn:Ed;
      [right; left; now apply str_eqb_eq|].
    destruct (str_eqb (mimetype file) MIME_TXT) eqn:Et;
      [right; right; now apply str_eqb_eq|].
    discriminate.
  - intros [E | [E | E]]; apply str_eqb_eq in E; rewrite E;
      now rewrite ?orb_true_r.
Qed.

Lemma fileFilter_rejects file :
  fileFilter file <> Return true ->
  mimetype file <> MIME_PDF /\ mimetype file <> MIME_DOCX /\
  mimetype file <> MIME_TXT.
Proof.
  intros H. repeat split; intros E; apply H, fileFilter_accepts; tauto.
Qed.

Lemma extract_supported pdf mammoth buffer contentType :
  contentType = MIME_PDF \/ contentType = MIME_DOCX \/ contentType = MIME_TXT ->
  exists log text,
    extractTextFromFile pdf mammoth buffer contentType = (log, Return text).
Proof.
  unfold extractTextFromFile. intros [-> | [-> | ->]].
  - change (str_eqb MIME_PDF MIME_PDF) with true. cbv iota.
    unfold extractTextFromPDF. destruct (pdf buffer); eauto.
  - change (str_eqb MIME_DOCX MIME_PDF) with false.
    change (str_eqb MIME_DOCX MIME_DOCX) with true. cbv iota.
    unfold extractTextFromDOCX. destruct (mammoth buffer); eauto.
  - change (str_eqb MIME_TXT MIME_PDF) with false.
    change (str_eqb MIME_TXT MIME_DOCX) with false.
    change (str_eqb MIME_TXT MIME_TXT) with true. cbv iota.
    unfold extractTextFromTXT. simpl. eauto.
Qed.

Lemma extract_unsupported pdf mammoth buffer contentType :
  contentType <> MIME_PDF -> contentType <> MIME_DOCX -> contentType <> MIME_TXT ->
  extractTextFromFile pdf mammoth buffer contentType
  = ([], Throw (Error (lit "Unsupported file type: " ++ contentType))).
Proof.
  unfold extractTextFromFile. intros Hp Hd Ht.
  destruct (str_eqb contentType MIME_PDF) eqn:Ep;
    [apply str_eqb_eq in Ep; contradiction|].
  destruct (str_eqb contentType MIME_DOCX) eqn:Ed;
    [apply str_eqb_eq in Ed; contradiction|].
  destruct (str_eqb contentType MIME_TXT) eqn:Et;
    [apply str_eqb_eq in Et; contradiction|].
  reflexivity.
Qed.

Lemma parseResumeText_returns maxArguments text :
  (Z.of_nat (List.length (sectionSkills text)) <= Z.pos maxArguments)%Z ->
  exists fields, parseResumeText maxArguments text = Some (Return fields).
Proof.
  intros Hfit.
  destruct (parseResumeText_fits maxArguments text Hfit)
    as (n & degrees & found & lp & _ & _ & _ & _ & Hr).
  eexists. exact Hr.
Qed.

Lemma sentinels_parse_blank maxArguments :
  parseResumeText maxArguments PDF_SENTINEL = Some (Return blank) /\
  parseResumeText maxArguments DOCX_SENTINEL = Some (Return blank).
Proof. split; vm_compute; reflexivity. Qed.

End UploadFacts.
Import Routes UploadFacts.

(** X1. The upload filter and the extraction agree on the content types.
    For a file the filter lets through the extraction returns a text, never
    the "Unsupported file type" error; [processResume] then ends as
    [parseResumeText] does on that text: every record it returns carries the
    generated id, the name and type of the file, the extracted text and the
    fields parsed from it, a record is returned whenever the tokens of the
    "Skills" section fit in one call, and an error of the parser is thrown
    on.  A file the filter turns down is one on which [processResume] throws
    "Unsupported file type". *)
Theorem X1_filter_and_extraction_agree
  (maxArguments : positive)
  (pdf mammoth : Buffer -> completion jsstring) (uuid : jsstring) (file : File) :
  match fileFilter file with
  | Return _ =>
      exists log text,
        extractTextFromFile pdf mammoth (buffer file) (mimetype file)
        = (log, Return text) /\
        ((Z.of_nat (List.length (sectionSkills text)) <= Z.pos maxArguments)%Z ->
         exists fields, parseResumeText maxArguments text = Some (Return fields)) /\
        (forall fields,
           parseResumeText maxArguments text = Some (Return fields) ->
           processResume maxArguments pdf mammoth uuid file
           = Some (log, Return {| id := uuid;
                                  filename := originalname file;
                                  contentType := mimetype file;
                                  rawText := text;
                                  parsed := fields |})) /\
        (forall e,
           parseResumeText maxArguments text = Some (Throw e) ->
           processResume maxArguments pdf mammoth uuid file = Some (log, Throw e)) /\
        (forall resume,
           option_map snd (processResume maxArguments pdf mammoth uuid file)
           = Some (Return resume) ->
           rawText resume = text /\
           parseResumeText maxArguments text = Some (Return (parsed resume)))
  | Throw _ =>
      processResume maxArguments pdf mammoth uuid file
      = Some ([], Throw (Error (lit "Unsupported file type: " ++ mimetype file)))
  end.
Proof.
  destruct (fileFilter file) as [v|e] eqn:E.
  - assert (Hv : fileFilter file = Return true).
    { revert E. unfold fileFilter.
      destruct (Array_includes allowedTypes (mimetype file)); congruence. }
    apply fileFilter_accepts in Hv.
    destruct (extract_supported pdf mammoth (buffer file) (mimetype file) Hv)
      as (log & text & Hx).
    exists log, text. split; [exact Hx|].
    split; [apply parseResumeText_returns|].
    unfold processResume. rewrite Hx.
    split; [intros fields Hf; now rewrite Hf|].
    split; [intros e Hf; now rewrite Hf|].
    intros resume.
    destruct (parseResumeText maxArguments text) as [[fields|e]|];
      cbn; intros H; try discriminate H.
    injection H as <-. auto.
  - assert (Hv : fileFilter file <> Return true) by (rewrite E; discriminate).
    apply fileFilter_rejects in Hv. destruct Hv as (Hp & Hd & Ht).
    unfold processResume.
    now rewrite (extract_unsupported pdf mammoth (buffer file) (mimetype file) Hp Hd Ht).
Qed.

(** X2. A PDF or DOCX file whose decoder throws is not refused:
    [processResume] writes one line with [console.error] and returns a
    record whose [rawText] is the sentinel of the format, a text that begins
    with "Error:", and in which no field is found: the two lists are empty
    and the other fields absent. *)
Theorem X2_decoder_failure_gives_blank_record
  (maxArguments : positive)
  (pdf mammoth : Buffer -> completion jsstring) (uuid : jsstring) (file : File)
  (e : error) :
  (mimetype file = MIME_PDF -> pdf (buffer file) = Throw e ->
   processResume maxArguments pdf mammoth uuid file
   = Some ([lit "Error extracting text from PDF:"],
           Return {| id := uuid; filename := originalname file;
                     contentType := MIME_PDF; rawText := PDF_SENTINEL;
                     parsed := blank |})) /\
  (mimetype file = MIME_DOCX -> mammoth (buffer file) = Throw e ->
   processResume maxArguments pdf mammoth uuid file
   = Some ([lit "Error extracting text from DOCX:"],
           Return {| id := uuid; filename := originalname file;
                     contentType := MIME_DOCX; rawText := DOCX_SENTINEL;
                     parsed := blank |})) /\
  startsWith (lit "Error:") PDF_SENTINEL = true /\
  startsWith (lit "Error:") DOCX_SENTINEL = true.
Proof.
  destruct (sentinels_parse_blank maxArguments) as (Hp & Hd).
  split; [|split; [|split; reflexivity]].
  - intros Hm Hx. unfold processResume, extractTextFromFile. rewrite Hm.
    change (str_eqb MIME_PDF MIME_PDF) with true. cbv iota.
    unfold extractTextFromPDF. rewrite Hx, Hp. reflexivity.
  - intros Hm Hx. unfold processResume, extractTextFromFile. rewrite Hm.
    change (str_eqb MIME_DOCX MIME_PDF) with false.
    change (str_eqb MIME_DOCX MIME_DOCX) with true. cbv iota.
    unfold extractTextFromDOCX. rewrite Hx, Hd. reflexivity.
Qed.

Lemma X2_witness :
  processResume engineLimit (fun _ => Throw (Error (lit "bad XRef entry"))) (fun _ => Return [])
    (lit "id-1")
    {| buffer := [37; 80; 68; 70]%Z; mimetype := MIME_PDF;
       originalname := lit "cv.pdf" |}
  = Some ([lit "Error extracting text from PDF:"],
          Return {| id := lit "id-1"; filename := lit "cv.pdf";
                    contentType := MIME_PDF; rawText := PDF_SENTINEL;
                    parsed := blank |}) /\
  processResume engineLimit (fun _ => Return []) (fun _ => Throw (TypeError (lit "not a zip")))
    (lit "id-2")
    {| buffer := [80; 75; 3; 4]%Z; mimetype := MIME_DOCX;
       originalname := lit "cv.docx" |}
  = Some ([lit "Error extracting text from DOCX:"],
          Return {| id := lit "id-2"; filename := lit "cv.docx";
                    contentType := MIME_DOCX; rawText := DOCX_SENTINEL;
                    parsed := blank |}).
Proof.
  split.
  - apply (proj1 (X2_decoder_failure_gives_blank_record engineLimit
                    (fun _ => Throw (Error (lit "bad XRef entry")))
                    (fun _ => Return []) (lit "id-1")
                    {| buffer := [37; 80; 68; 70]%Z; mimetype := MIME_PDF;
                       originalname := lit "cv.pdf" |}
                    (Error (lit "bad XRef entry")))); reflexivity.
  - apply (proj1 (proj2 (X2_decoder_failure_gives_blank_record engineLimit
                    (fun _ => Return [])
                    (fun _ => Throw (TypeError (lit "not a zip"))) (lit "id-2")
                    {| buffer := [80; 75; 3; 4]%Z; mimetype := MIME_DOCX;
                       originalname := lit "cv.docx" |}
                    (TypeError (lit "not a zip"))))); reflexivity.
Defined.

(* ================================================================== *)
(** * The key skills of the client                                    *)
(* ================================================================== *)

Lemma filterKeywords_throws text e bad : forall pre post,
  Forall (fun k => exists re, RegExp_new (lit "\b" ++ k ++ lit "\b") "i" = Return re)
         pre ->
  RegExp_new (lit "\b" ++ bad ++ lit "\b") "i" = Throw e ->
  filterKeywords (pre ++ bad :: post) text = Throw e.
Proof.
  induction pre as [|k pre IH]; intros post Hb Hbad.
  - cbn [app filterKeywords]. unfold keywordFound. now rewrite Hbad.
  - inversion Hb as [|? ? (re & Hre) Hb']; subst.
    cbn [app filterKeywords]. unfold keywordFound at 1. rewrite Hre.
    cbn [bind]. now rewrite (IH post Hb' Hbad).
Qed.

Lemma extractKeySkills_throws text :
  extractKeySkills text
  = Throw (SyntaxError (lit "Invalid regular expression: Nothing to repeat")).
Proof.
  unfold extractKeySkills.
  change allKeywords with
    (List.map lit ["JavaScript"; "TypeScript"; "Python"; "Java"; "C#"]%string
     ++ lit "C++"
     :: List.map lit ["Ruby"; "PHP"; "Swift"; "Kotlin"; "Go"; "Rust"; "Scala";
                      "Perl"; "R"]%string ++ frameworks ++ tools).
  erewrite filterKeywords_throws.
  - reflexivity.
  - repeat (apply Forall_cons; [eexists; vm_compute; reflexivity|]).
    apply Forall_nil.
  - vm_compute. reflexivity.
Qed.

(** X3. [extractKeySkills] returns on no text at all: the expression it
    builds for the keyword "C++" is not a pattern, so every call ends in a
    SyntaxError, after the five keywords listed before it were tried and
    whatever the text holds. *)
Theorem X3_extractKeySkills_always_throws (resumeText : jsstring) :
  (exists message, extractKeySkills resumeText = Throw (SyntaxError message)) /\
  (exists earlier later,
     allKeywords = earlier ++ lit "C++" :: later /\ List.length earlier = 5 /\
     Forall (fun k => exists re,
               RegExp_new (lit "\b" ++ k ++ lit "\b") "i" = Return re) earlier /\
     exists message,
       RegExp_new (lit "\b" ++ lit "C++" ++ lit "\b") "i"
       = Throw (SyntaxError message)).
Proof.
  split.
  - eexists. apply extractKeySkills_throws.
  - exists (List.map lit ["JavaScript"; "TypeScript"; "Python"; "Java"; "C#"]%string).
    eexists. split; [reflexivity|]. split; [reflexivity|]. split.
    + repeat (apply Forall_cons; [eexists; vm_compute; reflexivity|]).
      apply Forall_nil.
    + eexists. vm_compute. reflexivity.
Qed.

(** X4. [formatResumeForDisplay] never changes the record it is given.  It
    returns that record when its [skills] list is non-empty, and throws a
    SyntaxError when the list is empty or absent: the key skills it would
    fill in are never computed. *)
Theorem X4_format_never_fills_in_skills (resume : Resume) :
  fst (formatResumeForDisplay resume) = resume /\
  match skills (parsed resume) with
  | Some (_ :: _) => snd (formatResumeForDisplay resume) = Return resume
  | _ => exists message,
           snd (formatResumeForDisplay resume) = Throw (SyntaxError message)
  end.
Proof.
  unfold formatResumeForDisplay.
  destruct (skills (parsed resume)) as [[|first others]|];
    rewrite ?extractKeySkills_throws; cbn [fst snd]; eauto.
Qed.

(* ================================================================== *)
(** * The shapes of the name and of the phone number                  *)
(* ================================================================== *)

Module ShapeFacts.

Lemma lang_repeat_class ic ml inv items mn mx greedy b w t :
  lang ic ml (Repeat (Class inv items) mn mx greedy) b w t ->
  mn <= List.length w /\
  match mx with Some hi => List.length w <= mn + (hi - mn) | None => True end /\
  Forall (fun c => class_mem ic inv items c = true) w.
Proof.
  intros (extra & Hx & Hit). apply (iter_class ic ml) in Hit.
  destruct Hit as [N F]. split; [lia|]. split; [|exact F].
  destruct mx; [lia | exact I].
Qed.

Lemma class_upper c :
  class_mem false false [CsRange 65%Z 90%Z] c = true -> isUpper c = true.
Proof.
  unfold class_mem, isUpper. cbn [existsb cset_mem andb xorb].
  now rewrite !orb_false_r.
Qed.

Lemma class_lower c :
  class_mem false false [CsRange 97%Z 122%Z] c = true -> isLower c = true.
Proof.
  unfold class_mem, isLower. cbn [existsb cset_mem andb xorb].
  now rewrite !orb_false_r.
Qed.

Lemma class_space ic c :
  class_mem ic false [CsSpace true] c = true -> isWhiteSpace c = true.
Proof.
  unfold class_mem. cbn [existsb cset_mem xorb]. rewrite orb_false_r.
  destruct (isWhiteSpace c); [reflexivity | discriminate].
Qed.

Lemma class_digit ic c :
  class_mem ic false [CsDigit true] c = true -> isDigit c = true.
Proof.
  unfold class_mem. cbn [existsb cset_mem xorb]. rewrite orb_false_r.
  destruct (isDigit c); [reflexivity | discriminate].
Qed.

Lemma class_separator c :
  class_mem false false [CsChar 45%Z; CsChar 46%Z; CsSpace true] c = true ->
  phoneSeparator c = true.
Proof.
  unfold class_mem, phoneSeparator.
  cbn [existsb cset_mem canonicalize andb xorb].
  rewrite !(Z.eqb_sym c), orb_false_r.
  destruct (isWhiteSpace c); [now rewrite !orb_true_r | now rewrite !orb_false_r].
Qed.

Lemma iter_pieces (one : option char16 -> jsstring -> jsstring -> Prop)
      (P : jsstring -> Prop) :
  (forall b w t, one b w t -> P w) ->
  forall n b w t, iter n one b w t ->
    exists pieces, List.length pieces = n /\ w = List.concat pieces /\ Forall P pieces.
Proof.
  intros HP. induction n as [|n IH]; intros b w t H.
  - simpl in H. subst w. exists []. repeat split. constructor.
  - destruct H as (w1 & w2 & -> & H1 & H2).
    destruct (IH _ _ _ H2) as (ps & N & -> & F).
    exists (w1 :: ps). simpl. repeat split; [now rewrite N|].
    constructor; [eapply HP; exact H1 | exact F].
Qed.

Lemma lastOf_snoc b w c : lastOf b (w ++ [c]) = Some c.
Proof. unfold lastOf. now rewrite fold_left_app. Qed.

(** What [^] asks of the text before the match. *)
Lemma lineStart_before (pre suf : jsstring) :
  atLineStart true {| prev := lastOf None pre; rest := suf; pos := 0; caps := [] |}
  = true ->
  pre = [] \/ exists p c, pre = p ++ [c] /\ isLineTerminator c = true.
Proof.
  destruct pre as [|c pre] using rev_ind; [now left|].
  rewrite lastOf_snoc. unfold atLineStart. cbn [prev andb].
  intros H. right. now exists pre, c.
Qed.

Lemma nameRe_pattern : pattern nameRe = Seq LineStart (Group 1 nameBody).
Proof. reflexivity. Qed.

Lemma capitalized_of u ls :
  class_mem false false [CsRange 65%Z 90%Z] u = true ->
  forall n, List.length ls = S n ->
  Forall (fun c => class_mem false false [CsRange 97%Z 122%Z] c = true) ls ->
  capitalized (u :: ls).
Proof.
  intros Hu n N F. exists u, ls. split; [reflexivity|].
  split; [now apply class_upper|]. split; [eapply length_nonempty; exact N|].
  eapply Forall_forallb; [|exact F]. apply class_lower.
Qed.

Lemma nameBody_shape b w t : lang false true nameBody b w t -> nameShape w.
Proof.
  cbn [nameBody chain fold_left andThen UPPER LOWER SPACE plus lang].
  intros (w3 & w4 & -> & (w5 & w6 & -> & (u & -> & Hu) & (e1 & _ & H1))
          & (e2 & He2 & H2)).
  apply (iter_class false true) in H1. destruct H1 as [N1 F1].
  apply (iter_pieces _ (fun p => exists g w, p = g ++ w /\ gap g /\ capitalized w))
    in H2.
  - destruct H2 as (ps & Np & -> & Fp).
    exists ([u] ++ w6), ps. split; [|split; [lia|split; [exact Fp|reflexivity]]].
    eapply (capitalized_of u w6 Hu); [exact N1 | exact F1].
  - clear. intros b w t (w5 & w6 & -> & (w7 & w8 & -> & (e0 & _ & Hg) & (u & -> & Hu))
                         & (e1 & _ & Hl)).
    apply (iter_class false true) in Hg, Hl.
    destruct Hg as [Ng Fg], Hl as [Nl Fl].
    exists w7, (u :: w6). split; [now rewrite <- app_assoc|]. split.
    + split; [eapply length_nonempty; exact Ng|].
      eapply Forall_forallb; [|exact Fg]. apply (class_space false).
    + eapply (capitalized_of u w6 Hu); [exact Nl | exact Fl].
Qed.

(** Group 1 of the name expression spans the whole match. *)
Lemma nameRe_group_is_match text r :
  String_match text nameRe = Some r -> group r 1 = Some (matched r).
Proof.
  intros H. apply String_match_leftmost in H. destruct H as (_ & s & Hm & ->).
  unfold matchAt in Hm. rewrite nameRe_pattern in Hm. cbn [m] in Hm.
  destruct (atLineStart _ _); [|discriminate Hm].
  apply m_inv in Hm. destruct Hm as (y & Hy & _). injection Hy as <-.
  unfold group, resultOf. cbn [groups matched nGroups nameRe seq List.map nth
                               Nat.sub capture caps pos lookupCap Nat.eqb rest].
  now rewrite Nat.sub_0_r.
Qed.

Lemma lower_not_space c : isLower c = true -> isWhiteSpace c = false.
Proof.
  intros H. apply wordChar_not_space. unfold isWordChar. now rewrite H.
Qed.

Lemma upper_not_space c : isUpper c = true -> isWhiteSpace c = false.
Proof.
  intros H. apply wordChar_not_space. unfold isWordChar. rewrite H.
  now rewrite orb_true_r.
Qed.

Lemma digit_not_space c : isDigit c = true -> isWhiteSpace c = false.
Proof.
  intros H. apply wordChar_not_space. unfold isWordChar. rewrite H.
  now rewrite !orb_true_r.
Qed.

Lemma capitalized_ends w :
  capitalized w ->
  (exists c w', w = c :: w' /\ isWhiteSpace c = false) /\
  (exists c w', w = w' ++ [c] /\ isWhiteSpace c = false).
Proof.
  intros (u & ls & -> & Hu & Hn & Hl). split.
  - exists u, ls. split; [reflexivity | now apply upper_not_space].
  - destruct ls as [|d ls] using rev_ind; [contradiction|].
    exists d, (u :: ls). split; [reflexivity|].
    rewrite forallb_app in Hl. apply andb_true_iff in Hl. destruct Hl as [_ Hl].
    simpl in Hl. rewrite andb_true_r in Hl. now apply lower_not_space.
Qed.

(** A name of that shape has no white space at either end. *)
Lemma nameShape_trim n : nameShape n -> trim n = n.
Proof.
  intros (first & others & Hf & Hn & Fo & ->). apply trim_unchanged.
  - destruct (proj1 (capitalized_ends first Hf)) as (c & w' & -> & Hc).
    exists c. eexists. split; [reflexivity | exact Hc].
  - destruct others as [|p others _] using rev_ind; [simpl in Hn; lia|].
    apply Forall_app in Fo. destruct Fo as [_ Fo].
    inversion Fo as [|? ? (g & w & -> & _ & Hw) _]; subst.
    destruct (proj2 (capitalized_ends w Hw)) as (c & w' & -> & Hc).
    exists c, (first ++ List.concat others ++ g ++ w').
    split; [|exact Hc].
    rewrite concat_app. simpl. now rewrite app_nil_r, <- !app_assoc.
Qed.

Lemma nameRe_match text r :
  String_match text nameRe = Some r ->
  nameShape (matched r) /\ atLineOf text (matched r).
Proof.
  intros H. apply String_match_sound in H.
  destruct H as (pre & suf & E & _ & _ & L & _).
  rewrite nameRe_pattern in L. cbn [lang] in L.
  destruct L as (w1 & w2 & Ew & (-> & Hs) & L). simpl in Ew. subst w2.
  cbn [multiline nameRe] in Hs. split.
  - eapply nameBody_shape. exact L.
  - exists pre, suf. split; [exact E|]. eapply lineStart_before. exact Hs.
Qed.

Lemma name_of_record maxArguments text r :
  parseResumeText maxArguments text = Some (Return r) ->
  nameOf text = Return (name r).
Proof.
  intros H.
  destruct (parseResumeText_returned maxArguments text r H)
    as (_ & n & degrees & found & lp & Hn & _ & _ & _ & ->).
  exact Hn.
Qed.

End ShapeFacts.
Import ShapeFacts.

(** X5. The [name] of a parsed record, when there is one, is made of two or
    three capitalized words of ASCII letters with white space between them
    (line breaks count as white space), has no white space at either end,
    and stands in the text at the start of a line. *)
Theorem X5_name_is_capitalized_words_at_line_start
  (maxArguments : positive) (text : jsstring) (r : PartialResume) (n : jsstring) :
  parseResumeText maxArguments text = Some (Return r) ->
  name r = Some n ->
  nameShape n /\ trim n = n /\ atLineOf text n.
Proof.
  intros Hr Hn. apply name_of_record in Hr. rewrite Hn in Hr.
  unfold nameOf in Hr.
  destruct (String_match text nameRe) as [nm|] eqn:Em; [|discriminate Hr].
  rewrite (nameRe_group_is_match text nm Em) in Hr. cbn [trimOf bind] in Hr.
  destruct (nameRe_match text nm Em) as (Hs & Hl).
  rewrite (nameShape_trim _ Hs) in Hr. injection Hr as <-.
  split; [exact Hs|]. split; [now apply nameShape_trim | exact Hl].
Qed.

(** A resume whose first line holds a name and whose second line begins
    with a capitalized word: the name runs over the line break. *)
Lemma X5_witness :
  exists r,
    parseResumeText engineLimit
      (lit "Resume of" ++ LF ++ lit "Jane Doe" ++ LF ++ lit "Engineer at Acme")
    = Some (Return r) /\
    name r = Some (lit "Jane Doe" ++ LF ++ lit "Engineer") /\
    nameShape (lit "Jane Doe" ++ LF ++ lit "Engineer") /\
    atLineOf (lit "Resume of" ++ LF ++ lit "Jane Doe" ++ LF ++ lit "Engineer at Acme")
             (lit "Jane Doe" ++ LF ++ lit "Engineer").
Proof.
  eexists. split; [vm_compute; reflexivity|]. split; [reflexivity|].
  refine ((fun H => conj (proj1 H) (proj2 (proj2 H)))
            (X5_name_is_capitalized_words_at_line_start engineLimit
               (lit "Resume of" ++ LF ++ lit "Jane Doe" ++ LF ++ lit "Engineer at Acme")
               _ _ _ _)); vm_compute; reflexivity.
Defined.

Module PhoneFacts.

Lemma lang_opt ic ml a greedy b w t :
  lang ic ml (Repeat a 0 (Some 1) greedy) b w t ->
  w = [] \/ lang ic ml a b w t.
Proof.
  intros (extra & Hx & Hit). destruct extra as [|[|extra]]; [| |lia].
  - left. exact Hit.
  - right. destruct Hit as (w1 & w2 & -> & H1 & ->).
    rewrite app_nil_r. exact H1.
Qed.

Lemma lang_digits ic ml n greedy b w t :
  lang ic ml (Repeat DIGIT n (Some n) greedy) b w t -> digits n w.
Proof.
  intros H. apply lang_repeat_class in H. destruct H as (Hlo & Hhi & F).
  split; [lia|]. eapply Forall_forallb; [|exact F]. apply class_digit.
Qed.

Lemma lang_atMostOne ic ml items (ok : char16 -> bool) greedy b w t :
  (forall c, class_mem ic false items c = true -> ok c = true) ->
  lang ic ml (Repeat (Class false items) 0 (Some 1) greedy) b w t ->
  atMostOne ok w.
Proof.
  intros Hok H. apply lang_opt in H. destruct H as [-> | (c & -> & Hc)].
  - now left.
  - right. exists c. split; [reflexivity | now apply Hok].
Qed.

Lemma phoneRe_pattern :
  pattern phoneRe =
  chain [opt (Group 1 (chain [Chr 43%Z; Repeat DIGIT 1 (Some 2) true; opt SPACE]));
         Group 2 (Alt (chain [Chr 40%Z; Repeat DIGIT 3 (Some 3) true; Chr 41%Z])
                      (Repeat DIGIT 3 (Some 3) true));
         opt (Class false [CsChar 45%Z; CsChar 46%Z; CsSpace true]);
         Repeat DIGIT 3 (Some 3) true;
         opt (Class false [CsChar 45%Z; CsChar 46%Z; CsSpace true]);
         Repeat DIGIT 4 (Some 4) true].
Proof. reflexivity. Qed.

Lemma phoneRe_shape b w t :
  lang false false (pattern phoneRe) b w t -> phoneShape w.
Proof.
  rewrite phoneRe_pattern. cbn [chain fold_left andThen].
  cbn [lang]. fold (lang false false).
  intros (w1 & last & -> & (w3 & s2 & -> & (w5 & mid & -> & (w7 & s1 & -> &
            (country & area & -> & Hc & Ha) & Hs1) & Hm) & Hs2) & Hl).
  exists country, area, s1, mid, s2, last.
  split; [now rewrite <- !app_assoc|].
  split; [|split; [|split; [|split; [|split]]]].
  - apply lang_opt in Hc. destruct Hc as [-> | Hc]; [now left|]. right.
    cbn [lang] in Hc. fold (lang false false) in Hc.
    destruct Hc as (w9 & sp & -> & (plus' & d & -> & (c & -> & Hp) & Hd) & Hsp).
    cbn [canonicalize andb] in Hp. apply Z.eqb_eq in Hp. subst c.
    destruct (lang_repeat_class false false false [CsDigit true] 1 (Some 2) true
                _ _ _ Hd) as (Hlo & Hhi & Fd).
    exists d, sp. split; [now rewrite <- !app_assoc|]. split; [lia|].
    split; [eapply Forall_forallb; [|exact Fd]; apply class_digit|].
    apply (lang_atMostOne false false [CsSpace true] isWhiteSpace true _ _ _
             (class_space false) Hsp).
  - cbn [lang] in Ha. fold (lang false false) in Ha. destruct Ha as [Ha | Ha].
    + right. destruct Ha as (w9 & close & -> & (open & d & -> & (c & -> & Ho) & Hd)
                             & (c' & -> & Hc')).
      cbn [canonicalize andb] in Ho, Hc'. apply Z.eqb_eq in Ho, Hc'. subst c c'.
      exists d. split; [now rewrite <- !app_assoc|].
      apply (lang_digits false false 3 true _ _ _ Hd).
    + left. apply (lang_digits false false 3 true _ _ _ Ha).
  - apply (lang_atMostOne false false _ phoneSeparator true _ _ _ class_separator Hs1).
  - apply (lang_digits false false 3 true _ _ _ Hm).
  - apply (lang_atMostOne false false _ phoneSeparator true _ _ _ class_separator Hs2).
  - apply (lang_digits false false 4 true _ _ _ Hl).
Qed.

Lemma digits_last n w :
  digits (S n) w -> exists c w', w = w' ++ [c] /\ isWhiteSpace c = false.
Proof.
  intros [N F]. destruct w as [|c w _] using rev_ind; [discriminate N|].
  exists c, w. split; [reflexivity|].
  rewrite forallb_app in F. apply andb_true_iff in F. destruct F as [_ F].
  simpl in F. rewrite andb_true_r in F. now apply digit_not_space.
Qed.

Lemma digits_first n w :
  digits (S n) w -> exists c w', w = c :: w' /\ isWhiteSpace c = false.
Proof.
  intros [N F]. destruct w as [|c w]; [discriminate N|].
  exists c, w. split; [reflexivity|].
  simpl in F. apply andb_true_iff in F. now apply digit_not_space.
Qed.

(** A phone number of that shape has no white space at either end. *)
Lemma phoneShape_trim w : phoneShape w -> trim w = w.
Proof.
  intros (country & area & s1 & mid & s2 & last & -> & Hc & Ha & _ & _ & _ & Hl).
  apply trim_unchanged.
  - destruct Hc as [-> | (d & sp & -> & _)].
    + destruct Ha as [Ha | (d & -> & _)].
      * destruct (digits_first _ _ Ha) as (c & w' & -> & Hw).
        exists c. eexists. split; [reflexivity | exact Hw].
      * exists 40%Z. eexists. split; [reflexivity | reflexivity].
    + exists 43%Z. eexists. split; [reflexivity | reflexivity].
  - destruct (digits_last _ _ Hl) as (c & w' & -> & Hw).
    exists c, (country ++ area ++ s1 ++ mid ++ s2 ++ w').
    split; [now rewrite <- !app_assoc | exact Hw].
Qed.

Lemma phone_of_record maxArguments text r :
  parseResumeText maxArguments text = Some (Return r) ->
  phone r = option_map (fun m => trim (matched m)) (String_match text phoneRe) /\
  email r = option_map (fun m => trim (matched m)) (String_match text emailRe).
Proof.
  intros H.
  destruct (parseResumeText_returned maxArguments text r H)
    as (_ & n & degrees & found & lp & _ & _ & _ & _ & ->).
  split; reflexivity.
Qed.

End PhoneFacts.
Import PhoneFacts.

(** X6. The [phone] of a parsed record, when there is one, occurs in the
    text and has the shape of the phone expression: an optional "+" with one
    or two digits, three digits with or without parentheses, three digits
    and four digits, with at most one hyphen, dot or white space before each
    of the last two groups; it has no white space at either end. *)
Theorem X6_phone_shape
  (maxArguments : positive) (text : jsstring) (r : PartialResume) (p : jsstring) :
  parseResumeText maxArguments text = Some (Return r) ->
  phone r = Some p ->
  phoneShape p /\ trim p = p /\ occursIn p text.
Proof.
  intros Hr Hp. apply phone_of_record in Hr. destruct Hr as [Hr _].
  rewrite Hp in Hr.
  destruct (String_match text phoneRe) as [pm|] eqn:Em; [|discriminate Hr].
  apply String_match_sound in Em.
  destruct Em as (pre & suf & E & _ & _ & L & _).
  apply phoneRe_shape in L. cbn [option_map] in Hr.
  rewrite (phoneShape_trim _ L) in Hr. injection Hr as ->.
  split; [exact L|]. split; [now apply phoneShape_trim|].
  exists pre, suf. exact E.
Qed.

Lemma X6_witness :
  exists r,
    parseResumeText engineLimit (lit "Call +1 (555) 123-4567 today")
    = Some (Return r) /\
    phone r = Some (lit "+1 (555) 123-4567") /\
    phoneShape (lit "+1 (555) 123-4567") /\
    occursIn (lit "+1 (555) 123-4567") (lit "Call +1 (555) 123-4567 today").
Proof.
  eexists. split; [vm_compute; reflexivity|]. split; [reflexivity|].
  refine ((fun H => conj (proj1 H) (proj2 (proj2 H)))
            (X6_phone_shape engineLimit (lit "Call +1 (555) 123-4567 today") _ _ _ _));
    vm_compute; reflexivity.
Defined.

(* ================================================================== *)
(** * Attempts that cannot fail, and where a lazy group stops         *)
(* ================================================================== *)

Module SectionFacts.

(** Optional iterations before a continuation that accepts every state
    find a match. *)
Lemma optionalReps_total body greedy (k : cont) :
  (forall y, k y <> None) ->
  forall room left x, optionalReps body greedy k room left x <> None.
Proof.
  intros Hk room left x.
  destruct room as [|room]; simpl; destruct greedy.
  - apply Hk.
  - destruct (k x) eqn:E; [discriminate | now apply Hk in E].
  - match goal with |- match ?a with _ => _ end <> None => destruct a end;
      [discriminate | apply Hk].
  - destruct (k x) eqn:E; [discriminate | now apply Hk in E].
Qed.

Lemma m_optional_total ic ml a mx greedy s (k : cont) :
  (forall y, k y <> None) -> m ic ml (Repeat a 0 mx greedy) s k <> None.
Proof. intros Hk. cbn [m requiredReps]. now apply optionalReps_total. Qed.

(** One or more members of a class, at a position that holds one, before
    a continuation that accepts every state. *)
Lemma m_plus_class_total ic ml inv items mx greedy s (k : cont) c t :
  rest s = c :: t -> class_mem ic inv items c = true ->
  (forall y, k y <> None) ->
  m ic ml (Repeat (Class inv items) 1 mx greedy) s k <> None.
Proof.
  intros Hr Hc Hk. cbn [m requiredReps]. unfold step at 1.
  cbn [resetCaps rest]. rewrite Hr, Hc. now apply optionalReps_total.
Qed.

Lemma jobRe_pattern :
  exists company,
    pattern jobRe =
    Seq (Seq LineStart (Group 1 (plus (Class false [CsWord true; CsSpace true]))))
        (opt company).
Proof. eexists. reflexivity. Qed.

Lemma m_Seq ic ml a b s k :
  m ic ml (Seq a b) s k = m ic ml a s (fun s1 => m ic ml b s1 k).
Proof. reflexivity. Qed.

Lemma m_Group ic ml i a s k :
  m ic ml (Group i a) s k = m ic ml a s (fun s1 => k (capture i s s1)).
Proof. reflexivity. Qed.

Lemma m_LineStart ic ml s k :
  m ic ml LineStart s k = if atLineStart ml s then k s else None.
Proof. reflexivity. Qed.

Lemma class_word_or_space c :
  class_mem false false [CsWord true; CsSpace true] c
  = isWordChar c || isWhiteSpace c.
Proof.
  unfold class_mem. cbn [existsb cset_mem xorb].
  now destruct (isWordChar c), (isWhiteSpace c).
Qed.

Lemma jobRe_first_attempt b c t :
  atLineStart true {| prev := b; rest := c :: t; pos := 0; caps := [] |} = true ->
  (isWordChar c || isWhiteSpace c) = true ->
  matchAt jobRe b (c :: t) <> None.
Proof.
  intros Hl Hc. unfold matchAt. destruct jobRe_pattern as (company & ->).
  cbn [ignoreCase multiline jobRe]. unfold plus, opt.
  rewrite !m_Seq, m_LineStart, Hl, m_Group.
  eapply m_plus_class_total.
  - reflexivity.
  - now rewrite class_word_or_space.
  - intros y. apply m_optional_total. discriminate.
Qed.

Lemma jobRe_syntax_again :
  pattern jobRe =
  Seq (Seq LineStart (Group 1 (plus (Class false [CsWord true; CsSpace true]))))
      (opt (Seq (Seq (Seq (plus SPACE)
                          (Alt (Seq (Chr 97%Z) (Chr 116%Z))
                               (Alt (Chr 64%Z) (Chr 124%Z))))
                     (plus SPACE))
                (Group 2 (plus (Class false [CsWord true; CsSpace true;
                                             CsChar 38%Z]))))).
Proof. reflexivity. Qed.

Lemma Forall_positionChar (ok : char16 -> bool) w :
  (forall c, ok c = true -> positionChar c = true) ->
  Forall (fun c => ok c = true) w -> Forall (fun c => positionChar c = true) w.
Proof. intros H F. eapply Forall_impl; [|exact F]. exact H. Qed.

Lemma space_positionChar c :
  class_mem false false [CsSpace true] c = true -> positionChar c = true.
Proof.
  intros H. apply (class_space false) in H. unfold positionChar.
  now rewrite H, orb_true_r.
Qed.

Lemma word_positionChar c :
  class_mem false false [CsWord true; CsSpace true] c = true ->
  positionChar c = true.
Proof.
  rewrite class_word_or_space. intros H. unfold positionChar. now rewrite H.
Qed.

Lemma company_positionChar c :
  class_mem false false [CsWord true; CsSpace true; CsChar 38%Z] c = true ->
  positionChar c = true.
Proof.
  unfold class_mem, positionChar. cbn [existsb cset_mem canonicalize andb xorb].
  rewrite (Z.eqb_sym 38 c).
  destruct (isWordChar c); [intros _; reflexivity|].
  destruct (isWhiteSpace c); [intros _; reflexivity|].
  destruct (c =? 38)%Z; [intros _; simpl; now rewrite !orb_true_r | discriminate].
Qed.

(** A match of the job expression is made of word characters, white
    space, "@", "|" and "&". *)
Lemma jobRe_shape b w t :
  lang false true (pattern jobRe) b w t ->
  Forall (fun c => positionChar c = true) w.
Proof.
  rewrite jobRe_syntax_again. unfold opt at 1. cbn [lang]. fold (lang false true).
  intros (w1 & w2 & -> & (e & job & -> & (-> & _) & Hj) & Hc).
  apply lang_repeat_class in Hj. destruct Hj as (_ & _ & Fj).
  apply Forall_app. split.
  - simpl. eapply Forall_positionChar; [|exact Fj]. apply word_positionChar.
  - destruct Hc as (extra & Hx & Hit). destruct extra as [|[|extra]]; [| |lia].
    + simpl in Hit. subst w2. constructor.
    + destruct Hit as (w3 & w4 & -> & H3 & ->). rewrite app_nil_r.
      cbn [lang] in H3. fold (lang false true) in H3.
      destruct H3 as (w5 & g2 & -> & (w6 & sp2 & -> & (sp1 & alt & -> & Hs1 & Ha)
                                     & Hs2) & Hg).
      apply lang_repeat_class in Hs1, Hs2, Hg.
      destruct Hs1 as (_ & _ & F1), Hs2 as (_ & _ & F2), Hg as (_ & _ & Fg).
      repeat (apply Forall_app; split).
      * eapply Forall_positionChar; [|exact F1]. apply space_positionChar.
      * destruct Ha as [(a & t' & -> & (c1 & -> & H1) & (c2 & -> & H2))
                       | [(c1 & -> & H1) | (c1 & -> & H1)]];
          cbn [canonicalize andb] in *;
          repeat match goal with
                 | H : (_ =? _)%Z = true |- _ => apply Z.eqb_eq in H; subst
                 end;
          repeat constructor.
      * eapply Forall_positionChar; [|exact F2]. apply space_positionChar.
      * eapply Forall_positionChar; [|exact Fg]. apply company_positionChar.
Qed.

Lemma String_match_first re text s :
  matchAt re None text = Some s ->
  String_match text re = Some (resultOf re 0 text s).
Proof.
  intros H. unfold String_match, exec. cbn [Nat.ltb Nat.leb charBefore skipn].
  now apply search_here.
Qed.

Lemma lastPosition_of_record maxArguments text r :
  parseResumeText maxArguments text = Some (Return r) ->
  lastPositionOf text = Return (lastPosition r).
Proof.
  intros H.
  destruct (parseResumeText_returned maxArguments text r H)
    as (_ & n & degrees & found & lp & _ & _ & _ & Hl & ->).
  exact Hl.
Qed.

End SectionFacts.
Import SectionFacts.

(** X7. When the captured experience section begins with a word character
    or with white space, the job expression matches at its very start and
    [lastPosition] is that match, trimmed: a run of word characters and white
    space from the first code unit of the section on (with "@", "|" and "&"
    when a company part follows); the list of known titles is not
    consulted. *)
Theorem X7_last_position_from_section_start
  (maxArguments : positive)
  (text : jsstring) (r : PartialResume) (found : MatchResult)
  (c : char16) (section : jsstring) :
  parseResumeText maxArguments text = Some (Return r) ->
  String_match text experienceSectionRe = Some found ->
  group found 1 = Some (c :: section) ->
  (isWordChar c || isWhiteSpace c) = true ->
  exists jobMatch more after,
    String_match (c :: section) jobRe = Some jobMatch /\
    index jobMatch = 0 /\
    matched jobMatch = c :: more /\
    c :: section = matched jobMatch ++ after /\
    Forall (fun x => positionChar x = true) (matched jobMatch) /\
    lastPosition r = Some (trim (matched jobMatch)).
Proof.
  intros Hr Hf Hg Hc.
  destruct (matchAt jobRe None (c :: section)) as [s|] eqn:Em;
    [|exfalso; revert Em; now apply jobRe_first_attempt].
  pose proof (String_match_first _ _ _ Em) as Hm.
  pose proof (matchAt_bounds _ _ _ _ Em) as Hb.
  rewrite jobRe_syntax_again in Hb. cbn [minLen plus opt Nat.add Nat.mul] in Hb.
  destruct (String_match_sound _ _ _ Hm) as (pre & suf & E & Hi & _ & L & _).
  cbn [index resultOf] in Hi. destruct pre; [|discriminate Hi].
  exists (resultOf jobRe 0 (c :: section) s).
  exists (firstn (pos s - 1) section), (skipn (pos s) (c :: section)).
  split; [exact Hm|]. split; [reflexivity|]. cbn [matched resultOf].
  split; [|split; [|split]].
  - destruct (pos s) as [|n]; [lia|]. cbn [firstn]. do 2 f_equal. lia.
  - now rewrite firstn_skipn.
  - eapply jobRe_shape. exact L.
  - apply lastPosition_of_record in Hr. unfold lastPositionOf in Hr.
    rewrite Hf, Hg in Hr. cbn [truthy] in Hr. rewrite Hm in Hr.
    now injection Hr as <-.
Qed.

(** An experience section of two lines, the second of which begins with a
    digit: the match runs over the line break. *)
Lemma X7_witness :
  exists r jobMatch more after,
    parseResumeText engineLimit
      (lit "Experience:" ++ LF ++ lit "Data Scientist at Initech"
       ++ LF ++ lit "2019 to 2023" ++ LF ++ LF)
    = Some (Return r) /\
    String_match (lit "Data Scientist at Initech" ++ LF ++ lit "2019 to 2023") jobRe
    = Some jobMatch /\
    index jobMatch = 0 /\
    matched jobMatch = 68%Z :: more /\
    lit "Data Scientist at Initech" ++ LF ++ lit "2019 to 2023"
    = matched jobMatch ++ after /\
    Forall (fun x => positionChar x = true) (matched jobMatch) /\
    lastPosition r = Some (trim (matched jobMatch)).
Proof.
  eexists.
  refine ((fun H => match H with
                    | ex_intro _ jm (ex_intro _ more (ex_intro _ after P)) =>
                        ex_intro _ jm (ex_intro _ more (ex_intro _ after (conj _ P)))
                    end)
            (X7_last_position_from_section_start engineLimit
               (lit "Experience:" ++ LF ++ lit "Data Scientist at Initech"
                ++ LF ++ lit "2019 to 2023" ++ LF ++ LF)
               _ _ 68%Z (lit "ata Scientist at Initech" ++ LF ++ lit "2019 to 2023")
               _ _ _ _)); vm_compute; reflexivity.
Defined.

(* ================================================================== *)
(** * The tokens of the skills block                                  *)
(* ================================================================== *)

Module SplitFacts.

Lemma trimStart_incl c : forall s, In c (trimStart s) -> In c s.
Proof.
  induction s as [|a s IH]; [auto|]. simpl.
  destruct (isWhiteSpace a); [intros H; right; now apply IH | auto].
Qed.

Lemma trim_incl c s : In c (trim s) -> In c s.
Proof.
  unfold trim, trimEnd. intros H. apply in_rev in H.
  apply trimStart_incl in H. apply in_rev in H. now apply trimStart_incl.
Qed.

Lemma trimStart_split : forall s, exists ws, s = ws ++ trimStart s.
Proof.
  induction s as [|a s (ws & IH)]; [now exists []|]. simpl.
  destruct (isWhiteSpace a).
  - exists (a :: ws). simpl. now rewrite <- IH.
  - now exists [].
Qed.

Lemma trimStart_head : forall s,
  match trimStart s with
  | [] => True
  | c :: _ => isWhiteSpace c = false
  end.
Proof.
  induction s as [|a s IH]; [exact I|]. simpl.
  destruct (isWhiteSpace a) eqn:E; [exact IH | exact E].
Qed.

(** A trimmed string has no white space left at either end. *)
Lemma trim_idempotent s : trim (trim s) = trim s.
Proof.
  change (trim s) with (rev (trimStart (rev (trimStart s)))).
  pose proof (trimStart_head s) as Hu.
  pose proof (trimStart_head (rev (trimStart s))) as Hv.
  destruct (trimStart_split (rev (trimStart s))) as (ws & Es).
  destruct (trimStart (rev (trimStart s))) as [|c v]; [reflexivity|].
  apply (f_equal (@rev char16)) in Es. rewrite rev_involutive, rev_app_distr in Es.
  apply trim_unchanged.
  - destruct (rev (c :: v)) as [|d r'] eqn:Er.
    + apply (f_equal (@List.length char16)) in Er. rewrite length_rev in Er.
      discriminate Er.
    + exists d, r'. split; [reflexivity|]. rewrite Es in Hu. exact Hu.
  - exists c, (rev v). split; [reflexivity | exact Hv].
Qed.

Lemma skillSeparatorRe_pattern :
  pattern skillSeparatorRe =
  Repeat (Class false [CsChar 44%Z; CsChar 226%Z; CsChar 8364%Z; CsChar 162%Z;
                       CsChar 10%Z]) 1 None true.
Proof. reflexivity. Qed.

Lemma class_separator_char c :
  class_mem false false [CsChar 44%Z; CsChar 226%Z; CsChar 8364%Z; CsChar 162%Z;
                         CsChar 10%Z] c = separatorChar c.
Proof.
  unfold class_mem, separatorChar. cbn [existsb cset_mem canonicalize andb xorb].
  now rewrite !(Z.eqb_sym c).
Qed.

(** At a separator character the separator expression matches. *)
Lemma separator_attempt b c t :
  separatorChar c = true -> matchAt skillSeparatorRe b (c :: t) <> None.
Proof.
  intros Hc. unfold matchAt. rewrite skillSeparatorRe_pattern.
  cbn [ignoreCase multiline skillSeparatorRe].
  eapply m_plus_class_total.
  - reflexivity.
  - now rewrite class_separator_char.
  - discriminate.
Qed.

(** The pieces of a split hold no code unit at which the separator
    matches. *)
Lemma splitLoop_clean re (sep : char16 -> bool) :
  0 < minLen (pattern re) ->
  (forall b c t, sep c = true -> matchAt re b (c :: t) <> None) ->
  forall subject b piece skip,
    Forall (fun c => sep c = false) piece ->
    Forall (Forall (fun c => sep c = false)) (splitLoop re b subject piece skip).
Proof.
  intros Hlen Hsep. induction subject as [|c t IH]; intros b piece skip Hp.
  - simpl. constructor; [|constructor]. now apply Forall_rev.
  - simpl. destruct skip as [|n]; [|now apply IH].
    destruct (matchAt re b (c :: t)) as [s|] eqn:Em.
    + pose proof (matchAt_bounds _ _ _ _ Em) as Hb.
      destruct (pos s) as [|n]; [lia|].
      constructor; [now apply Forall_rev | apply IH; constructor].
    + apply IH. constructor; [|exact Hp].
      destruct (sep c) eqn:Ec; [|reflexivity].
      exfalso. exact (Hsep b c t Ec Em).
Qed.

Lemma split_clean re (sep : char16 -> bool) text :
  0 < minLen (pattern re) ->
  (forall b c t, sep c = true -> matchAt re b (c :: t) <> None) ->
  Forall (Forall (fun c => sep c = false)) (split text re).
Proof.
  intros Hlen Hsep. unfold split. destruct text as [|c t].
  - destruct (matchAt re None []); repeat constructor.
  - apply splitLoop_clean; [exact Hlen | exact Hsep | constructor].
Qed.

Lemma additionalSkills_clean body token :
  In token (additionalSkills body) ->
  2 < List.length token < 30 /\ trim token = token /\
  Forall (fun c => separatorChar c = false) token.
Proof.
  unfold additionalSkills. intros H. apply filter_In in H.
  destruct H as [H Hl]. apply in_map_iff in H. destruct H as (p & <- & Hp).
  apply andb_true_iff in Hl. destruct Hl as [H2 H30].
  apply Nat.ltb_lt in H2, H30. split; [lia|].
  split; [apply trim_idempotent|].
  pose proof (split_clean skillSeparatorRe separatorChar body) as Hc.
  rewrite Forall_forall in Hc.
  specialize (Hc (ltac:(rewrite skillSeparatorRe_pattern; simpl; lia))
                 separator_attempt p Hp).
  rewrite Forall_forall in Hc |- *. intros c Hin. apply Hc.
  now apply trim_incl.
Qed.

Lemma sectionSkills_clean str token :
  In token (sectionSkills str) ->
  2 < List.length token < 30 /\ trim token = token /\
  Forall (fun c => separatorChar c = false) token.
Proof.
  unfold sectionSkills.
  destruct (String_match str skillsSectionRe) as [sec|]; [|contradiction].
  destruct (group sec 1) as [body|]; [|contradiction].
  destruct (truthy body); [|contradiction].
  apply additionalSkills_clean.
Qed.

End SplitFacts.
Import SplitFacts.

(** X8. Every skill taken from the "Skills" section of a text has between
    3 and 29 code units, no white space at either end, and holds none of the
    code units the block is split at: no comma, no line feed, and none of
    U+00E2, U+20AC and U+00A2. *)
Theorem X8_section_skills_are_clean_tokens (text token : jsstring) :
  In token (sectionSkills text) ->
  2 < List.length token < 30 /\ trim token = token /\
  Forall (fun c => separatorChar c = false) token.
Proof. apply sectionSkills_clean. Qed.

Lemma X8_witness :
  2 < List.length (lit "Public Speaking") < 30 /\
  trim (lit "Public Speaking") = lit "Public Speaking" /\
  Forall (fun c => separatorChar c = false) (lit "Public Speaking").
Proof.
  apply (X8_section_skills_are_clean_tokens
           (lit "Skills: Excel, Public Speaking ,R" ++ LF ++ LF)).
  vm_compute. auto.
Defined.

(* ================================================================== *)
(** * Where the section captures stop                                 *)
(* ================================================================== *)

Module LazyFacts.

(** A lazy run of single code units stops at the first state its
    continuation accepts. *)
Lemma lazy_shortest ok gs (k : cont) (stops : jsstring -> Prop) :
  (forall y, stops (rest y) -> k y <> None) ->
  forall room left x z,
    optionalReps (fun x d => step ok (resetCaps gs x) d) false k room left x = Some z ->
    exists y w,
      consumed x y w /\ k y = Some z /\
      forall a b, w = a ++ b -> b <> [] -> ~ stops (b ++ rest y).
Proof.
  intros Hk. induction room as [|room IH]; intros left x z H.
  - simpl in H. destruct (k x) as [z'|] eqn:Ek; [|discriminate H].
    injection H as ->. exists x, []. split; [apply consumed_refl|].
    split; [exact Ek|]. intros a b E Hb. now destruct a, b.
  - simpl in H. destruct (k x) as [z'|] eqn:Ek.
    + injection H as ->. exists x, []. split; [apply consumed_refl|].
      split; [exact Ek|]. intros a b E Hb. now destruct a, b.
    + assert (Hs : step ok (resetCaps gs x)
                     (fun y => if Nat.ltb (pos x) (pos y)
                               then optionalReps (fun x d => step ok (resetCaps gs x) d)
                                      false k room (option_map Nat.pred left) y
                               else None) = Some z).
      { destruct left as [[|n]|]; [discriminate H | exact H | exact H]. }
      clear H. apply step_inv in Hs. destruct Hs as (c & t & Hr & _ & Hd).
      cbn [resetCaps rest pos caps] in Hr, Hd.
      assert (Hlt : Nat.ltb (pos x) (S (pos x)) = true) by (apply Nat.ltb_lt; lia).
      cbn [pos] in Hd. rewrite Hlt in Hd.
      apply IH in Hd. destruct Hd as (y & w & (Hy1 & Hy2 & Hy3) & Hky & Hmin).
      cbn [rest prev pos] in Hy1, Hy2, Hy3.
      exists y, (c :: w). split; [|split; [exact Hky|]].
      * split; [|split].
        -- rewrite Hr, Hy1. reflexivity.
        -- rewrite Hy2. reflexivity.
        -- rewrite Hy3. simpl. lia.
      * intros a b E Hb Hst. destruct a as [|a0 a].
        -- simpl in E. subst b. apply (Hk x); [|exact Ek].
           rewrite Hr, Hy1. exact Hst.
        -- simpl in E. injection E as _ E. exact (Hmin a b E Hb Hst).
Qed.

Lemma canonicalize_lf (a : char16) :
  Z.eqb (canonicalize true 10%Z) (canonicalize true a) = Z.eqb a 10%Z.
Proof.
  change (canonicalize true 10%Z) with 10%Z.
  unfold canonicalize, isLower, between. cbn [andb].
  destruct (Z.leb_spec 97 a), (Z.leb_spec a 122); cbn [andb];
    destruct (Z.eqb_spec a 10%Z); try lia;
    try (apply Z.eqb_eq; lia); apply Z.eqb_neq; lia.
Qed.

Lemma class_letter_ignoring_case c :
  class_mem true false [CsRange 65%Z 90%Z] c = asciiLetter c.
Proof.
  unfold class_mem, asciiLetter. cbn [existsb cset_mem andb xorb].
  rewrite orb_false_r. unfold swapCase, isLower, isUpper, between.
  destruct (Z.leb_spec 97%Z c), (Z.leb_spec c 122%Z), (Z.leb_spec 65%Z c),
    (Z.leb_spec c 90%Z); cbn [andb orb]; try lia; try reflexivity;
    repeat match goal with
           | |- context [Z.leb ?x ?y] => destruct (Z.leb_spec x y); try lia
           end; reflexivity.
Qed.

(** The end of a section matches exactly where [sectionEnd] holds. *)
Lemma sectionEndRe_matches y :
  (m true false sectionEndRe y (fun z => Some z) <> None)
  <-> sectionEnd (rest y) = true.
Proof.
  unfold sectionEndRe. cbn [m]. unfold step. unfold sectionEnd.
  destruct (rest y) as [|a [|c t]]; cbn [rest].
  - split; [intros H; now contradiction H | discriminate].
  - rewrite canonicalize_lf. destruct (Z.eqb a 10%Z); cbn [rest];
      (split; [intros H; now contradiction H | discriminate]).
  - rewrite !canonicalize_lf, class_letter_ignoring_case.
    destruct (Z.eqb a 10%Z); cbn [rest andb];
      [|split; [intros H; now contradiction H | discriminate]].
    destruct (Z.eqb c 10%Z); cbn [orb]; [split; [reflexivity | discriminate]|].
    destruct (asciiLetter c);
      split; try reflexivity; try discriminate; intros H; now contradiction H.
Qed.

Lemma section_attempt re heading b subject s :
  pattern re = sectionRe heading ->
  ignoreCase re = true -> multiline re = false ->
  matchAt re b subject = Some s ->
  exists head body suf,
    subject = head ++ body ++ suf /\
    lookupCap (caps s) 1 = Some body /\
    endsAtFirstBreak body suf.
Proof.
  intros Hp Hic Hml Hm. unfold matchAt in Hm. rewrite Hp, Hic, Hml in Hm.
  unfold sectionRe in Hm. rewrite !m_Seq in Hm.
  apply m_sound in Hm. destruct Hm as (y & head & Hd & (Hh & _ & _) & _).
  cbn [rest] in Hh. rewrite m_Group in Hd.
  cbn [m requiredReps groupsOf option_map] in Hd.
  apply (lazy_shortest _ _ _ (fun r => sectionEnd r = true)) in Hd;
    [|intros yy Hyy; now apply sectionEndRe_matches].
  destruct Hd as (y2 & body & (Hb1 & _ & Hb3) & Hk & Hmin).
  exists head, body, (rest y2). split; [now rewrite Hh, Hb1|]. split.
  - apply m_inv in Hk. destruct Hk as (y3 & Hy3 & _ & Hkeep).
    injection Hy3 as ->. apply Hkeep; [simpl; tauto|].
    cbn [capture caps lookupCap Nat.eqb]. f_equal.
    rewrite Hb1, Hb3.
    replace (pos y + List.length body - pos y) with (List.length body + 0) by lia.
    now rewrite firstn_app_2, app_nil_r.
  - split.
    + change (rest y2) with (rest (capture 1 y y2)).
      apply sectionEndRe_matches. rewrite Hk. discriminate.
    + intros a b' E Hne. apply not_true_is_false. now apply (Hmin a b').
Qed.

Lemma sections_are_sectionRe :
  (exists heading, pattern skillsSectionRe = sectionRe heading) /\
  (exists heading, pattern experienceSectionRe = sectionRe heading).
Proof. split; eexists; reflexivity. Qed.

Lemma section_match re heading text found body :
  pattern re = sectionRe heading ->
  ignoreCase re = true -> multiline re = false -> nGroups re = 1 ->
  String_match text re = Some found ->
  group found 1 = Some body ->
  exists pre suf, text = pre ++ body ++ suf /\ endsAtFirstBreak body suf.
Proof.
  intros Hp Hic Hml Hn Hm Hg. apply String_match_leftmost in Hm.
  destruct Hm as (_ & s & Hs & Er).
  destruct (section_attempt _ _ _ _ _ Hp Hic Hml Hs)
    as (head & body' & suf & E & Hc & He).
  rewrite Er in Hg. unfold group, resultOf in Hg. cbn [groups] in Hg.
  rewrite Hn in Hg.
  cbn [seq List.map Nat.sub nth] in Hg. rewrite Hc in Hg. injection Hg as ->.
  exists (firstn (index found) text ++ head), suf. split; [|exact He].
  rewrite <- app_assoc, <- E. now rewrite firstn_skipn.
Qed.

End LazyFacts.
Import LazyFacts.

(** X9. The body captured for the "Skills" section, and likewise for the
    "Experience" section, is a stretch of the text that stops at the first
    place where a blank line or a line beginning with an ASCII letter of
    either case follows: such a break follows the body and none begins inside
    it. *)
Theorem X9_section_stops_at_first_break
  (re : RegExp) (text body : jsstring) (found : MatchResult) :
  re = skillsSectionRe \/ re = experienceSectionRe ->
  String_match text re = Some found ->
  group found 1 = Some body ->
  exists pre suf, text = pre ++ body ++ suf /\ endsAtFirstBreak body suf.
Proof.
  intros Hre Hm Hg.
  destruct sections_are_sectionRe as ((h1 & H1) & (h2 & H2)).
  destruct Hre as [-> | ->].
  - exact (section_match _ h1 _ _ _ H1 eq_refl eq_refl eq_refl Hm Hg).
  - exact (section_match _ h2 _ _ _ H2 eq_refl eq_refl eq_refl Hm Hg).
Qed.

(** A skills block of two lines: the second line begins with a letter, so
    the body is the first line only. *)
Lemma X9_witness :
  exists pre suf,
    lit "Skills:" ++ LF ++ lit "Excel, Word" ++ LF ++ lit "python, R" ++ LF ++ LF
    = pre ++ lit "Excel, Word" ++ suf /\
    endsAtFirstBreak (lit "Excel, Word") suf.
Proof.
  eapply (X9_section_stops_at_first_break skillsSectionRe).
  - left. reflexivity.
  - vm_compute. reflexivity.
  - vm_compute. reflexivity.
Defined.

(* ================================================================== *)
(** * The job search: requests, retries and pages                     *)
(* ================================================================== *)

Module RetryFacts.
Import Builtins JobSearch.

Section Retry.

Variable fetch : jsstring -> nat -> promise Response.

Lemma attempts_round url maxRetries remaining attempt lastError :
  attempts fetch url maxRetries (S remaining) attempt lastError =
  match answered fetch url attempt with
  | Some response => ([Fetch url], Fulfilled response)
  | None =>
      (Fetch url :: pauses fetch url maxRetries attempt
         ++ fst (attempts fetch url maxRetries remaining (S attempt)
                   (lastErrorOf fetch url attempt)),
       snd (attempts fetch url maxRetries remaining (S attempt)
              (lastErrorOf fetch url attempt)))
  end.
Proof.
  cbn [attempts]. unfold answered, lastErrorOf, pauses, rateLimited.
  destruct (fetch url attempt) as [response|reason].
  - destruct (ok response); [reflexivity|].
    destruct (text response) as [errorText|reason].
    + destruct (attempts fetch url maxRetries remaining (S attempt) _).
      cbn [fst snd]. now rewrite <- app_assoc.
    + destruct (attempts fetch url maxRetries remaining (S attempt) _).
      reflexivity.
  - destruct (attempts fetch url maxRetries remaining (S attempt) _).
    reflexivity.
Qed.

Lemma requests_app a b : requests (a ++ b) = requests a ++ requests b.
Proof. unfold requests. apply flat_map_app. Qed.

Lemma waits_app a b : waits (a ++ b) = waits a ++ waits b.
Proof. unfold waits. apply flat_map_app. Qed.

Lemma flat_map_agree {A B} (f g : A -> list B) l :
  (forall x, In x l -> f x = g x) -> flat_map f l = flat_map g l.
Proof.
  induction l as [|x l IH]; intros H; [reflexivity|]. cbn [flat_map].
  rewrite (H x) by now left. rewrite IH; [reflexivity|].
  intros y Hy. apply H. now right.
Qed.

Lemma waits_flat_map {A} (f : A -> list event) l :
  waits (flat_map f l) = flat_map (fun j => waits (f j)) l.
Proof.
  induction l as [|x l IH]; [reflexivity|]. cbn [flat_map].
  now rewrite waits_app, IH.
Qed.

Lemma requests_pauses url maxRetries attempt :
  requests (pauses fetch url maxRetries attempt) = [].
Proof.
  unfold pauses.
  destruct (rateLimited fetch url attempt), (_ <? _)%Z; reflexivity.
Qed.

(** Rounds that all fail. *)
Lemma attempts_all_fail url maxRetries : forall remaining attempt lastError,
  (forall j, attempt <= j < attempt + remaining -> answered fetch url j = None) ->
  snd (attempts fetch url maxRetries remaining attempt lastError)
  = Rejected (match remaining with
              | O => lastError
              | S n => lastErrorOf fetch url (attempt + n)
              end) /\
  requests (fst (attempts fetch url maxRetries remaining attempt lastError))
  = repeat url remaining /\
  waits (fst (attempts fetch url maxRetries remaining attempt lastError))
  = waits (flat_map (pauses fetch url maxRetries) (seq attempt remaining)).
Proof.
  induction remaining as [|remaining IH]; intros attempt lastError Hf.
  - repeat split.
  - rewrite attempts_round. rewrite (Hf attempt) by lia. cbn [fst snd].
    destruct (IH (S attempt) (lastErrorOf fetch url attempt)) as (Hs & Hr & Hw).
    { intros j Hj. apply Hf. lia. }
    split; [|split].
    + rewrite Hs. destruct remaining as [|n]; [now rewrite Nat.add_0_r|].
      do 2 f_equal. lia.
    + cbn [requests flat_map app]. fold (requests (pauses fetch url maxRetries attempt
         ++ fst (attempts fetch url maxRetries remaining (S attempt)
                   (lastErrorOf fetch url attempt)))).
      rewrite requests_app, requests_pauses, Hr. reflexivity.
    + cbn [waits flat_map seq app].
      fold (waits (pauses fetch url maxRetries attempt
         ++ fst (attempts fetch url maxRetries remaining (S attempt)
                   (lastErrorOf fetch url attempt)))).
      fold (waits (pauses fetch url maxRetries attempt
         ++ flat_map (pauses fetch url maxRetries) (seq (S attempt) remaining))).
      now rewrite !waits_app, Hw.
Qed.

(** Rounds the [k]-th of which is the first to be answered. *)
Lemma attempts_first_ok url maxRetries response :
  forall remaining attempt lastError k,
  k < remaining ->
  (forall j, attempt <= j < attempt + k -> answered fetch url j = None) ->
  answered fetch url (attempt + k) = Some response ->
  snd (attempts fetch url maxRetries remaining attempt lastError)
  = Fulfilled response /\
  requests (fst (attempts fetch url maxRetries remaining attempt lastError))
  = repeat url (S k) /\
  waits (fst (attempts fetch url maxRetries remaining attempt lastError))
  = waits (flat_map (pauses fetch url maxRetries) (seq attempt k)).
Proof.
  induction remaining as [|remaining IH]; intros attempt lastError k Hk Hf Ha;
    [lia|].
  rewrite attempts_round. destruct k as [|k].
  - rewrite Nat.add_0_r in Ha. rewrite Ha. repeat split.
  - rewrite (Hf attempt) by lia. cbn [fst snd].
    destruct (IH (S attempt) (lastErrorOf fetch url attempt) k) as (Hs & Hr & Hw).
    { lia. }
    { intros j Hj. apply Hf. lia. }
    { rewrite <- Ha. f_equal. lia. }
    split; [exact Hs|]. split.
    + cbn [requests flat_map app]. fold (requests (pauses fetch url maxRetries attempt
         ++ fst (attempts fetch url maxRetries remaining (S attempt)
                   (lastErrorOf fetch url attempt)))).
      rewrite requests_app, requests_pauses, Hr. reflexivity.
    + cbn [waits flat_map seq app].
      fold (waits (pauses fetch url maxRetries attempt
         ++ fst (attempts fetch url maxRetries remaining (S attempt)
                   (lastErrorOf fetch url attempt)))).
      fold (waits (pauses fetch url maxRetries attempt
         ++ flat_map (pauses fetch url maxRetries) (seq (S attempt) k))).
      now rewrite !waits_app, Hw.
Qed.

Lemma delay_bounds attempt : (0 < delay attempt <= 5000)%Z.
Proof.
  unfold delay. assert (0 < 2 ^ Z.of_nat attempt)%Z by (apply Z.pow_pos_nonneg; lia).
  lia.
Qed.

Lemma total_app a b : total (a ++ b) = (total a + total b)%Z.
Proof. unfold total. induction a as [|x a IH]; simpl; [reflexivity | lia]. Qed.

Lemma pauses_bound url maxRetries attempt :
  (0 <= total (waits (pauses fetch url maxRetries attempt))
   <= 2000 * (Z.of_nat attempt + 1)
      + (if (Z.of_nat attempt <? Z.of_nat maxRetries - 1)%Z then delay attempt else 0))%Z.
Proof.
  unfold pauses. pose proof (delay_bounds attempt).
  destruct (rateLimited fetch url attempt), (_ <? _)%Z;
    cbn [waits flat_map app total fold_right]; lia.
Qed.

(** Whatever the network answers, the rounds send at most [remaining]
    requests, all for [url], and stay within the budget of timers. *)
Lemma attempts_bounds url maxRetries : forall remaining attempt lastError,
  (exists n, n <= remaining /\
     requests (fst (attempts fetch url maxRetries remaining attempt lastError))
     = repeat url n) /\
  (0 <= total (waits (fst (attempts fetch url maxRetries remaining attempt lastError)))
   <= budget maxRetries remaining attempt)%Z.
Proof.
  induction remaining as [|remaining IH]; intros attempt lastError.
  - split; [exists 0; split; [lia | reflexivity] | cbn; lia].
  - rewrite attempts_round. cbn [budget].
    destruct (answered fetch url attempt) as [response|].
    + split; [exists 1; split; [lia | reflexivity]|]. cbn [fst waits flat_map total fold_right app].
      pose proof (delay_bounds attempt).
      assert (0 <= budget maxRetries remaining (S attempt))%Z.
      { destruct (IH (S attempt) None) as [_ Hb]. lia. }
      destruct (_ <? _)%Z; lia.
    + cbn [fst].
      destruct (IH (S attempt) (lastErrorOf fetch url attempt)) as ((n & Hn & Hr) & Hb).
      split.
      * exists (S n). split; [lia|].
        change (Fetch url :: ?l) with ([Fetch url] ++ l).
        rewrite !requests_app, requests_pauses, Hr. reflexivity.
      * change (Fetch url :: ?l) with ([Fetch url] ++ l).
        rewrite !waits_app, !total_app.
        pose proof (pauses_bound url maxRetries attempt).
        change (total (waits [Fetch url])) with 0%Z. lia.
Qed.

End Retry.

End RetryFacts.
Import Builtins JobSearch RetryFacts.

(** X10. [fetchWithRetry] returns the first response that is [ok]: when
    request [k], one of the first [maxRetries], is the first to get such a
    response, the call returns it after [k + 1] requests for the same URL,
    and the timers awaited are those of the [k] failed rounds, each followed
    by its back-off. *)
Theorem X10_retry_returns_first_ok_response
  (fetch : jsstring -> nat -> promise Response) (url : jsstring)
  (maxRetries k : nat) (response : Response) :
  k < maxRetries ->
  (forall j, j < k -> answered fetch url j = None) ->
  answered fetch url k = Some response ->
  snd (fetchWithRetry fetch url maxRetries) = Fulfilled response /\
  requests (fst (fetchWithRetry fetch url maxRetries)) = repeat url (S k) /\
  waits (fst (fetchWithRetry fetch url maxRetries))
  = flat_map (fun j => (if rateLimited fetch url j
                        then [2000 * (Z.of_nat j + 1)] else [])
                       ++ [delay j])%Z (seq 0 k).
Proof.
  intros Hk Hf Ha. unfold fetchWithRetry.
  destruct (attempts_first_ok fetch url maxRetries response maxRetries 0 None k Hk)
    as (Hs & Hr & Hw).
  { intros j Hj. apply Hf. lia. }
  { exact Ha. }
  split; [exact Hs|]. split; [exact Hr|]. rewrite Hw.
  rewrite waits_flat_map.
  apply flat_map_agree. intros j Hj. apply in_seq in Hj. unfold pauses.
  assert (Hlt : (Z.of_nat j <? Z.of_nat maxRetries - 1)%Z = true)
    by (apply Z.ltb_lt; lia).
  rewrite Hlt. now destruct (rateLimited fetch url j).
Qed.

Lemma X10_witness :
  snd (fetchWithRetry resetThenOk (lit "https://serpapi.com/search") 3)
  = Fulfilled okResponse /\
  requests (fst (fetchWithRetry resetThenOk (lit "https://serpapi.com/search") 3))
  = [lit "https://serpapi.com/search"; lit "https://serpapi.com/search"] /\
  waits (fst (fetchWithRetry resetThenOk (lit "https://serpapi.com/search") 3))
  = [1000%Z].
Proof.
  apply (X10_retry_returns_first_ok_response resetThenOk
           (lit "https://serpapi.com/search") 3 1 okResponse).
  - lia.
  - intros j Hj. assert (j = 0) as -> by lia. reflexivity.
  - reflexivity.
Defined.

(** X11. When none of the [maxRetries] requests gets a response that is
    [ok], [fetchWithRetry] throws what the last round left in [lastError]
    ([undefined] when there was no round), after [maxRetries] requests for
    the same URL.  Each round that met a 429 with a readable body awaits
    2000 ms times its number, and each round but the last awaits its
    back-off: the last round is followed by no back-off, but still by the
    timer of a 429. *)
Theorem X11_retry_gives_up_with_last_error
  (fetch : jsstring -> nat -> promise Response) (url : jsstring)
  (maxRetries : nat) :
  (forall j, j < maxRetries -> answered fetch url j = None) ->
  snd (fetchWithRetry fetch url maxRetries)
  = Rejected (match maxRetries with
              | O => None
              | S n => lastErrorOf fetch url n
              end) /\
  requests (fst (fetchWithRetry fetch url maxRetries)) = repeat url maxRetries /\
  waits (fst (fetchWithRetry fetch url maxRetries))
  = flat_map (fun j => (if rateLimited fetch url j
                        then [2000 * (Z.of_nat j + 1)] else [])
                       ++ (if Nat.ltb (S j) maxRetries then [delay j] else []))%Z
             (seq 0 maxRetries).
Proof.
  intros Hf. unfold fetchWithRetry.
  destruct (attempts_all_fail fetch url maxRetries maxRetries 0 None)
    as (Hs & Hr & Hw).
  { intros j Hj. apply Hf. lia. }
  split; [exact Hs|]. split; [exact Hr|]. rewrite Hw, waits_flat_map.
  apply flat_map_agree. intros j Hj. unfold pauses.
  replace (Z.of_nat j <? Z.of_nat maxRetries - 1)%Z with (Nat.ltb (S j) maxRetries).
  - now destruct (rateLimited fetch url j), (Nat.ltb (S j) maxRetries).
  - destruct (Nat.ltb_spec (S j) maxRetries); symmetry;
      [apply Z.ltb_lt | apply Z.ltb_ge]; lia.
Qed.

Lemma X11_witness :
  snd (fetchWithRetry alwaysBusy (lit "https://serpapi.com/search") 3)
  = Rejected (Some (Error (lit "SerpAPI request failed with status: 429. slow down"))) /\
  requests (fst (fetchWithRetry alwaysBusy (lit "https://serpapi.com/search") 3))
  = repeat (lit "https://serpapi.com/search") 3 /\
  waits (fst (fetchWithRetry alwaysBusy (lit "https://serpapi.com/search") 3))
  = [2000; 1000; 4000; 2000; 6000]%Z.
Proof.
  apply (X11_retry_gives_up_with_last_error alwaysBusy
           (lit "https://serpapi.com/search") 3).
  intros j Hj. reflexivity.
Defined.

(** X12. Whatever the network answers and whatever is searched for,
    [searchJobs] sends at most three requests, all for one URL, and the
    timers it awaits add up to 15 seconds at most. *)
Theorem X12_search_requests_and_waiting_are_bounded
  (SERPAPI_KEY : option jsstring)
  (fetch : jsstring -> nat -> promise Response)
  (encodeURIComponent : jsstring -> completion jsstring)
  (uuidv4 : nat -> jsstring) (toLowerCase : jsstring -> jsstring)
  (params : Params.JobSearchParams) :
  exists url n,
    n <= 3 /\
    requests (fst (searchJobs SERPAPI_KEY fetch encodeURIComponent uuidv4
                     toLowerCase params)) = repeat url n /\
    (0 <= total (waits (fst (searchJobs SERPAPI_KEY fetch encodeURIComponent
                               uuidv4 toLowerCase params))) <= 15000)%Z.
Proof.
  unfold searchJobs.
  assert (Hnone : exists (url : jsstring) n,
             n <= 3 /\ requests [] = repeat url n /\
             (0 <= total (waits []) <= 15000)%Z).
  { exists [], 0. split; [lia|]. split; [reflexivity | cbn; lia]. }
  destruct SERPAPI_KEY as [[|c key]|]; [exact Hnone | | exact Hnone].
  destruct (apiUrlOf encodeURIComponent (c :: key) _ _) as [apiUrl|e];
    [|exact Hnone].
  unfold fetchWithRetry.
  destruct (attempts_bounds fetch apiUrl 3 3 0 None) as ((n & Hn & Hr) & Hb).
  destruct (attempts fetch apiUrl 3 3 0 None) as [events fetched].
  cbn [fst] in *. exists apiUrl, n. split; [exact Hn|]. split; [exact Hr|].
  change (budget 3 3 0) with 15000%Z in Hb. exact Hb.
Qed.

Module PagingFacts.

Lemma firstn_add {A} (l : list A) : forall a b,
  firstn (a + b) l = firstn a l ++ firstn b (skipn a l).
Proof.
  induction l as [|x l IH]; intros a b.
  - now rewrite !firstn_nil, skipn_nil, firstn_nil.
  - destruct a as [|a]; [reflexivity|]. simpl. now rewrite IH.
Qed.

(** [array.slice(start, start + limit)] for a start and a limit that are
    not negative. *)
Lemma slice_window {A} (array : list A) (start limit : Z) :
  (0 <= start)%Z -> (0 <= limit)%Z ->
  Array_slice array (Int start) (Int (start + limit))
  = firstn (Z.to_nat limit) (skipn (Z.to_nat start) array).
Proof.
  intros Hs Hl. unfold Array_slice, relative, toInteger.
  destruct (Z.ltb_spec start 0); [lia|].
  destruct (Z.ltb_spec (start + limit) 0); [lia|].
  set (len := Z.of_nat (List.length array)).
  destruct (Z.le_gt_cases len start) as [Hge | Hlt].
  - rewrite !Z.min_r by lia. rewrite Z.sub_diag. cbn [Z.to_nat firstn].
    rewrite (skipn_all2 array (n := Z.to_nat start)) by (unfold len in Hge; lia).
    now rewrite firstn_nil.
  - rewrite (Z.min_l start) by lia.
    destruct (Z.le_gt_cases (start + limit) len) as [Hin | Hout].
    + rewrite Z.min_l by lia. f_equal. lia.
    + rewrite Z.min_r by lia.
      rewrite !firstn_all2; [reflexivity | |];
        rewrite length_skipn; unfold len in *; lia.
Qed.

(** What [slice] returns is a stretch of the array. *)
Lemma slice_stretch {A} (array : list A) (start finish : number) :
  exists a b, array = a ++ Array_slice array start finish ++ b.
Proof.
  unfold Array_slice.
  match goal with
  | |- context [firstn ?n (skipn ?k array)] =>
      exists (firstn k array), (skipn n (skipn k array))
  end.
  now rewrite !firstn_skipn.
Qed.

Lemma page_window (filteredJobs : list Job) (page limit : nat) :
  1 <= page ->
  jobs (paginate filteredJobs (Int (Z.of_nat page)) (Int (Z.of_nat limit)))
  = firstn limit (skipn ((page - 1) * limit) filteredJobs).
Proof.
  intros Hp. unfold paginate. cbn [jobs arith].
  replace (Z.of_nat page - 1)%Z with (Z.of_nat (page - 1)) by lia.
  rewrite <- Nat2Z.inj_mul, slice_window by apply Nat2Z.is_nonneg.
  now rewrite !Nat2Z.id.
Qed.

Lemma windows_cover {A} (l : list A) (limit : nat) : forall pages,
  flat_map (fun p => firstn limit (skipn (p * limit) l)) (seq 0 pages)
  = firstn (pages * limit) l.
Proof.
  induction pages as [|pages IH]; [reflexivity|].
  rewrite seq_S, flat_map_app, IH. cbn [flat_map Nat.add].
  rewrite app_nil_r.
  replace (S pages * limit) with (pages * limit + limit) by lia.
  now rewrite firstn_add.
Qed.

Lemma pages_cover (filteredJobs : list Job) (limit pages : nat) :
  flat_map (fun page =>
              jobs (paginate filteredJobs (Int (Z.of_nat page)) (Int (Z.of_nat limit))))
           (seq 1 pages)
  = firstn (pages * limit) filteredJobs.
Proof.
  rewrite <- windows_cover, <- seq_shift, flat_map_concat_map, map_map,
    <- flat_map_concat_map.
  apply flat_map_agree. intros p _. rewrite page_window by lia.
  do 2 f_equal. lia.
Qed.

End PagingFacts.
Import PagingFacts.

(** X13. With a positive limit, the pages of [searchJobs] cut the filtered
    jobs into consecutive stretches of [limit] jobs: page [p] holds the jobs
    from index [(p - 1) * limit] on, the pages 1 to [n] put one after the
    other give the filtered jobs again as soon as [n * limit] reaches their
    number, any later page is empty, and [totalResults] is that number on
    every page. *)
Theorem X13_pages_partition_the_filtered_jobs
  (filteredJobs : list Job) (limit : nat) :
  0 < limit ->
  (forall page, 1 <= page ->
     jobs (paginate filteredJobs (Int (Z.of_nat page)) (Int (Z.of_nat limit)))
     = firstn limit (skipn ((page - 1) * limit) filteredJobs)) /\
  (forall pages, List.length filteredJobs <= pages * limit ->
     flat_map (fun page =>
                 jobs (paginate filteredJobs (Int (Z.of_nat page))
                                (Int (Z.of_nat limit))))
              (seq 1 pages)
     = filteredJobs) /\
  (forall page, List.length filteredJobs <= (page - 1) * limit ->
     jobs (paginate filteredJobs (Int (Z.of_nat page)) (Int (Z.of_nat limit))) = []) /\
  (forall page,
     totalResults (paginate filteredJobs page (Int (Z.of_nat limit)))
     = List.length filteredJobs).
Proof.
  intros Hl. split; [|split; [|split]].
  - intros page Hp. now apply page_window.
  - intros pages Hn. rewrite pages_cover. now apply firstn_all2.
  - intros page Hn. destruct page as [|page].
    + unfold paginate, Array_slice, relative. cbn [jobs arith toInteger].
      replace ((Z.of_nat 0 - 1) * Z.of_nat limit + Z.of_nat limit)%Z with 0%Z by lia.
      destruct (Z.ltb_spec ((Z.of_nat 0 - 1) * Z.of_nat limit) 0); [|lia].
      cbn [Z.ltb Z.compare]. rewrite Z.min_l by lia.
      replace (Z.to_nat _) with 0 by lia. reflexivity.
    + rewrite page_window by lia. rewrite skipn_all2 by lia. apply firstn_nil.
  - reflexivity.
Qed.

Lemma X13_witness :
  flat_map (fun page =>
              jobs (paginate threeJobs (Int (Z.of_nat page)) (Int (Z.of_nat 2))))
           [1; 2]
  = threeJobs.
Proof.
  apply (proj1 (proj2 (X13_pages_partition_the_filtered_jobs threeJobs 2
                         ltac:(lia))) 2).
  simpl. lia.
Defined.

(** X14. A page or a limit that is not a number, page 0 and limit 0 give
    no jobs at all, while [totalResults] still is the number of the filtered
    jobs. *)
Theorem X14_page_that_is_no_page
  (filteredJobs : list Job) (page limit : number) :
  page = NaN \/ limit = NaN \/ page = Int 0 \/ limit = Int 0 ->
  jobs (paginate filteredJobs page limit) = [] /\
  totalResults (paginate filteredJobs page limit) = List.length filteredJobs.
Proof.
  intros H. split; [|reflexivity].
  unfold paginate, Array_slice, relative. cbn [jobs].
  set (len := Z.of_nat (List.length filteredJobs)).
  assert (Hlen : (0 <= len)%Z) by apply Nat2Z.is_nonneg.
  assert (Hnan : forall l : list Job, firstn (Z.to_nat (Z.min 0 len - Z.min 0 len))
                                       l = []).
  { intros l. now rewrite Z.sub_diag. }
  destruct H as [-> | [-> | [-> | ->]]].
  - cbn [arith toInteger Z.ltb Z.compare]. apply Hnan.
  - destruct page; cbn [arith toInteger Z.ltb Z.compare]; apply Hnan.
  - destruct limit as [l|]; cbn [arith toInteger]; [|apply Hnan].
    replace ((0 - 1) * l + l)%Z with 0%Z by lia.
    cbn [Z.ltb Z.compare]. rewrite (Z.min_l 0 len) by lia.
    match goal with |- firstn ?n _ = [] => replace n with 0; [reflexivity|] end.
    destruct (Z.ltb_spec ((0 - 1) * l) 0); lia.
  - destruct page as [p|]; cbn [arith toInteger]; [|apply Hnan].
    replace ((p - 1) * 0 + 0)%Z with 0%Z by lia.
    replace ((p - 1) * 0)%Z with 0%Z by lia. apply Hnan.
Qed.

Lemma X14_witness :
  jobs (paginate threeJobs NaN (Int 10)) = [] /\
  totalResults (paginate threeJobs NaN (Int 10)) = 3.
Proof.
  apply (X14_page_that_is_no_page threeJobs NaN (Int 10)). now left.
Defined.

Module SearchFacts.

Lemma slice_length {A} (array : list A) (start finish : number) :
  List.length (Array_slice array start finish) <= List.length array.
Proof.
  destruct (slice_stretch array start finish) as (a & b & E).
  rewrite E at 2. rewrite !length_app. lia.
Qed.

Lemma slice_incl {A} (array : list A) (start finish : number) x :
  In x (Array_slice array start finish) -> In x array.
Proof.
  destruct (slice_stretch array start finish) as (a & b & E).
  intros H. rewrite E. apply in_or_app. right. apply in_or_app. now left.
Qed.

(** What a search that returns a result has computed. *)
Lemma searchJobs_fulfilled SERPAPI_KEY fetch encodeURIComponent uuidv4 toLowerCase
      params result :
  snd (searchJobs SERPAPI_KEY fetch encodeURIComponent uuidv4 toLowerCase params)
  = Fulfilled result ->
  exists response data,
    json response = Fulfilled data /\
    match Api.jobs_results data with
    | None => result = {| jobs := []; totalResults := 0 |}
    | Some results =>
        exists mapped,
          mapJobs encodeURIComponent uuidv4 results 0 = Return mapped /\
          result = paginate (filter (inLocation toLowerCase (Params.location params))
                                    mapped)
                     (match Params.page params with Some n => n | None => Int 1 end)
                     (match Params.limit params with Some n => n | None => Int 10 end)
    end.
Proof.
  unfold searchJobs.
  destruct SERPAPI_KEY as [[|c key]|]; try discriminate.
  destruct (apiUrlOf _ _ _ _) as [apiUrl|e]; [|discriminate].
  destruct (fetchWithRetry fetch apiUrl 3) as [events [response|reason]];
    cbn [snd await]; [|discriminate].
  destruct (json response) as [data|reason] eqn:Ej; cbn [await]; [|discriminate].
  intros H. exists response, data. split; [exact Ej|].
  destruct (Api.error data) as [[|c' s]|]; try discriminate H;
    (destruct (Api.jobs_results data) as [results|];
     [|now injection H as <-];
     destruct (mapJobs encodeURIComponent uuidv4 results 0) as [mapped|e];
     cbn [settle await] in H; [|discriminate H];
     exists mapped; split; [reflexivity | now injection H as <-]).
Qed.

Lemma mapJobs_length encodeURIComponent uuidv4 : forall results generated mapped,
  mapJobs encodeURIComponent uuidv4 results generated = Return mapped ->
  List.length mapped = List.length results.
Proof.
  induction results as [|job results IH]; intros generated mapped H.
  - injection H as <-. reflexivity.
  - cbn [mapJobs] in H. destruct (applyUrlOf encodeURIComponent job); [|discriminate H].
    cbn [bind] in H.
    destruct (mapJobs encodeURIComponent uuidv4 results _) as [others|] eqn:E;
      [|discriminate H].
    cbn [bind] in H. injection H as <-. cbn [List.length]. f_equal.
    eapply IH. exact E.
Qed.

Lemma includes_empty s : includes s [] = true.
Proof. now destruct s. Qed.

Lemma filter_all {A} (f : A -> bool) l :
  (forall x, f x = true) -> filter f l = l.
Proof.
  intros H. induction l as [|x l IH]; [reflexivity|]. cbn [filter].
  now rewrite H, IH.
Qed.

(** A response that [fetchWithRetry] returns is the answer to one of the
    requests left, the first one answered with [ok] set. *)
Lemma attempts_fulfilled fetch url maxRetries : forall remaining attempt lastError events response,
  attempts fetch url maxRetries remaining attempt lastError
  = (events, Fulfilled response) ->
  exists k,
    k < remaining /\
    (forall j, j < k -> answered fetch url (attempt + j) = None) /\
    answered fetch url (attempt + k) = Some response.
Proof.
  induction remaining as [|remaining IH]; intros attempt lastError events response H;
    cbn [attempts] in H; [discriminate H|].
  assert (Hnext : forall waited lastError',
            answered fetch url attempt = None ->
            (let (later, result) :=
               attempts fetch url maxRetries remaining (S attempt) lastError' in
             (Fetch url :: waited
                ++ (if (Z.of_nat attempt <? Z.of_nat maxRetries - 1)%Z
                    then [Wait (delay attempt)] else []) ++ later, result))
            = (events, Fulfilled response) ->
            exists k,
              k < S remaining /\
              (forall j, j < k -> answered fetch url (attempt + j) = None) /\
              answered fetch url (attempt + k) = Some response).
  { intros waited lastError' Hnone Hrun.
    destruct (attempts fetch url maxRetries remaining (S attempt) lastError')
      as [later result] eqn:Ea.
    injection Hrun as _ ->.
    destruct (IH _ _ _ _ Ea) as (k & Hk & Hbefore & Hat).
    exists (S k). split; [lia|]. split.
    - intros [|j] Hj; [now rewrite Nat.add_0_r|].
      rewrite Nat.add_succ_r. apply Hbefore. lia.
    - now rewrite Nat.add_succ_r. }
  unfold answered in Hnext at 1.
  destruct (fetch url attempt) as [r|reason] eqn:Ef.
  - destruct (ok r) eqn:Eok.
    + injection H as _ <-. exists 0. split; [lia|]. split; [intros j Hj; lia|].
      rewrite Nat.add_0_r. unfold answered. now rewrite Ef, Eok.
    + destruct (text r) as [errorText|reason];
        eapply Hnext; try reflexivity; exact H.
  - eapply Hnext; [reflexivity | exact H].
Qed.

(** The answer that a search which returns a result has read: the JSON of
    the first response with [ok] set among the three requests for the URL
    of the search. *)
Lemma searchJobs_answer SERPAPI_KEY fetch encodeURIComponent uuidv4 toLowerCase
      params result :
  snd (searchJobs SERPAPI_KEY fetch encodeURIComponent uuidv4 toLowerCase params)
  = Fulfilled result ->
  exists key apiUrl k response data,
    SERPAPI_KEY = Some key /\
    apiUrlOf encodeURIComponent key (Params.query params) (Params.location params)
    = Return apiUrl /\
    k < 3 /\
    (forall j, j < k -> answered fetch apiUrl j = None) /\
    answered fetch apiUrl k = Some response /\
    json response = Fulfilled data /\
    match Api.jobs_results data with
    | None => result = {| jobs := []; totalResults := 0 |}
    | Some results =>
        exists mapped,
          mapJobs encodeURIComponent uuidv4 results 0 = Return mapped /\
          result = paginate (filter (inLocation toLowerCase (Params.location params))
                                    mapped)
                     (match Params.page params with Some n => n | None => Int 1 end)
                     (match Params.limit params with Some n => n | None => Int 10 end)
    end.
Proof.
  unfold searchJobs.
  destruct SERPAPI_KEY as [[|c key]|]; try discriminate.
  destruct (apiUrlOf _ _ _ _) as [apiUrl|e] eqn:Eu; [|discriminate].
  unfold fetchWithRetry.
  destruct (attempts fetch apiUrl 3 3 0 None) as [events [response|reason]] eqn:Ea;
    cbn [snd await]; [|discriminate].
  destruct (json response) as [data|reason] eqn:Ej; cbn [await]; [|discriminate].
  intros H. apply attempts_fulfilled in Ea. destruct Ea as (k & Hk & Hbefore & Hat).
  exists (c :: key), apiUrl, k, response, data.
  split; [reflexivity|]. split; [exact Eu|]. split; [exact Hk|].
  split; [exact Hbefore|]. split; [exact Hat|]. split; [exact Ej|].
  destruct (Api.error data) as [[|c' s]|]; try discriminate H;
    (destruct (Api.jobs_results data) as [results|];
     [|now injection H as <-];
     destruct (mapJobs encodeURIComponent uuidv4 results 0) as [mapped|e];
     cbn [settle await] in H; [|discriminate H];
     exists mapped; split; [reflexivity | now injection H as <-]).
Qed.

End SearchFacts.
Import SearchFacts.

(** X15. Every job that [searchJobs] returns passes the location test, and
    the jobs returned are never more than [totalResults], whatever the page
    and the limit are. *)
Theorem X15_returned_jobs_pass_the_location_test
  (SERPAPI_KEY : option jsstring)
  (fetch : jsstring -> nat -> promise Response)
  (encodeURIComponent : jsstring -> completion jsstring)
  (uuidv4 : nat -> jsstring) (toLowerCase : jsstring -> jsstring)
  (params : Params.JobSearchParams) (result : SearchResult) :
  snd (searchJobs SERPAPI_KEY fetch encodeURIComponent uuidv4 toLowerCase params)
  = Fulfilled result ->
  Forall (fun job => inLocation toLowerCase (Params.location params) job = true)
         (jobs result) /\
  List.length (jobs result) <= totalResults result.
Proof.
  intros H. apply searchJobs_fulfilled in H.
  destruct H as (response & data & _ & H).
  destruct (Api.jobs_results data) as [results|].
  - destruct H as (mapped & _ & ->). unfold paginate. cbn [jobs totalResults].
    split; [|apply slice_length].
    apply Forall_forall. intros job Hin. apply slice_incl in Hin.
    apply filter_In in Hin. tauto.
  - subst result. split; [constructor | cbn; lia].
Qed.

(** A search for "remote" on the three jobs: the remote one is the only
    job returned. *)
Lemma X15_witness :
  exists result,
    snd (searchIn "Remote" (Int 1) (Int 10)) = Fulfilled result /\
    List.map id (jobs result) = [lit "c"] /\
    Forall (fun job => inLocation asciiLower (lit "Remote") job = true) (jobs result) /\
    List.length (jobs result) <= totalResults result.
Proof.
  eexists. split; [vm_compute; reflexivity|]. split; [reflexivity|].
  apply (X15_returned_jobs_pass_the_location_test
           (Some (lit "key")) (fun _ _ => Fulfilled threeResults)
           (fun s => Return s) (fun _ => lit "generated") asciiLower
           {| Params.query := lit "engineer"; Params.location := lit "Remote";
              Params.page := Some (Int 1); Params.limit := Some (Int 10) |}).
  vm_compute. reflexivity.
Defined.

(** X16. A location that is blank once lower-cased and trimmed filters
    nothing: [totalResults] then is the number of jobs in the answer of the
    API, that is, in the JSON of the response that the retries returned,
    the first with [ok] set among the three requests for the URL of the
    search. *)
Theorem X16_blank_location_filters_nothing
  (SERPAPI_KEY : option jsstring)
  (fetch : jsstring -> nat -> promise Response)
  (encodeURIComponent : jsstring -> completion jsstring)
  (uuidv4 : nat -> jsstring) (toLowerCase : jsstring -> jsstring)
  (params : Params.JobSearchParams) (result : SearchResult) :
  trim (toLowerCase (Params.location params)) = [] ->
  snd (searchJobs SERPAPI_KEY fetch encodeURIComponent uuidv4 toLowerCase params)
  = Fulfilled result ->
  exists key apiUrl k response data,
    SERPAPI_KEY = Some key /\
    apiUrlOf encodeURIComponent key (Params.query params) (Params.location params)
    = Return apiUrl /\
    k < 3 /\
    (forall j, j < k -> answered fetch apiUrl j = None) /\
    answered fetch apiUrl k = Some response /\
    json response = Fulfilled data /\
    totalResults result
    = match Api.jobs_results data with
      | Some results => List.length results
      | None => 0
      end.
Proof.
  intros Hb H. apply searchJobs_answer in H.
  destruct H as (key & apiUrl & k & response & data
                 & Hkey & Hurl & Hk & Hbefore & Hat & Hj & H).
  exists key, apiUrl, k, response, data.
  repeat (split; [assumption|]).
  destruct (Api.jobs_results data) as [results|]; [|now subst result].
  destruct H as (mapped & Hm & ->). unfold paginate. cbn [totalResults].
  rewrite filter_all; [now apply mapJobs_length in Hm|].
  intros job. unfold inLocation. rewrite Hb. now rewrite includes_empty.
Qed.

(** A blank location on a network that answers 429 first and the three
    jobs then: the second response is the one read, and all three jobs are
    counted although the page holds two. *)
Lemma X16_witness :
  exists result,
    snd (searchJobs (Some (lit "key")) busyThenJobs (fun s => Return s)
           (fun _ => lit "generated") asciiLower
           {| Params.query := lit "engineer"; Params.location := lit "   ";
              Params.page := Some (Int 1); Params.limit := Some (Int 2) |})
    = Fulfilled result /\
    totalResults result = 3 /\ List.length (jobs result) = 2 /\
    exists apiUrl data,
      answered busyThenJobs apiUrl 0 = None /\
      answered busyThenJobs apiUrl 1 = Some threeResults /\
      json threeResults = Fulfilled data /\
      totalResults result
      = match Api.jobs_results data with
        | Some results => List.length results
        | None => 0
        end.
Proof.
  eexists. split; [vm_compute; reflexivity|].
  split; [reflexivity|]. split; [reflexivity|].
  destruct (X16_blank_location_filters_nothing
              (Some (lit "key")) busyThenJobs (fun s => Return s)
              (fun _ => lit "generated") asciiLower
              {| Params.query := lit "engineer"; Params.location := lit "   ";
                 Params.page := Some (Int 1); Params.limit := Some (Int 2) |}
              _ eq_refl eq_refl)
    as (key & apiUrl & k & response & data & _ & _ & Hk & Hbefore & Hat & Hj & Ht).
  exists apiUrl, data.
  destruct k as [|[|k]]; [discriminate Hat | | discriminate (Hbefore 1 ltac:(lia))].
  injection Hat as <-.
  split; [reflexivity|]. split; [reflexivity|]. split; [exact Hj | exact Ht].
Defined.

(* ================================================================== *)
(** * The routes: job titles                                          *)
(* ================================================================== *)

Module TitleFacts.

Lemma splitOn_nonempty sep : forall str piece, splitOn sep str piece <> [].
Proof.
  induction str as [|c t IH]; intros piece; simpl; [discriminate|].
  destruct (char_eqb c sep); [discriminate | apply IH].
Qed.

Lemma join_cons sep p pieces :
  pieces <> [] -> join sep (p :: pieces) = p ++ sep ++ join sep pieces.
Proof. destruct pieces; [contradiction | reflexivity]. Qed.

(** Splitting and joining again gives the text back. *)
Lemma splitOn_join sep : forall str piece,
  join [sep] (splitOn sep str piece) = rev piece ++ str.
Proof.
  induction str as [|c t IH]; intros piece.
  - simpl. now rewrite app_nil_r.
  - simpl. destruct (char_eqb c sep) eqn:E.
    + apply Z.eqb_eq in E. subst c.
      rewrite join_cons by apply splitOn_nonempty. now rewrite IH.
    + rewrite IH. simpl. now rewrite <- app_assoc.
Qed.

Lemma split_join str sep : join [sep] (String_split str sep) = str.
Proof. unfold String_split. now rewrite splitOn_join. Qed.

Lemma splitOn_clean sep : forall str piece,
  ~ In sep piece ->
  Forall (fun p => ~ In sep p) (splitOn sep str piece).
Proof.
  induction str as [|c t IH]; intros piece Hp.
  - simpl. constructor; [|constructor]. intros H. apply in_rev in H. tauto.
  - simpl. destruct (char_eqb c sep) eqn:E.
    + constructor; [intros H; apply in_rev in H; tauto | apply IH; auto].
    + apply IH. intros [H | H]; [|tauto].
      subst c. unfold char_eqb in E. now rewrite Z.eqb_refl in E.
Qed.

Lemma join_occurs sep : forall pieces p,
  In p pieces -> occursIn p (join sep pieces).
Proof.
  induction pieces as [|q pieces IH]; intros p H; [contradiction|].
  destruct H as [-> | H].
  - destruct pieces as [|q' pieces]; [exists [], []; simpl; now rewrite app_nil_r|].
    exists [], (sep ++ join sep (q' :: pieces)). reflexivity.
  - destruct pieces as [|q' pieces]; [contradiction|].
    destruct (IH p H) as (a & b & E).
    exists (q ++ sep ++ a), b. rewrite join_cons by discriminate.
    rewrite E. now rewrite <- !app_assoc.
Qed.

Lemma trimStart_occurs s : exists a, s = a ++ trimStart s.
Proof. apply trimStart_split. Qed.

Lemma trim_occurs s : occursIn (trim s) s.
Proof.
  unfold trim, trimEnd.
  destruct (trimStart_split s) as (a & Ea).
  destruct (trimStart_split (rev (trimStart s))) as (b & Eb).
  apply (f_equal (@rev char16)) in Eb. rewrite rev_involutive, rev_app_distr in Eb.
  exists a, (rev b). now rewrite <- Eb.
Qed.

Lemma occursIn_trans a b c : occursIn a b -> occursIn b c -> occursIn a c.
Proof.
  intros (x & y & ->) (x' & y' & ->). exists (x' ++ x), (y ++ y').
  now rewrite <- !app_assoc.
Qed.

Lemma trimStart_blank : forall s,
  trimStart s = [] <-> forallb isWhiteSpace s = true.
Proof.
  induction s as [|c s IH]; [now split|]. simpl.
  destruct (isWhiteSpace c); [exact IH | split; discriminate].
Qed.

Lemma forallb_rev {A} (f : A -> bool) l : forallb f (rev l) = forallb f l.
Proof.
  induction l as [|x l IH]; [reflexivity|]. simpl.
  rewrite forallb_app, IH. simpl. rewrite andb_true_r. apply andb_comm.
Qed.

(** [trim] leaves nothing exactly of a string of white space. *)
Lemma trim_blank s : trim s = [] <-> forallb isWhiteSpace s = true.
Proof.
  unfold trim, trimEnd. split.
  - intros H. apply (f_equal (@rev char16)) in H. rewrite rev_involutive in H.
    simpl in H. apply trimStart_blank in H. rewrite forallb_rev in H.
    pose proof (trimStart_head s) as Hh. apply trimStart_blank.
    destruct (trimStart s) as [|c u]; [reflexivity|].
    simpl in H. rewrite Hh in H. discriminate H.
  - intros H. apply trimStart_blank in H. now rewrite H.
Qed.

Lemma splitOn_blank : forall str piece,
  Forall (fun p => forallb isWhiteSpace p = true) (splitOn 44%Z str piece)
  <-> forallb isWhiteSpace piece = true /\ forallb commaOrSpace str = true.
Proof.
  induction str as [|c t IH]; intros piece.
  - simpl. rewrite Forall_cons_iff, forallb_rev. split; [tauto|].
    intros [H _]. split; [exact H | constructor].
  - simpl. unfold commaOrSpace at 1, char_eqb.
    destruct (Z.eqb c 44) eqn:E; cbn [orb].
    + rewrite Forall_cons_iff, forallb_rev, IH. simpl. intuition.
    + rewrite IH. simpl. rewrite !andb_true_iff. tauto.
Qed.

Lemma hd_error_filter {A} (f : A -> bool) : forall l,
  hd_error (filter f l) = None <-> Forall (fun x => f x = false) l.
Proof.
  induction l as [|x l IH]; [split; [constructor | reflexivity]|].
  simpl. destruct (f x) eqn:E.
  - split; [discriminate|]. intros H. inversion H; congruence.
  - rewrite IH. split; [now constructor | intros H; now inversion H].
Qed.

Lemma hd_error_In {A} (l : list A) x : hd_error l = Some x -> In x l.
Proof. destruct l; [discriminate|]. intros H. injection H as ->. now left. Qed.

Lemma splitOn_app sep b : forall a piece,
  splitOn sep (a ++ sep :: b) piece = splitOn sep a piece ++ splitOn sep b [].
Proof.
  induction a as [|c a IH]; intros piece.
  - simpl. unfold char_eqb. now rewrite Z.eqb_refl.
  - simpl. destruct (char_eqb c sep); [now rewrite IH | apply IH].
Qed.

Lemma splitOn_plain sep : forall b piece,
  ~ In sep b -> splitOn sep b piece = [rev piece ++ b].
Proof.
  induction b as [|c b IH]; intros piece Hn.
  - simpl. now rewrite app_nil_r.
  - simpl. destruct (char_eqb c sep) eqn:E.
    + apply Z.eqb_eq in E. subst c. exfalso. apply Hn. now left.
    + rewrite IH by (intros H; apply Hn; now right).
      simpl. now rewrite <- app_assoc.
Qed.

Lemma blank_comma_free p : forallb isWhiteSpace p = true -> ~ In 44%Z p.
Proof.
  intros H Hin. rewrite forallb_forall in H. apply H in Hin. discriminate Hin.
Qed.

(** Splitting what was joined gives the pieces back when none of them
    holds the separator. *)
Lemma split_of_join sep : forall pieces,
  pieces <> [] -> Forall (fun p => ~ In sep p) pieces ->
  String_split (join [sep] pieces) sep = pieces.
Proof.
  unfold String_split.
  induction pieces as [|p pieces IH]; intros Hne Hc; [contradiction|].
  inversion Hc as [|? ? Hp Hrest]; subst.
  destruct pieces as [|q more].
  - simpl. now rewrite splitOn_plain.
  - rewrite join_cons by discriminate.
    change (p ++ [sep] ++ join [sep] (q :: more))
      with (p ++ sep :: join [sep] (q :: more)).
    rewrite splitOn_app, splitOn_plain by exact Hp.
    rewrite IH by (try discriminate; exact Hrest). reflexivity.
Qed.

(** The titles of a text are its comma-separated pieces, trimmed, less the
    empty ones. *)
Lemma jobTitlesOf_join pieces :
  pieces <> [] -> Forall (fun p => ~ In 44%Z p) pieces ->
  jobTitlesOf (join [44%Z] pieces) = filter truthy (List.map trim pieces).
Proof.
  intros Hne Hc. unfold jobTitlesOf. now rewrite split_of_join.
Qed.

Lemma blanks_dropped : forall blanks,
  Forall (fun p => forallb isWhiteSpace p = true) blanks ->
  filter truthy (List.map trim blanks) = [].
Proof.
  induction blanks as [|p blanks IH]; intros H; [reflexivity|].
  inversion H as [|? ? Hp Hrest]; subst. simpl.
  apply trim_blank in Hp. rewrite Hp. simpl. now apply IH.
Qed.

End TitleFacts.
Import TitleFacts.

(** X17. The query of the job search is the first comma-separated piece of
    the job title text that is not blank, trimmed: it is not empty, has no
    comma and no white space at either end, and occurs in the text; when
    the pieces that come before a piece are all blank and that piece is
    not, the query is that piece, trimmed, whatever pieces follow.  There
    is no query, and [undefined] is searched for, exactly when the text
    holds nothing but commas and white space. *)
Theorem X17_query_is_first_non_blank_title (jobTitleString : jsstring) :
  (queryOf jobTitleString = None
   <-> forallb commaOrSpace jobTitleString = true) /\
  (forall q, queryOf jobTitleString = Some q ->
     q <> [] /\ trim q = q /\ ~ In 44%Z q /\ occursIn q jobTitleString) /\
  (forall blanks piece others,
     jobTitleString = join [44%Z] (blanks ++ piece :: others) ->
     Forall (fun p => forallb isWhiteSpace p = true) blanks ->
     Forall (fun p => ~ In 44%Z p) (piece :: others) ->
     forallb isWhiteSpace piece = false ->
     queryOf jobTitleString = Some (trim piece)).
Proof.
  split; [|split].
  - unfold queryOf, jobTitlesOf, String_split.
    rewrite hd_error_filter, Forall_map.
    pose proof (splitOn_blank jobTitleString []) as B.
    assert (H : forall p, truthy (trim p) = false
                          <-> forallb isWhiteSpace p = true).
    { intros p. rewrite <- trim_blank. destruct (trim p); simpl; split; congruence. }
    split; intros F.
    + apply B. revert F. apply Forall_impl. intros p. apply H.
    + assert (F' : Forall (fun p => forallb isWhiteSpace p = true)
                          (splitOn 44%Z jobTitleString []))
        by (apply B; split; [reflexivity | exact F]).
      revert F'. apply Forall_impl. intros p. apply H.
  - unfold queryOf, jobTitlesOf, String_split.
    intros q Hq. apply hd_error_In in Hq. apply filter_In in Hq.
    destruct Hq as [Hin Ht]. apply in_map_iff in Hin.
    destruct Hin as (p & <- & Hp).
    split; [now destruct (trim p)|]. split; [apply trim_idempotent|].
    split.
    + intros Hc. apply trim_incl in Hc.
      pose proof (splitOn_clean 44%Z jobTitleString [] (fun H => H)) as Hcl.
      rewrite Forall_forall in Hcl. exact (Hcl p Hp Hc).
    + eapply occursIn_trans; [apply trim_occurs|].
      rewrite <- (split_join jobTitleString 44%Z) at 1.
      now apply join_occurs.
  - intros blanks piece others -> Hb Hc Hp. unfold queryOf.
    rewrite jobTitlesOf_join.
    + rewrite map_app, filter_app, blanks_dropped by exact Hb.
      cbn [app List.map filter].
      destruct (trim piece) as [|c t] eqn:Et; [|reflexivity].
      apply trim_blank in Et. congruence.
    + now destruct blanks.
    + apply Forall_app. split; [|exact Hc].
      revert Hb. apply Forall_impl. intros p. apply blank_comma_free.
Qed.

(** A title text that begins with a blank piece: the second piece gives
    the query, not the last. *)
Lemma X17_witness :
  queryOf (lit " , Data Analyst ,SQL") = Some (lit "Data Analyst") /\
  lit "Data Analyst" <> [] /\ trim (lit "Data Analyst") = lit "Data Analyst" /\
  ~ In 44%Z (lit "Data Analyst") /\
  occursIn (lit "Data Analyst") (lit " , Data Analyst ,SQL") /\
  queryOf (join [44%Z] ([lit " "] ++ lit " Data Analyst " :: [lit "SQL"]))
  = Some (trim (lit " Data Analyst ")).
Proof.
  split; [reflexivity|].
  destruct (proj1 (proj2 (X17_query_is_first_non_blank_title
                            (lit " , Data Analyst ,SQL")))
              (lit "Data Analyst") eq_refl) as (H1 & H2 & H3 & H4).
  repeat (split; [assumption|]).
  apply (proj2 (proj2 (X17_query_is_first_non_blank_title
                         (join [44%Z] ([lit " "] ++ lit " Data Analyst " :: [lit "SQL"]))))
           [lit " "] (lit " Data Analyst ") [lit "SQL"] eq_refl).
  - repeat constructor.
  - repeat constructor; intros H; vm_compute in H; intuition discriminate.
  - reflexivity.
Defined.

(* ================================================================== *)
(** * The client: pages, retries and the job title field              *)
(* ================================================================== *)

Import ClientJobSearch.

(** X19. With the current page between 1 and the number of pages, the page
    buttons show consecutive page numbers, five of them or as many as there
    are pages if that is less, all between 1 and the number of pages, and the
    current page is one of them. *)
Theorem X19_page_buttons_show_the_current_page (totalPages currentPage : Z) :
  (1 <= currentPage <= totalPages)%Z ->
  (exists first,
     pageNumbers totalPages currentPage
     = List.map (fun i => first + Z.of_nat i)%Z
                (seq 0 (Z.to_nat (Z.min 5 totalPages)))) /\
  Forall (fun p => 1 <= p <= totalPages)%Z (pageNumbers totalPages currentPage) /\
  In currentPage (pageNumbers totalPages currentPage).
Proof.
  intros Hc. unfold pageNumbers, pageNum.
  assert (Hshape : exists first,
            (1 <= first)%Z /\
            (first + Z.min 5 totalPages - 1 <= totalPages)%Z /\
            (first <= currentPage < first + Z.min 5 totalPages)%Z /\
            forall i : Z,
              (if (totalPages <=? 5)%Z then i + 1
               else if (currentPage <=? 3)%Z then i + 1
               else if (totalPages - 2 <=? currentPage)%Z then totalPages - 4 + i
               else currentPage - 2 + i)%Z = (first + i)%Z).
  { destruct (Z.leb_spec totalPages 5).
    - exists 1%Z. repeat split; try lia.
    - destruct (Z.leb_spec currentPage 3).
      + exists 1%Z. repeat split; try lia.
      + destruct (Z.leb_spec (totalPages - 2) currentPage).
        * exists (totalPages - 4)%Z. repeat split; try lia.
        * exists (currentPage - 2)%Z. repeat split; try lia. }
  destruct Hshape as (first & H1 & H2 & H3 & Hi).
  split; [|split].
  - exists first. apply map_ext. intros i. apply Hi.
  - apply Forall_forall. intros p Hp. apply in_map_iff in Hp.
    destruct Hp as (i & <- & Hin). apply in_seq in Hin. rewrite Hi. lia.
  - apply in_map_iff. exists (Z.to_nat (currentPage - first)). split.
    + rewrite Hi. lia.
    + apply in_seq. lia.
Qed.

Lemma X19_witness :
  pageNumbers 9 7 = [5; 6; 7; 8; 9]%Z /\
  Forall (fun p => 1 <= p <= 9)%Z (pageNumbers 9 7) /\
  In 7%Z (pageNumbers 9 7).
Proof.
  split; [reflexivity|].
  exact (proj2 (X19_page_buttons_show_the_current_page 9 7 ltac:(lia))).
Defined.

Module ClientPagingFacts.

Lemma totalPages_bounds (t : Z) :
  (0 <= t)%Z ->
  (t <= totalPages t * 10 /\ (totalPages t - 1) * 10 < t \/ t = 0 /\ totalPages t = 0)%Z.
Proof.
  intros Ht. unfold totalPages, resultsPerPage.
  pose proof (Z.div_mod (- t) 10 ltac:(lia)) as E.
  pose proof (Z.mod_pos_bound (- t) 10 ltac:(lia)) as B.
  destruct (Z.eq_dec t 0) as [-> | Hn]; [right; split; reflexivity|].
  left. lia.
Qed.

End ClientPagingFacts.
Import ClientPagingFacts.

(** X20. Paging as the client does, ten jobs to the page and from page 1
    to [Math.ceil(totalResults / 10)], shows every filtered job once and in
    order, and none of these pages is empty; the Previous and Next buttons
    keep the current page between 1 and the number of pages. *)
Theorem X20_client_pages_show_every_job (filteredJobs : list Job) :
  flat_map (fun page =>
              jobs (paginate filteredJobs (Int (Z.of_nat page)) (Int resultsPerPage)))
           (seq 1 (Z.to_nat (totalPages (Z.of_nat (List.length filteredJobs)))))
  = filteredJobs /\
  (forall page,
     1 <= page <= Z.to_nat (totalPages (Z.of_nat (List.length filteredJobs))) ->
     jobs (paginate filteredJobs (Int (Z.of_nat page)) (Int resultsPerPage)) <> []) /\
  (forall currentPage,
     (1 <= currentPage <= totalPages (Z.of_nat (List.length filteredJobs)))%Z ->
     (1 <= handlePreviousPage currentPage
      <= totalPages (Z.of_nat (List.length filteredJobs)))%Z /\
     (1 <= handleNextPage (totalPages (Z.of_nat (List.length filteredJobs))) currentPage
      <= totalPages (Z.of_nat (List.length filteredJobs)))%Z).
Proof.
  set (pages := totalPages (Z.of_nat (List.length filteredJobs))).
  pose proof (totalPages_bounds (Z.of_nat (List.length filteredJobs))
                (Nat2Z.is_nonneg _)) as B.
  fold pages in B. clearbody pages.
  destruct B as [[Hup Hlow] | [H0 Hp]].
  - split; [|split].
    + change (Int resultsPerPage) with (Int (Z.of_nat 10)).
      rewrite pages_cover. apply firstn_all2. lia.
    + intros page Hpage. change (Int resultsPerPage) with (Int (Z.of_nat 10)).
      rewrite page_window by lia. intros E.
      apply (f_equal (@List.length Job)) in E.
      rewrite length_firstn, length_skipn in E. cbn [List.length] in E. lia.
    + intros currentPage Hc. unfold handlePreviousPage, handleNextPage.
      destruct (Z.ltb_spec 1 currentPage), (Z.ltb_spec currentPage pages); lia.
  - split; [|split].
    + rewrite Hp. destruct filteredJobs; [reflexivity | discriminate H0].
    + intros page Hpage. lia.
    + intros currentPage Hc. lia.
Qed.

Lemma X20_witness :
  jobs (paginate threeJobs (Int 1) (Int resultsPerPage)) <> [] /\
  (1 <= handleNextPage 1 1 <= 1)%Z.
Proof.
  split.
  - apply (proj1 (proj2 (X20_client_pages_show_every_job threeJobs)) 1).
    change (1 <= 1 <= 1). lia.
  - apply (proj2 (proj2 (proj2 (X20_client_pages_show_every_job threeJobs)) 1%Z
                   ltac:(change (1 <= 1 <= 1)%Z; lia))).
Defined.

Module ClientRetryFacts.

Section Retry.

Variable fetch : jsstring -> nat -> promise ClientJobSearch.Response.

Lemma client_round url maxRetries remaining retries lastError :
  ClientJobSearch.attempts fetch url maxRetries (S remaining) retries lastError =
  match clientAnswered fetch url retries with
  | Some response => ([Fetch url], Fulfilled response)
  | None =>
      (Fetch url
         :: (if Nat.ltb (S retries) maxRetries
             then [Wait (ClientJobSearch.delay (S retries))] else [])
         ++ fst (ClientJobSearch.attempts fetch url maxRetries remaining (S retries)
                   (clientLastErrorOf fetch url retries)),
       snd (ClientJobSearch.attempts fetch url maxRetries remaining (S retries)
              (clientLastErrorOf fetch url retries)))
  end.
Proof.
  cbn [ClientJobSearch.attempts]. unfold clientAnswered, clientLastErrorOf.
  replace (Z.of_nat (S retries) <? Z.of_nat maxRetries)%Z
    with (Nat.ltb (S retries) maxRetries)
    by (destruct (Nat.ltb_spec (S retries) maxRetries); symmetry;
        [apply Z.ltb_lt | apply Z.ltb_ge]; lia).
  destruct (fetch url retries) as [response|reason].
  - destruct (ClientJobSearch.ok response); [reflexivity|].
    destruct (ClientJobSearch.text response) as [errorText|reason];
      destruct (ClientJobSearch.attempts fetch url maxRetries remaining (S retries) _);
      reflexivity.
  - destruct (ClientJobSearch.attempts fetch url maxRetries remaining (S retries) _).
    reflexivity.
Qed.

(** Rounds that fail up to round [retries + k], [k] being [remaining]
    when they all fail. *)
Lemma client_rounds url maxRetries : forall remaining retries lastError k,
  k <= remaining ->
  retries + remaining = maxRetries ->
  (forall j, retries <= j < retries + k -> clientAnswered fetch url j = None) ->
  (k < remaining ->
   exists response, clientAnswered fetch url (retries + k) = Some response) ->
  snd (ClientJobSearch.attempts fetch url maxRetries remaining retries lastError)
  = (if Nat.ltb k remaining
     then match clientAnswered fetch url (retries + k) with
          | Some response => Fulfilled response
          | None => Rejected None
          end
     else Rejected (match k with
                    | O => lastError
                    | S n => clientLastErrorOf fetch url (retries + n)
                    end)) /\
  requests (fst (ClientJobSearch.attempts fetch url maxRetries remaining retries lastError))
  = repeat url (if Nat.ltb k remaining then S k else k) /\
  waits (fst (ClientJobSearch.attempts fetch url maxRetries remaining retries lastError))
  = List.map ClientJobSearch.delay
      (seq (S retries) (if Nat.ltb k remaining then k else k - 1)).
Proof.
  induction remaining as [|remaining IH]; intros retries lastError k Hk Hm Hf Ha.
  - assert (k = 0) as -> by lia. repeat split.
  - rewrite client_round. destruct k as [|k].
    + destruct Ha as (response & Ha); [lia|]. rewrite Nat.add_0_r in *.
      rewrite Ha. repeat split.
    + rewrite (Hf retries) by lia. cbn [fst snd].
      destruct (IH (S retries) (clientLastErrorOf fetch url retries) k) as (Hs & Hr & Hw).
      { lia. }
      { lia. }
      { intros j Hj. apply Hf. lia. }
      { intros Hlt. destruct Ha as (response & Ha); [lia|].
        exists response. rewrite <- Ha. f_equal. lia. }
      change (Nat.ltb (S k) (S remaining)) with (Nat.ltb k remaining).
      replace (retries + S k) with (S retries + k) by lia.
      split; [|split].
      * rewrite Hs. destruct (Nat.ltb k remaining); [reflexivity|].
        destruct k as [|n]; [now rewrite Nat.add_0_r|].
        do 2 f_equal. lia.
      * change (Fetch url :: ?l) with ([Fetch url] ++ l).
        rewrite !requests_app, Hr.
        assert (Hp : requests (if Nat.ltb (S retries) maxRetries
                               then [Wait (ClientJobSearch.delay (S retries))]
                               else []) = [])
          by now destruct (Nat.ltb (S retries) maxRetries).
        rewrite Hp. now destruct (Nat.ltb k remaining).
      * change (Fetch url :: ?l) with ([Fetch url] ++ l).
        rewrite !waits_app, Hw. cbn [waits flat_map app].
        destruct (Nat.ltb_spec k remaining) as [Hlt | Hge].
        -- assert (Hl : Nat.ltb (S retries) maxRetries = true)
             by (apply Nat.ltb_lt; lia).
           rewrite Hl. reflexivity.
        -- assert (k = remaining) as -> by lia.
           destruct remaining as [|n].
           ++ assert (Hl : Nat.ltb (S retries) maxRetries = false)
                by (apply Nat.ltb_ge; lia).
              rewrite Hl. reflexivity.
           ++ assert (Hl : Nat.ltb (S retries) maxRetries = true)
                by (apply Nat.ltb_lt; lia).
              rewrite Hl. cbn [Nat.sub]. rewrite Nat.sub_0_r. reflexivity.
Qed.

End Retry.

End ClientRetryFacts.
Import ClientRetryFacts.

(** X21. The [fetchWithRetry] of the client returns the first response
    that is [ok], after one request more than there were failures, and when
    all [maxRetries] requests fail it throws what the last one left in
    [lastError].  Between two requests it awaits the back-off of the number
    of requests made so far: 2000 ms after the first, then 4000 ms, then
    5000 ms each time; nothing is awaited after the last request. *)
Theorem X21_client_retry_schedule
  (fetch : jsstring -> nat -> promise ClientJobSearch.Response)
  (url : jsstring) (maxRetries : nat) :
  (forall k response,
     k < maxRetries ->
     (forall j, j < k -> clientAnswered fetch url j = None) ->
     clientAnswered fetch url k = Some response ->
     snd (ClientJobSearch.fetchWithRetry fetch url maxRetries) = Fulfilled response /\
     requests (fst (ClientJobSearch.fetchWithRetry fetch url maxRetries))
     = repeat url (S k) /\
     waits (fst (ClientJobSearch.fetchWithRetry fetch url maxRetries))
     = List.map ClientJobSearch.delay (seq 1 k)) /\
  ((forall j, j < maxRetries -> clientAnswered fetch url j = None) ->
   snd (ClientJobSearch.fetchWithRetry fetch url maxRetries)
   = Rejected (match maxRetries with
               | O => None
               | S n => clientLastErrorOf fetch url n
               end) /\
   requests (fst (ClientJobSearch.fetchWithRetry fetch url maxRetries))
   = repeat url maxRetries /\
   waits (fst (ClientJobSearch.fetchWithRetry fetch url maxRetries))
   = List.map ClientJobSearch.delay (seq 1 (maxRetries - 1))) /\
  List.map ClientJobSearch.delay [1; 2; 3; 4] = [2000; 4000; 5000; 5000]%Z.
Proof.
  unfold ClientJobSearch.fetchWithRetry. split; [|split; [|reflexivity]].
  - intros k response Hk Hf Ha.
    destruct (client_rounds fetch url maxRetries maxRetries 0 None k) as (Hs & Hr & Hw);
      try lia.
    { intros j Hj. apply Hf. lia. }
    { intros _. exists response. exact Ha. }
    assert (Hlt : Nat.ltb k maxRetries = true) by (apply Nat.ltb_lt; lia).
    rewrite Hlt in Hs, Hr, Hw. cbn [Nat.add] in Hs. rewrite Ha in Hs.
    split; [exact Hs|]. split; [exact Hr | exact Hw].
  - intros Hf.
    destruct (client_rounds fetch url maxRetries maxRetries 0 None maxRetries)
      as (Hs & Hr & Hw); try lia.
    { intros j Hj. apply Hf. lia. }
    rewrite Nat.ltb_irrefl in Hs, Hr, Hw.
    split; [exact Hs|]. split; [exact Hr | exact Hw].
Qed.

Lemma X21_witness :
  snd (ClientJobSearch.fetchWithRetry alwaysDown (lit "/api/jobs/search") 3)
  = Rejected (Some (TypeError (lit "body used already"))) /\
  requests (fst (ClientJobSearch.fetchWithRetry alwaysDown (lit "/api/jobs/search") 3))
  = repeat (lit "/api/jobs/search") 3 /\
  waits (fst (ClientJobSearch.fetchWithRetry alwaysDown (lit "/api/jobs/search") 3))
  = [2000; 4000]%Z.
Proof.
  apply (proj1 (proj2 (X21_client_retry_schedule alwaysDown
                         (lit "/api/jobs/search") 3))).
  intros j Hj. reflexivity.
Defined.

(* ================================================================== *)
(** * What a skill looks like                                         *)
(* ================================================================== *)

Module SkillFacts.

Lemma iter_In (one : option char16 -> jsstring -> jsstring -> Prop) (c : char16) :
  (forall b w t, one b w t -> ~ In c w) ->
  forall n b w t, iter n one b w t -> ~ In c w.
Proof.
  intros H. induction n as [|n IH]; intros b w t Hi.
  - simpl in Hi. subst w. auto.
  - destruct Hi as (w1 & w2 & -> & H1 & H2). intros Hin.
    apply in_app_or in Hin. destruct Hin as [Hin | Hin].
    + exact (H _ _ _ H1 Hin).
    + exact (IH _ _ _ H2 Hin).
Qed.

(** A pattern that passes [commaFree] matches no comma. *)
Lemma commaFree_sound ic ml : forall r b w t,
  commaFree ic r = true -> lang ic ml r b w t -> ~ In 44%Z w.
Proof.
  induction r as [| a | | inv items | r1 IH1 r2 IH2 | r1 IH1 r2 IH2 | i r IH
                  | r IH mn mx greedy | | | p];
    intros b w t Hc L; cbn [commaFree lang] in Hc, L.
  - subst w. auto.
  - destruct L as (c & -> & Hm). intros [E | []]. subst c.
    rewrite Hm in Hc. discriminate Hc.
  - discriminate Hc.
  - destruct L as (c & -> & Hm). intros [E | []]. subst c.
    rewrite Hm in Hc. discriminate Hc.
  - apply andb_true_iff in Hc. destruct Hc as [H1 H2].
    destruct L as (w1 & w2 & -> & L1 & L2). intros Hin.
    apply in_app_or in Hin. destruct Hin as [Hin | Hin].
    + exact (IH1 _ _ _ H1 L1 Hin).
    + exact (IH2 _ _ _ H2 L2 Hin).
  - apply andb_true_iff in Hc. destruct Hc as [H1 H2].
    destruct L as [L | L]; [exact (IH1 _ _ _ H1 L) | exact (IH2 _ _ _ H2 L)].
  - exact (IH _ _ _ Hc L).
  - destruct L as (extra & _ & Hi).
    eapply iter_In; [|exact Hi]. intros b' w' t'. apply IH, Hc.
  - destruct L as [-> _]. auto.
  - destruct L as [-> _]. auto.
  - destruct L as [-> _]. auto.
Qed.

Lemma printable_not_space c : printable c = true -> isWhiteSpace c = false.
Proof.
  unfold printable, between. intros H. apply andb_true_iff in H.
  destruct H as [H1 H2]. apply Z.leb_le in H1, H2.
  apply not_true_is_false. intros Hw.
  unfold isWhiteSpace, between in Hw.
  repeat (rewrite ?orb_true_iff, ?andb_true_iff, ?Z.leb_le, ?Z.eqb_eq in Hw).
  lia.
Qed.

(** Up to case, a printable character meets printable characters only. *)
Lemma canonicalize_printable ic a c :
  printable a = true ->
  Z.eqb (canonicalize ic a) (canonicalize ic c) = true ->
  printable c = true.
Proof.
  unfold printable, canonicalize, isLower, between. intros Ha Hc.
  apply andb_true_iff in Ha. destruct Ha as [H1 H2]. apply Z.leb_le in H1, H2.
  apply Z.eqb_eq in Hc. apply andb_true_iff. rewrite !Z.leb_le.
  destruct ic; cbn [andb] in Hc; [|lia].
  destruct (Z.leb_spec 97 a), (Z.leb_spec a 122), (Z.leb_spec 97 c),
    (Z.leb_spec c 122); cbn [andb] in Hc; lia.
Qed.

Lemma printableItem_sound ic i c :
  printableItem i = true -> cset_mem ic i c = true -> printable c = true.
Proof.
  destruct i as [a | lo hi | [|] | [|] | [|]]; cbn [printableItem cset_mem];
    intros Hi Hm; try discriminate Hi.
  - eapply canonicalize_printable; [exact Hi | exact Hm].
  - apply andb_true_iff in Hi. destruct Hi as [H1 H2]. apply Z.leb_le in H1, H2.
    unfold printable. unfold swapCase, isLower, isUpper, between in *.
    apply andb_true_iff. rewrite !Z.leb_le.
    apply orb_true_iff in Hm. destruct Hm as [Hm | Hm].
    + apply andb_true_iff in Hm. rewrite !Z.leb_le in Hm. lia.
    + apply andb_true_iff in Hm. destruct Hm as [_ Hm].
      apply andb_true_iff in Hm. rewrite !Z.leb_le in Hm.
      destruct (Z.leb_spec 97 c), (Z.leb_spec c 122), (Z.leb_spec 65 c),
        (Z.leb_spec c 90); cbn [andb] in Hm; lia.
  - unfold printable. destruct (isDigit c) eqn:E; [|discriminate Hm].
    unfold isDigit, between in *. apply andb_true_iff in E.
    rewrite !Z.leb_le in E. apply andb_true_iff. rewrite !Z.leb_le. lia.
  - unfold printable. destruct (isWordChar c) eqn:E; [|discriminate Hm].
    unfold isWordChar, isLower, isUpper, isDigit, between in *.
    repeat (rewrite ?orb_true_iff, ?andb_true_iff, ?Z.leb_le, ?Z.eqb_eq in E).
    apply andb_true_iff. rewrite !Z.leb_le. lia.
Qed.

Lemma class_printable ic items c :
  forallb printableItem items = true ->
  class_mem ic false items c = true -> printable c = true.
Proof.
  unfold class_mem. cbn [xorb]. intros Hi Hm. apply existsb_exists in Hm.
  destruct Hm as (i & Hin & Hm). rewrite forallb_forall in Hi.
  eapply printableItem_sound; [apply Hi, Hin | exact Hm].
Qed.

(** A pattern that passes [headPrintable] matches non-empty strings that
    begin with a printable character. *)
Lemma headPrintable_sound ic ml : forall r b w t,
  headPrintable r = true -> lang ic ml r b w t ->
  exists c w', w = c :: w' /\ printable c = true.
Proof.
  induction r as [| a | | inv items | r1 IH1 r2 IH2 | r1 IH1 r2 IH2 | i r IH
                  | r IH mn mx greedy | | | p];
    intros b w t Hc L; cbn [headPrintable lang] in Hc, L; try discriminate Hc.
  - destruct L as (c & -> & Hm). exists c, []. split; [reflexivity|].
    eapply canonicalize_printable; [exact Hc | exact Hm].
  - destruct inv; [discriminate Hc|].
    destruct L as (c & -> & Hm). exists c, []. split; [reflexivity|].
    eapply class_printable; [exact Hc | exact Hm].
  - destruct L as (w1 & w2 & -> & L1 & L2).
    destruct (IH1 _ _ _ Hc L1) as (c & w' & -> & Hp).
    exists c, (w' ++ w2). split; [reflexivity | exact Hp].
  - apply andb_true_iff in Hc. destruct Hc as [H1 H2].
    destruct L as [L | L]; [exact (IH1 _ _ _ H1 L) | exact (IH2 _ _ _ H2 L)].
  - exact (IH _ _ _ Hc L).
  - apply andb_true_iff in Hc. destruct Hc as [Hn Hc]. apply Nat.ltb_lt in Hn.
    destruct L as (extra & _ & Hi). destruct mn as [|mn]; [lia|].
    cbn [Nat.add iter] in Hi. destruct Hi as (w1 & w2 & -> & L1 & _).
    destruct (IH _ _ _ Hc L1) as (c & w' & -> & Hp).
    exists c, (w' ++ w2). split; [reflexivity | exact Hp].
Qed.

Lemma iter_last (one : option char16 -> jsstring -> jsstring -> Prop) :
  (forall b w t, one b w t -> exists c w', w = w' ++ [c] /\ printable c = true) ->
  forall n b w t, iter (S n) one b w t ->
    exists c w', w = w' ++ [c] /\ printable c = true.
Proof.
  intros H. induction n as [|n IH]; intros b w t Hi.
  - destruct Hi as (w1 & w2 & -> & H1 & Hn). simpl in Hn. subst w2.
    rewrite app_nil_r. exact (H _ _ _ H1).
  - destruct Hi as (w1 & w2 & -> & _ & Hn).
    destruct (IH _ _ _ Hn) as (c & w' & -> & Hp).
    exists c, (w1 ++ w'). split; [now rewrite app_assoc | exact Hp].
Qed.

(** A pattern that passes [lastPrintable] matches non-empty strings that
    end with a printable character. *)
Lemma lastPrintable_sound ic ml : forall r b w t,
  lastPrintable r = true -> lang ic ml r b w t ->
  exists c w', w = w' ++ [c] /\ printable c = true.
Proof.
  induction r as [| a | | inv items | r1 IH1 r2 IH2 | r1 IH1 r2 IH2 | i r IH
                  | r IH mn mx greedy | | | p];
    intros b w t Hc L; cbn [lastPrintable lang] in Hc, L; try discriminate Hc.
  - destruct L as (c & -> & Hm). exists c, []. split; [reflexivity|].
    eapply canonicalize_printable; [exact Hc | exact Hm].
  - destruct inv; [discriminate Hc|].
    destruct L as (c & -> & Hm). exists c, []. split; [reflexivity|].
    eapply class_printable; [exact Hc | exact Hm].
  - destruct L as (w1 & w2 & -> & L1 & L2).
    destruct (IH2 _ _ _ Hc L2) as (c & w' & -> & Hp).
    exists c, (w1 ++ w'). split; [now rewrite app_assoc | exact Hp].
  - apply andb_true_iff in Hc. destruct Hc as [H1 H2].
    destruct L as [L | L]; [exact (IH1 _ _ _ H1 L) | exact (IH2 _ _ _ H2 L)].
  - exact (IH _ _ _ Hc L).
  - apply andb_true_iff in Hc. destruct Hc as [Hn Hc]. apply Nat.ltb_lt in Hn.
    destruct L as (extra & _ & Hi). destruct mn as [|mn]; [lia|].
    eapply iter_last; [|exact Hi]. intros b' w0 t'. apply IH, Hc.
Qed.

(** What [exec] returns is a match of the pattern. *)
Lemma exec_sound re str from r :
  exec re str from = Some r ->
  exists b t, lang (ignoreCase re) (multiline re) (pattern re) b (matched r) t.
Proof.
  unfold exec. destruct (Nat.ltb (List.length str) from); [discriminate|].
  intros H. apply search_leftmost in H.
  destruct H as (j & s & _ & Hm & -> & _).
  apply matchAt_sound in Hm. destruct Hm as (_ & _ & L & _).
  cbn [matched resultOf]. eauto.
Qed.

Lemma execLoop_In re str : forall fuel from ms mr,
  execLoop fuel re str from = Some ms -> In mr ms ->
  exists from', exec re str from' = Some mr.
Proof.
  induction fuel as [|fuel IH]; intros from ms mr H Hin; [discriminate H|].
  cbn [execLoop] in H. destruct (exec re str from) as [r|] eqn:E.
  - destruct (execLoop fuel re str (endIndex r)) as [more|] eqn:El;
      [|discriminate H].
    injection H as <-. destruct Hin as [<- | Hin]; [eauto|].
    eapply IH; [exact El | exact Hin].
  - injection H as <-. contradiction.
Qed.

Lemma collect_In fuel str entry : forall patterns l x,
  collect fuel patterns str entry = Some l -> In x l ->
  exists re mr from,
    In re patterns /\ exec re str from = Some mr /\ x = entry mr.
Proof.
  induction patterns as [|re patterns IH]; intros l x H Hin.
  - injection H as <-. contradiction.
  - cbn [collect] in H.
    destruct (execLoop fuel re str 0) as [ms|] eqn:El; [|discriminate H].
    destruct (collect fuel patterns str entry) as [more|] eqn:Ec;
      [|discriminate H].
    injection H as <-. apply in_app_or in Hin. destruct Hin as [Hin | Hin].
    + apply in_map_iff in Hin. destruct Hin as (mr & <- & Hmr).
      destruct (execLoop_In _ _ _ _ _ _ El Hmr) as (from' & He).
      exists re, mr, from'. split; [now left | split; [exact He | reflexivity]].
    + destruct (IH _ _ eq_refl Hin) as (re' & mr & from' & Hre & He & ->).
      exists re', mr, from'. split; [now right | split; [exact He | reflexivity]].
Qed.

Lemma skillPatterns_tidy :
  Forall (fun re => ignoreCase re = true /\
                    commaFree true (pattern re) = true /\
                    headPrintable (pattern re) = true /\
                    lastPrintable (pattern re) = true) skillPatterns.
Proof. repeat (apply Forall_cons; [repeat split|]). apply Forall_nil. Qed.

(** A skill of the fixed table, as it is pushed. *)
Lemma tableSkill_clean fuel str found x :
  collect fuel skillPatterns str skillEntry = Some found -> In x found ->
  x <> [] /\ trim x = x /\ ~ In 44%Z x.
Proof.
  intros H Hin. destruct (collect_In _ _ _ _ _ _ H Hin)
    as (re & mr & from & Hre & He & ->).
  pose proof skillPatterns_tidy as Ht. rewrite Forall_forall in Ht.
  destruct (Ht re Hre) as (Hic & Hc & Hh & Hl).
  apply exec_sound in He. destruct He as (b & t & L).
  destruct (headPrintable_sound _ _ _ _ _ _ Hh L) as (c & w' & E & Hp).
  destruct (lastPrintable_sound _ _ _ _ _ _ Hl L) as (d & w'' & E' & Hq).
  unfold skillEntry.
  assert (Htrim : trim (matched mr) = matched mr).
  { apply trim_unchanged.
    - exists c, w'. split; [exact E | now apply printable_not_space].
    - exists d, w''. split; [exact E' | now apply printable_not_space]. }
  rewrite Htrim. split; [rewrite E; discriminate|]. split; [exact Htrim|].
  rewrite Hic in L. eapply commaFree_sound; [exact Hc | exact L].
Qed.

Lemma skills_of_record maxArguments str r :
  parseResumeText maxArguments str = Some (Return r) ->
  exists found,
    collect (S (List.length str)) skillPatterns str skillEntry = Some found /\
    skills r = Some (Set_of (found ++ sectionSkills str)).
Proof.
  intros H.
  destruct (parseResumeText_returned maxArguments str r H)
    as (_ & n & degrees & found & lp & _ & _ & Hs & _ & ->).
  exists found. split; [exact Hs | reflexivity].
Qed.

End SkillFacts.
Import SkillFacts.

(** X22. Every entry of the [skills] of a parsed record is non-empty, has
    no white space at either end and holds no comma. *)
Theorem X22_skills_are_trimmed_and_comma_free
  (maxArguments : positive)
  (resumeText : jsstring) (r : PartialResume) (l : list jsstring) (skill : jsstring) :
  parseResumeText maxArguments resumeText = Some (Return r) ->
  skills r = Some l ->
  In skill l ->
  skill <> [] /\ trim skill = skill /\ ~ In 44%Z skill.
Proof.
  intros Hr Hs Hin. apply skills_of_record in Hr.
  destruct Hr as (found & Hc & Hk). rewrite Hk in Hs. injection Hs as <-.
  apply (proj1 (Set_of_In _ _)) in Hin. apply in_app_or in Hin.
  destruct Hin as [Hin | Hin].
  - eapply tableSkill_clean; [exact Hc | exact Hin].
  - destruct (sectionSkills_clean resumeText skill Hin) as (Hlen & Ht & Hsep).
    split; [intros ->; simpl in Hlen; lia|]. split; [exact Ht|].
    intros H44. rewrite Forall_forall in Hsep. specialize (Hsep _ H44).
    discriminate Hsep.
Qed.

Lemma X22_witness :
  lit "Ruby on Rails" <> [] /\ trim (lit "Ruby on Rails") = lit "Ruby on Rails" /\
  ~ In 44%Z (lit "Ruby on Rails").
Proof.
  eapply (X22_skills_are_trimmed_and_comma_free engineLimit
            (lit "Built shops with ruby on rails, Ruby on Rails and CI/CD")).
  - vm_compute. reflexivity.
  - reflexivity.
  - vm_compute. auto.
Defined.

Module SkillClickFacts.

Lemma Array_includes_In (l : list jsstring) (x : jsstring) :
  Array_includes l x = true <-> In x l.
Proof. apply Set_has_In. Qed.

(** After the click the skill is one of the titles of the field. *)
Lemma clicked_skill_listed currentValue skill :
  trim skill = skill -> ~ In 44%Z skill ->
  In skill (List.map trim (String_split (handleSkillClick currentValue skill) 44%Z)).
Proof.
  intros Ht Hc. unfold handleSkillClick.
  destruct currentValue as [|c v].
  - unfold String_split. rewrite splitOn_plain by exact Hc. left. exact Ht.
  - destruct (Array_includes _ skill) eqn:E; [now apply Array_includes_In|].
    unfold String_split.
    change ((c :: v) ++ lit ", " ++ skill)
      with ((c :: v) ++ 44%Z :: (32%Z :: skill)).
    rewrite splitOn_app, map_app. apply in_or_app. right.
    rewrite splitOn_plain by (intros [H | H]; [discriminate H | exact (Hc H)]).
    left. simpl rev. simpl app.
    change (trim (32%Z :: skill)) with (trim skill). exact Ht.
Qed.

End SkillClickFacts.
Import SkillClickFacts.

(** X23. Clicking a recommended skill that is non-empty, has no white space
    at either end and holds no comma (as every skill of a parsed record does)
    leaves the job title field with that skill among the titles the server
    reads from it, and clicking it once more changes nothing. *)
Theorem X23_clicking_a_skill_adds_it_once (currentValue skill : jsstring) :
  skill <> [] -> trim skill = skill -> ~ In 44%Z skill ->
  In skill (jobTitlesOf (handleSkillClick currentValue skill)) /\
  handleSkillClick (handleSkillClick currentValue skill) skill
  = handleSkillClick currentValue skill.
Proof.
  intros Hne Ht Hc.
  pose proof (clicked_skill_listed currentValue skill Ht Hc) as Hin. split.
  - unfold jobTitlesOf. apply filter_In. split; [exact Hin|].
    now destruct skill.
  - apply Array_includes_In in Hin.
    unfold handleSkillClick at 1.
    destruct (handleSkillClick currentValue skill) as [|c v] eqn:E.
    + unfold handleSkillClick in E. destruct currentValue; [contradiction|].
      destruct (Array_includes _ skill); [discriminate E|].
      destruct skill; discriminate E.
    + now rewrite Hin.
Qed.

Lemma X23_witness :
  In (lit "SQL") (jobTitlesOf (handleSkillClick (lit "Data Analyst") (lit "SQL"))) /\
  handleSkillClick (handleSkillClick (lit "Data Analyst") (lit "SQL")) (lit "SQL")
  = lit "Data Analyst, SQL".
Proof.
  apply (X23_clicking_a_skill_adds_it_once (lit "Data Analyst") (lit "SQL")).
  - discriminate.
  - reflexivity.
  - vm_compute. intros [H | [H | [H | []]]]; discriminate H.
Defined.

(* ================================================================== *)
(** * The skills matched against a job                                *)
(* ================================================================== *)

Module MatchFacts.
Import ClientJobDetails.

Lemma whiteSpaceRe_pattern :
  pattern whiteSpaceRe = Repeat (Class false [CsSpace true]) 1 None true.
Proof. reflexivity. Qed.

Lemma whiteSpace_attempt b c t :
  isWhiteSpace c = true -> matchAt whiteSpaceRe b (c :: t) <> None.
Proof.
  intros Hc. unfold matchAt. rewrite whiteSpaceRe_pattern.
  cbn [ignoreCase multiline whiteSpaceRe].
  eapply m_plus_class_total.
  - reflexivity.
  - unfold class_mem. cbn [existsb cset_mem xorb]. now rewrite Hc.
  - discriminate.
Qed.

(** The words of a description hold no white space. *)
Lemma jobSkills_words toLowerCase description :
  Forall (Forall (fun c => isWhiteSpace c = false))
         (jobSkillsOf toLowerCase description).
Proof.
  unfold jobSkillsOf. destruct description as [d|]; [|constructor].
  apply split_clean; [rewrite whiteSpaceRe_pattern; simpl; lia|].
  apply whiteSpace_attempt.
Qed.

Lemma occursIn_Forall (P : char16 -> Prop) p s :
  occursIn p s -> Forall P s -> Forall P p.
Proof.
  intros (a & b & ->) H. apply Forall_app in H. destruct H as [_ H].
  apply Forall_app in H. tauto.
Qed.

End MatchFacts.
Import ClientJobDetails MatchFacts.

(** X24. A resume skill counts as matching a job only if it is one of the
    resume skills and its lower-case form holds no white space: the
    description is compared word by word, so a skill of several words is
    never counted, whatever the description says. *)
Theorem X24_skills_of_several_words_never_match
  (toLowerCase : jsstring -> jsstring) (description : option jsstring)
  (skills : list jsstring) (skill : jsstring) :
  In skill (matchingSkills toLowerCase description skills) ->
  In skill skills /\
  Forall (fun c => isWhiteSpace c = false) (toLowerCase skill).
Proof.
  unfold matchingSkills. intros H. apply filter_In in H.
  destruct H as [Hin Hex]. split; [exact Hin|].
  apply existsb_exists in Hex. destruct Hex as (word & Hw & Hi).
  apply includes_occursIn in Hi.
  pose proof (jobSkills_words toLowerCase description) as Hws.
  rewrite Forall_forall in Hws.
  eapply occursIn_Forall; [exact Hi | exact (Hws word Hw)].
Qed.

Lemma X24_witness :
  In (lit "sql") [lit "sql"; lit "sql server"] /\
  Forall (fun c => isWhiteSpace c = false) (asciiLower (lit "sql")).
Proof.
  apply (X24_skills_of_several_words_never_match asciiLower
           (Some (lit "We use SQL Server and MySQL daily"))
           [lit "sql"; lit "sql server"]).
  vm_compute. auto.
Defined.

(* ================================================================== *)
(** * The text of a plain-text file, whatever its bytes               *)
(* ================================================================== *)

Module LossyFacts.
Local Open Scope Z_scope.

Lemma between_iff lo hi x : between lo hi x = true <-> lo <= x <= hi.
Proof. unfold between. rewrite andb_true_iff, !Z.leb_le. tauto. Qed.

Lemma lead_scalar b :
  Forall scalar (fst (lead b)) /\ pending (snd (lead b)).
Proof.
  unfold lead.
  destruct (between 0 127 b) eqn:E0.
  { apply between_iff in E0. split; [|exact I].
    constructor; [|constructor]. unfold scalar. lia. }
  destruct (between 194 223 b) eqn:E1.
  { apply between_iff in E1. split; [constructor|].
    cbn. intros b1 H1. unfold scalar. lia. }
  destruct (between 224 239 b) eqn:E2.
  { apply between_iff in E2. split; [constructor|].
    cbn. intros b1 b2 H1 H2. unfold scalar.
    destruct (Z.eqb_spec b 224), (Z.eqb_spec b 237); lia. }
  destruct (between 240 244 b) eqn:E3.
  { apply between_iff in E3. split; [constructor|].
    cbn. split; [reflexivity|]. intros b1 b2 b3 H1 H2 H3. unfold scalar.
    destruct (Z.eqb_spec b 240), (Z.eqb_spec b 244); lia. }
  split; [|exact I]. constructor; [|constructor]. unfold scalar, REPLACEMENT. lia.
Qed.

Lemma replacement_scalar : scalar REPLACEMENT.
Proof. unfold scalar, REPLACEMENT. lia. Qed.

(** The decoder emits scalar values only. *)
Lemma decode_scalar : forall bytes st,
  pending st -> Forall scalar (decode bytes st).
Proof.
  induction bytes as [|b t IH]; intros st Hp.
  - cbn [decode]. destruct (needed st); [constructor|].
    constructor; [apply replacement_scalar | constructor].
  - cbn [decode]. destruct (needed st) as [|n] eqn:En.
    + pose proof (lead_scalar b) as [Hl Hs]. destruct (lead b) as [out st'].
      apply Forall_app. split; [exact Hl | apply IH, Hs].
    + destruct (between (lower st) (upper st) b) eqn:Eb.
      * apply between_iff in Eb. unfold pending in Hp. rewrite En in Hp.
        destruct n as [|[|n]].
        -- constructor; [apply Hp, Eb | apply IH; exact I].
        -- apply IH. cbn. intros b1 H1. apply Hp; [exact Eb | exact H1].
        -- destruct Hp as [H3 Hp]. assert (n = 0%nat) as -> by lia.
           apply IH. cbn. intros b1 b2 H1 H2. apply Hp; assumption.
      * pose proof (lead_scalar b) as [Hl Hs]. destruct (lead b) as [out st'].
        constructor; [apply replacement_scalar|].
        apply Forall_app. split; [exact Hl | apply IH, Hs].
Qed.

End LossyFacts.
Import LossyFacts.

(** X25. Whatever bytes a plain-text file holds, the text extracted from it
    is made of Unicode scalar values only, and it survives being stored as
    UTF-8: encoding the text and extracting again gives the same text. *)
Theorem X25_plain_text_is_stable_under_reencoding
  (pdf mammoth : Buffer -> completion jsstring) (buffer : Buffer) :
  extractTextFromFile pdf mammoth buffer MIME_TXT
  = ([], Return (flat_map utf16 (decode buffer idle))) /\
  Forall scalar (decode buffer idle) /\
  extractTextFromFile pdf mammoth
    (encode (codePoints (Utf8.toString buffer))) MIME_TXT
  = extractTextFromFile pdf mammoth buffer MIME_TXT.
Proof.
  assert (Hs : Forall scalar (decode buffer idle)) by (apply decode_scalar; exact I).
  assert (Hx : forall b, extractTextFromFile pdf mammoth b MIME_TXT
                         = ([], Return (Utf8.toString b))).
  { intros b. unfold extractTextFromFile.
    change (str_eqb MIME_TXT MIME_PDF) with false.
    change (str_eqb MIME_TXT MIME_DOCX) with false.
    change (str_eqb MIME_TXT MIME_TXT) with true. reflexivity. }
  split; [apply Hx|]. split; [exact Hs|]. rewrite !Hx. do 2 f_equal.
  unfold Utf8.toString at 2. rewrite codePoints_utf16 by exact Hs.
  now apply toString_encode.
Qed.

(* ================================================================== *)
(** * The sentinel of a plain-text file                               *)
(* ================================================================== *)

Module SentinelFacts.
Local Open Scope Z_scope.





End SentinelFacts.
Import SentinelFacts.




(* ================================================================== *)
(** * The source of a job                                             *)
(* ================================================================== *)

Module SourceFacts.

(** A greedy run over a class, before a continuation that accepts every
    state, reads as far as the class goes. *)
Lemma greedy_class_run (ok : char16 -> bool) : forall ws x name room,
  rest x = ws ++ name -> caps x = [] ->
  Forall (fun c => ok c = true) ws ->
  match name with
  | [] => True
  | c :: _ => ok c = false
  end ->
  List.length ws <= room ->
  optionalReps (fun y d => step ok (resetCaps [] y) d)
               true (fun s => Some s) room None x
  = Some {| prev := lastOf (prev x) ws; rest := name;
            pos := pos x + List.length ws; caps := [] |}.
Proof.
  induction ws as [|c ws IH]; intros x name room Hr Hc Hw Hn Hl.
  - simpl in Hr. destruct x as [p r n cs]. cbn [rest caps prev pos] in *.
    subst r cs. cbn [lastOf fold_left List.length]. rewrite Nat.add_0_r.
    destruct room as [|room]; [reflexivity|].
    cbn [optionalReps option_map]. unfold step.
    cbn [resetCaps rest].
    destruct name as [|c name]; [reflexivity|]. now rewrite Hn.
  - destruct room as [|room]; [simpl in Hl; lia|].
    inversion Hw as [|? ? Hc1 Hw']; subst.
    cbn [optionalReps option_map]. unfold step at 1.
    cbn [resetCaps rest pos caps prev]. rewrite Hr. cbn [app]. rewrite Hc1.
    rewrite Hc. cbn [filter].
    assert (Hlt : Nat.ltb (pos x) (S (pos x)) = true) by (apply Nat.ltb_lt; lia).
    rewrite Hlt.
    rewrite (IH {| prev := Some c; rest := ws ++ name; pos := S (pos x); caps := [] |}
                name room eq_refl eq_refl Hw' Hn) by (simpl in Hl; lia).
    cbn [prev pos List.length]. do 2 f_equal. lia.
Qed.

Lemma viaRe_pattern :
  pattern viaRe =
  Seq (Seq (Seq (Seq LineStart (Chr 118%Z)) (Chr 105%Z)) (Chr 97%Z)) (plus SPACE).
Proof. reflexivity. Qed.

Lemma class_space_iff ic c :
  class_mem ic false [CsSpace true] c = isWhiteSpace c.
Proof.
  unfold class_mem. cbn [existsb cset_mem xorb]. now destruct (isWhiteSpace c).
Qed.

(** The attempt of the "via" expression on "via", white space and a name. *)
Lemma viaRe_attempt (v i a w : char16) (ws name : jsstring) :
  List.map (canonicalize true) [v; i; a] = lit "VIA" ->
  forallb isWhiteSpace (w :: ws) = true ->
  match name with
  | [] => True
  | c :: _ => isWhiteSpace c = false
  end ->
  matchAt viaRe None ([v; i; a] ++ (w :: ws) ++ name)
  = Some {| prev := lastOf (Some w) ws; rest := name;
            pos := 4 + List.length ws; caps := [] |}.
Proof.
  intros Hvia Hws Hn. injection Hvia as Hv Hi Ha.
  cbn [forallb] in Hws. apply andb_true_iff in Hws. destruct Hws as [Hw Hws].
  unfold matchAt. rewrite viaRe_pattern. cbn [ignoreCase multiline viaRe].
  unfold plus, SPACE. rewrite !m_Seq, m_LineStart. cbn [atLineStart prev app].
  cbn [m]. unfold step at 1. cbn [rest].
  change (canonicalize true 118%Z) with 86%Z. rewrite Hv. cbn [Z.eqb Pos.eqb].
  unfold step at 1. cbn [rest].
  change (canonicalize true 105%Z) with 73%Z. rewrite Hi. cbn [Z.eqb Pos.eqb].
  unfold step at 1. cbn [rest].
  change (canonicalize true 97%Z) with 65%Z. rewrite Ha. cbn [Z.eqb Pos.eqb].
  cbn [requiredReps]. unfold step at 1. cbn [resetCaps rest groupsOf filter caps].
  rewrite class_space_iff, Hw. cbn [pos prev].
  rewrite (greedy_class_run (class_mem true false [CsSpace true]) ws
             {| prev := Some w; rest := ws ++ name; pos := 4; caps := [] |}
             name _ eq_refl eq_refl).
  - reflexivity.
  - apply Forall_forall. intros c Hc. rewrite class_space_iff.
    rewrite forallb_forall in Hws. now apply Hws.
  - destruct name as [|c name]; [exact I|]. now rewrite class_space_iff.
  - cbn [rest]. rewrite length_app. lia.
Qed.

(** A match of the "via" expression starts at index 0. *)
Lemma viaRe_at_start str r :
  String_match str viaRe = Some r -> index r = 0.
Proof.
  intros H. apply String_match_sound in H.
  destruct H as (pre & suf & _ & Hi & _ & L & _). rewrite Hi.
  rewrite viaRe_pattern in L. cbn [lang] in L.
  destruct L as (w1 & w2 & _ & (w3 & w4 & _ & (w5 & w6 & _ & (w7 & w8 & _
                 & (_ & Hs) & _) & _) & _) & _).
  cbn [multiline viaRe] in Hs. unfold atLineStart in Hs. cbn [prev andb] in Hs.
  destruct pre as [|c pre _] using rev_ind; [reflexivity|].
  rewrite lastOf_snoc in Hs. discriminate Hs.
Qed.

End SourceFacts.
Import SourceFacts.

(** X26. The source of a job is what is left of [via] once a leading "via"
    (in any case) and the white space after it are cut off: for [via] made of
    "via", one or more white space and a name that does not begin with white
    space, the source is that name.  Nothing but a beginning of [via] is ever
    cut, and an empty [via] gives "Google Jobs". *)
Theorem X26_source_drops_the_via_prefix
  (v i a w : char16) (ws name via : jsstring) :
  (List.map (canonicalize true) [v; i; a] = lit "VIA" ->
   forallb isWhiteSpace (w :: ws) = true ->
   match name with
   | [] => True
   | c :: _ => isWhiteSpace c = false
   end ->
   sourceOf ([v; i; a] ++ (w :: ws) ++ name) = name) /\
  (via <> [] -> exists n, sourceOf via = skipn n via) /\
  sourceOf [] = lit "Google Jobs".
Proof.
  split; [|split; [|reflexivity]].
  - intros Hvia Hws Hn.
    change (sourceOf ([v; i; a] ++ (w :: ws) ++ name))
      with (String_remove ([v; i; a] ++ (w :: ws) ++ name) viaRe).
    unfold String_remove.
    rewrite (String_match_first viaRe _ _ (viaRe_attempt v i a w ws name Hvia Hws Hn)).
    cbn [index endIndex resultOf pos firstn Nat.add app skipn].
    rewrite skipn_app, skipn_all, Nat.sub_diag. reflexivity.
  - intros Hne. destruct via as [|c via']; [contradiction|].
    unfold sourceOf, String_remove.
    destruct (String_match (c :: via') viaRe) as [r|] eqn:E.
    + exists (endIndex r). now rewrite (viaRe_at_start _ _ E).
    + now exists 0.
Qed.

Lemma X26_witness :
  sourceOf (lit "Via  LinkedIn") = lit "LinkedIn" /\
  sourceOf (lit "Indeed") = lit "Indeed".
Proof.
  split.
  - apply (proj1 (X26_source_drops_the_via_prefix 86%Z 105%Z 97%Z 32%Z [32%Z]
                    (lit "LinkedIn") [])); [reflexivity | reflexivity | reflexivity].
  - reflexivity.
Defined.

(* ================================================================== *)
(** * Greedy runs: what backtracking comes to                         *)
(* ================================================================== *)

Module GreedyFacts.

Lemma greedy_scan (ok : char16 -> bool) (k : cont) t : forall w p n room,
  Forall (fun c => ok c = true) w ->
  match t with [] => True | c :: _ => ok c = false end ->
  List.length w <= room ->
  optionalReps (fun y d => step ok (resetCaps [] y) d) true k room None
    (stateAt p (w ++ t) n)
  = greedyScan k p n w t.
Proof.
  induction w as [|c w IH]; intros p n room Hw Ht Hl.
  - cbn [app greedyScan]. destruct room as [|room]; [reflexivity|].
    cbn [optionalReps option_map]. unfold step. cbn [resetCaps rest stateAt].
    destruct t as [|c t]; [reflexivity|]. now rewrite Ht.
  - destruct room as [|room]; [simpl in Hl; lia|].
    inversion Hw as [|? ? Hc Hw']; subst.
    cbn [optionalReps option_map greedyScan]. unfold step at 1.
    cbn [resetCaps rest pos caps prev stateAt app filter]. rewrite Hc.
    assert (Hlt : Nat.ltb n (S n) = true) by (apply Nat.ltb_lt; lia).
    rewrite Hlt.
    change {| prev := Some c; rest := w ++ t; pos := S n; caps := [] |}
      with (stateAt (Some c) (w ++ t) (S n)).
    rewrite (IH (Some c) (S n) room Hw' Ht) by (simpl in Hl; lia).
    reflexivity.
Qed.

(** One or more code units of a class, greedily. *)
Lemma plus_scan ic ml inv items (k : cont) p n c w t :
  class_mem ic inv items c = true ->
  Forall (fun c => class_mem ic inv items c = true) w ->
  match t with [] => True | c :: _ => class_mem ic inv items c = false end ->
  m ic ml (Repeat (Class inv items) 1 None true) (stateAt p (c :: w ++ t) n) k
  = greedyScan k (Some c) (S n) w t.
Proof.
  intros Hc Hw Ht. cbn [m requiredReps groupsOf option_map]. unfold step at 1.
  cbn [resetCaps rest pos caps prev stateAt filter]. rewrite Hc.
  change {| prev := Some c; rest := w ++ t; pos := S n; caps := [] |}
    with (stateAt (Some c) (w ++ t) (S n)).
  apply greedy_scan; [assumption | assumption |].
  cbn [rest stateAt]. rewrite length_app. lia.
Qed.

Lemma greedyScan_app (k : cont) t : forall w1 w2 p n,
  greedyScan k p n (w1 ++ w2) t
  = match greedyScan k (lastOf p w1) (n + List.length w1) w2 t with
    | Some z => Some z
    | None => greedyScan k p n w1 (w2 ++ t)
    end.
Proof.
  induction w1 as [|c w1 IH]; intros w2 p n.
  - cbn [app lastOf fold_left List.length greedyScan]. rewrite Nat.add_0_r.
    destruct (greedyScan k p n w2 t) eqn:E; [reflexivity|]. symmetry.
    destruct w2 as [|c w2]; [exact E|].
    cbn [greedyScan] in E. cbn [app].
    destruct (greedyScan k (Some c) (S n) w2 t); [discriminate E | exact E].
  - cbn [app greedyScan]. rewrite IH. cbn [List.length].
    replace (n + S (List.length w1)) with (S n + List.length w1) by lia.
    change (lastOf p (c :: w1)) with (lastOf (Some c) w1).
    rewrite <- app_assoc.
    destruct (greedyScan k (lastOf (Some c) w1) (S n + List.length w1) w2 t);
      reflexivity.
Qed.

(** A scan finds nothing exactly when the continuation refuses at every
    place, and what it finds is what the continuation gives at the last
    place where it accepts. *)
Lemma greedyScan_none (k : cont) t : forall w p n,
  greedyScan k p n w t = None <->
  forall a b, w = a ++ b -> k (stateAt (lastOf p a) (b ++ t) (n + List.length a)) = None.
Proof.
  induction w as [|c w IH]; intros p n.
  - cbn [greedyScan]. split.
    + intros H a b E. destruct a; [|discriminate E]. destruct b; [|discriminate E].
      cbn [lastOf fold_left List.length app]. now rewrite Nat.add_0_r.
    + intros H. specialize (H [] [] eq_refl).
      cbn [lastOf fold_left List.length app] in H. now rewrite Nat.add_0_r in H.
  - cbn [greedyScan]. split.
    + intros H a b E.
      destruct (greedyScan k (Some c) (S n) w t) eqn:Es; [discriminate H|].
      destruct a as [|a0 a].
      * cbn [app] in E. subst b. cbn [lastOf fold_left List.length].
        now rewrite Nat.add_0_r.
      * injection E as <- E. change (lastOf p (c :: a)) with (lastOf (Some c) a).
        cbn [List.length]. replace (n + S (List.length a)) with (S n + List.length a) by lia.
        apply (proj1 (IH (Some c) (S n)) Es a b E).
    + intros H.
      assert (Hs : greedyScan k (Some c) (S n) w t = None).
      { apply IH. intros a b E. specialize (H (c :: a) b ltac:(now rewrite E)).
        cbn [List.length] in H.
        replace (n + S (List.length a)) with (S n + List.length a) in H by lia.
        exact H. }
      rewrite Hs. specialize (H [] (c :: w) eq_refl).
      cbn [lastOf fold_left List.length app] in H. now rewrite Nat.add_0_r in H.
Qed.

Lemma greedyScan_some (k : cont) t : forall w p n z,
  greedyScan k p n w t = Some z ->
  exists a b, w = a ++ b /\
    k (stateAt (lastOf p a) (b ++ t) (n + List.length a)) = Some z.
Proof.
  induction w as [|c w IH]; intros p n z H.
  - exists [], []. split; [reflexivity|]. cbn [greedyScan] in H.
    cbn [lastOf fold_left List.length app]. now rewrite Nat.add_0_r.
  - cbn [greedyScan] in H.
    destruct (greedyScan k (Some c) (S n) w t) as [z'|] eqn:Es.
    + injection H as ->. destruct (IH _ _ _ Es) as (a & b & E & Hk).
      exists (c :: a), b. split; [now rewrite E|].
      cbn [List.length]. replace (n + S (List.length a)) with (S n + List.length a) by lia.
      exact Hk.
    + exists [], (c :: w). split; [reflexivity|].
      cbn [lastOf fold_left List.length app]. now rewrite Nat.add_0_r.
Qed.

End GreedyFacts.
Import GreedyFacts.

(* ================================================================== *)
(** * The e-mail address                                              *)
(* ================================================================== *)

Module EmailFacts.
Import GreedyFacts.

Lemma leading_trailing ok : forall s, s = leading ok s ++ trailing ok s.
Proof.
  induction s as [|c s IH]; [reflexivity|]. cbn [leading trailing].
  destruct (ok c); [cbn [app]; now rewrite <- IH | reflexivity].
Qed.

Lemma leading_ok ok : forall s, Forall (fun c => ok c = true) (leading ok s).
Proof.
  induction s as [|c s IH]; [constructor|]. cbn [leading].
  destruct (ok c) eqn:E; [now constructor | constructor].
Qed.

Lemma trailing_head ok : forall s,
  match trailing ok s with [] => True | c :: _ => ok c = false end.
Proof.
  induction s as [|c s IH]; [exact I|]. cbn [trailing].
  destruct (ok c) eqn:E; [exact IH | exact E].
Qed.

Lemma class_letter_eq c :
  class_mem false false [CsRange 97%Z 122%Z; CsRange 65%Z 90%Z] c = asciiLetter c.
Proof.
  unfold class_mem, asciiLetter, isLower, isUpper.
  cbn [existsb cset_mem andb xorb]. now rewrite !orb_false_r.
Qed.

Lemma class_domain_eq c :
  class_mem false false [CsWord true; CsChar 46%Z; CsChar 45%Z] c = domainChar c.
Proof.
  unfold class_mem, domainChar. cbn [existsb cset_mem canonicalize andb xorb].
  rewrite !(Z.eqb_sym c). destruct (isWordChar c); reflexivity.
Qed.

(** The dot and the letters: refused where no dot and two letters stand,
    and read up to the end of the letters where they do. *)
Lemma tld_refuses p r n (k : cont) :
  tldAt r = false -> m false false tldRe (stateAt p r n) k = None.
Proof.
  intros H. unfold tldRe. cbn [m requiredReps groupsOf]. unfold step.
  cbn [rest stateAt canonicalize andb resetCaps prev pos caps filter].
  destruct r as [|d r]; [reflexivity|].
  rewrite (Z.eqb_sym 46 d). destruct (Z.eqb d 46) eqn:Ed; [|reflexivity].
  destruct r as [|a r]; [reflexivity|]. rewrite class_letter_eq.
  destruct (asciiLetter a) eqn:Ea; [|reflexivity].
  destruct r as [|b r]; [reflexivity|]. cbn [rest]. rewrite class_letter_eq.
  destruct (asciiLetter b) eqn:Eb; [|reflexivity].
  cbn [tldAt] in H. rewrite Ed, Ea, Eb in H. discriminate H.
Qed.

Lemma tld_attempt p a b r n :
  asciiLetter a = true -> asciiLetter b = true ->
  m false false tldRe (stateAt p (46%Z :: a :: b :: r) n) (fun z => Some z)
  = Some (stateAt (lastOf (Some b) (leading asciiLetter r)) (trailing asciiLetter r)
              (n + 3 + List.length (leading asciiLetter r))).
Proof.
  intros Ha Hb. unfold tldRe. cbn [m requiredReps groupsOf option_map].
  unfold step at 1. cbn [rest stateAt canonicalize andb].
  change (Z.eqb 46 46) with true. cbv iota.
  unfold step at 1. cbn [rest resetCaps prev pos caps filter].
  rewrite class_letter_eq, Ha.
  unfold step at 1. cbn [rest resetCaps prev pos caps filter].
  rewrite class_letter_eq, Hb. cbn [rest].
  rewrite (greedy_class_run _ (leading asciiLetter r) _ (trailing asciiLetter r)).
  - unfold stateAt. cbn [prev pos]. f_equal. f_equal. lia.
  - cbn [rest]. apply leading_trailing.
  - reflexivity.
  - eapply Forall_impl; [|apply (leading_ok asciiLetter)].
    intros c Hc. now rewrite class_letter_eq.
  - pose proof (trailing_head asciiLetter r) as H.
    destruct (trailing asciiLetter r); [exact I|]. now rewrite class_letter_eq.
  - cbn [rest]. rewrite (leading_trailing asciiLetter r) at 2. rewrite length_app. lia.
Qed.





Lemma emailRe_pattern :
  pattern emailRe
  = Seq (Seq (Seq localRe domainRe) (Chr 46%Z))
        (Repeat (Class false [CsRange 97%Z 122%Z; CsRange 65%Z 90%Z]) 2 None true).
Proof. reflexivity. Qed.

(** The local part and the at-sign of the address are read in one way
    only. *)
Lemma local_attempt b t (K : cont) :
  m false false localRe (stateAt b (lit "jane.doe@" ++ t) 0) K
  = K (stateAt (Some 64%Z) t 9).
Proof.
  destruct (K (stateAt (Some 64%Z) t 9)) as [z|] eqn:E;
    vm_compute; vm_compute in E; now rewrite E.
Qed.

Lemma laterTld_false : forall suf,
  laterTld suf = false ->
  forall a b, leading domainChar suf = a ++ b ->
    tldAt (b ++ trailing domainChar suf) = false.
Proof.
  induction suf as [|c t IH]; intros H a b E.
  - destruct a; [|discriminate E]. destruct b; [|discriminate E]. reflexivity.
  - cbn [laterTld] in H. apply orb_false_iff in H. destruct H as [Ht Hl].
    cbn [leading trailing] in *. destruct (domainChar c) eqn:Ec.
    + cbn [andb] in Hl. destruct a as [|a0 a].
      * cbn [app] in E. subst b. cbn [app]. now rewrite <- leading_trailing.
      * injection E as _ E. now apply (IH Hl a b).
    + destruct a; [|discriminate E]. destruct b; [|discriminate E]. exact Ht.
Qed.

Lemma laterTld_true : forall suf,
  laterTld suf = true ->
  exists a b, leading domainChar suf = a ++ b /\
    tldAt (b ++ trailing domainChar suf) = true.
Proof.
  induction suf as [|c t IH]; intros H; [discriminate H|].
  cbn [laterTld] in H. apply orb_true_iff in H. destruct H as [H|H].
  - exists [], (leading domainChar (c :: t)). split; [reflexivity|].
    now rewrite <- leading_trailing.
  - apply andb_true_iff in H. destruct H as [Hc Hl].
    destruct (IH Hl) as (a & b & E & Ht).
    exists (c :: a), b. cbn [leading trailing]. rewrite Hc. split; [now rewrite E | exact Ht].
Qed.

Lemma tldAt_head d r : d <> 46%Z -> tldAt (d :: r) = false.
Proof.
  intros H. apply Z.eqb_neq in H. destruct r as [|a [|b r]]; cbn [tldAt];
    now rewrite ?H.
Qed.

Lemma tld_accepts p r n :
  tldAt r = true ->
  exists z, m false false tldRe (stateAt p r n) (fun z => Some z) = Some z /\
            n + 3 <= pos z.
Proof.
  intros H. destruct r as [|d [|a [|b r]]]; try discriminate H.
  cbn [tldAt] in H. apply andb_true_iff in H. destruct H as [H Hb].
  apply andb_true_iff in H. destruct H as [Hd Ha]. apply Z.eqb_eq in Hd. subst d.
  eexists. split; [now apply tld_attempt|]. cbn [pos stateAt]. lia.
Qed.

(** The attempt at the address: it always succeeds, and it ends with the
    address exactly when what follows does not make it run on. *)
Lemma email_attempt b suf :
  exists s,
    matchAt emailRe b (address ++ suf) = Some s /\
    20 <= pos s /\
    (pos s = 20 <-> goesOn suf = false).
Proof.
  unfold matchAt.
  change (m (ignoreCase emailRe) (multiline emailRe) (pattern emailRe)
            {| prev := b; rest := address ++ suf; pos := 0; caps := [] |}
            (fun s => Some s))
    with (m false false localRe (stateAt b (lit "jane.doe@" ++ lit "example.com" ++ suf) 0)
            (fun s1 => m false false domainRe s1
               (fun s2 => m false false tldRe s2 (fun z => Some z)))).
  rewrite local_attempt.
  set (D := leading domainChar suf). set (T := trailing domainChar suf).
  assert (Esuf : suf = D ++ T) by apply leading_trailing.
  replace (lit "example.com" ++ suf)
    with (101%Z :: (lit "xample.com" ++ D) ++ T)
    by (rewrite <- app_assoc, <- Esuf; reflexivity).
  unfold domainRe. rewrite plus_scan.
  2: { reflexivity. }
  2: { apply Forall_app. split.
       - repeat (constructor; [reflexivity|]). constructor.
       - eapply Forall_impl; [|apply (leading_ok domainChar)].
         intros c Hc. now rewrite class_domain_eq. }
  2: { pose proof (trailing_head domainChar suf) as H. fold T in H.
       destruct T; [exact I|]. now rewrite class_domain_eq. }
  rewrite greedyScan_app.
  change (lastOf (Some 101%Z) (lit "xample.com")) with (Some 109%Z).
  change (10 + List.length (lit "xample.com")) with 20.
  destruct (laterTld suf) eqn:El.
  - (* a later dot and two letters: the match runs on to them *)
    destruct (laterTld_true suf El) as (a & b' & E & Ht).
    fold D T in E, Ht.
    destruct (tld_accepts (lastOf (Some 109%Z) a) (b' ++ T) (20 + List.length a) Ht)
      as (z0 & Hz0 & _).
    destruct (greedyScan _ (Some 109%Z) 20 D T) as [z|] eqn:Es.
    + exists z. split; [reflexivity|].
      apply greedyScan_some in Es. destruct Es as (a1 & b1 & _ & Hk).
      assert (Hp : 20 + List.length a1 + 3 <= pos z).
      { apply m_inv in Hk. destruct Hk as (y & Hy & (Hadv & _) & _).
        injection Hy as <-. cbn [minLen tldRe pos stateAt] in Hadv. lia. }
      split; [lia|]. unfold goesOn. rewrite El, orb_true_r.
      split; [lia | discriminate].
    + exfalso. rewrite greedyScan_none in Es. specialize (Es a b' E).
      rewrite Es in Hz0. discriminate Hz0.
  - (* none: the scan comes back to the dot before "com" *)
    assert (Es : greedyScan (fun s2 => m false false tldRe s2 (fun z => Some z))
                   (Some 109%Z) 20 D T = None).
    { apply greedyScan_none. intros a b' E. apply tld_refuses.
      now apply (laterTld_false suf El a b'). }
    rewrite Es. rewrite <- Esuf.
    change (lit "xample.com") with [120; 97; 109; 112; 108; 101; 46; 99; 111; 109]%Z.
    cbn [greedyScan app]. cbv beta.
    rewrite (tld_refuses _ suf)
      by (rewrite Esuf at 1; apply (laterTld_false suf El [] D eq_refl)).
    rewrite !tld_refuses by (apply tldAt_head; discriminate).
    change (stateAt (Some 101%Z) (46%Z :: 99%Z :: 111%Z :: 109%Z :: suf) 16)
      with (stateAt (Some 101%Z) (46%Z :: 99%Z :: 111%Z :: (109%Z :: suf)) 16).
    rewrite tld_attempt by reflexivity.
    eexists. split; [reflexivity|]. cbn [pos stateAt leading].
    change (asciiLetter 109%Z) with true. cbv iota. cbn [List.length].
    split; [lia|]. unfold goesOn. rewrite El, orb_false_r.
    destruct suf as [|c suf']; [cbn; split; [reflexivity | lia]|].
    cbn [leading]. destruct (asciiLetter c); cbn [List.length];
      split; intros H; (reflexivity || lia || discriminate H).
Qed.

End EmailFacts.
Import EmailFacts.

(** C6 (as amended). In every record that [parseResumeText] returns,
    [email] is the first match of the e-mail expression, the leftmost place
    where an attempt succeeds: a substring of the text of the shape
    local@domain.tld, kept as it stands; it is absent when there is no match.
    When the text holds "jane.doe@example.com" at a place before which no
    attempt succeeds, the first match begins there and begins with the
    address, and it is exactly the address if and only if what follows does
    not make the match run on: it neither begins with a letter nor leads,
    through code units that can stand in a domain, to a dot and two
    letters.  [email] is that match. *)
Theorem C6_email_of_first_match :
  (forall maxArguments text,
     ((Z.of_nat (List.length (sectionSkills text)) <= Z.pos maxArguments)%Z ->
      exists r, parseResumeText maxArguments text = Some (Return r)) /\
     (forall r, parseResumeText maxArguments text = Some (Return r) ->
      match String_match text emailRe with
      | None => email r = None
      | Some found =>
          noMatchBefore emailRe None text (index found) /\
          (exists pre suf,
             text = pre ++ matched found ++ suf /\ index found = List.length pre) /\
          addressShape (matched found) /\
          email r = Some (matched found)
      end)) /\
  (forall pre suf,
     noMatchBefore emailRe None (pre ++ address ++ suf) (List.length pre) ->
     exists found more,
       String_match (pre ++ address ++ suf) emailRe = Some found /\
       index found = List.length pre /\
       matched found = address ++ more /\
       (matched found = address <-> goesOn suf = false) /\
       forall maxArguments r,
         parseResumeText maxArguments (pre ++ address ++ suf) = Some (Return r) ->
         email r = Some (matched found)).
Proof.
  split.
  - intros maxArguments text. split.
    + intros Hfit.
      destruct (parseResumeText_fits maxArguments text Hfit)
        as (n & degrees & skills & lp & _ & _ & _ & _ & Hr).
      eexists. exact Hr.
    + intros r Hr.
      destruct (parseResumeText_returned maxArguments text r Hr)
        as (_ & n & degrees & skills & lp & _ & _ & _ & _ & ->).
      cbn [email].
      destruct (String_match text emailRe) as [found|] eqn:E; [|reflexivity].
      destruct (emailRe_match text found E) as (Hshape & Htrim & Hsub).
      split; [now apply String_match_leftmost|].
      split; [exact Hsub|]. split; [exact Hshape|].
      cbn [option_map]. now rewrite Htrim.
  - intros pre suf H.
    destruct (email_attempt
                (unitBefore None (pre ++ address ++ suf) (List.length pre)) suf)
      as (s & Hs & Hge & Hpos).
    pose proof (String_match_at emailRe pre (address ++ suf) s H Hs) as Hm.
    pose proof (matchAt_sound _ _ _ _ Hs) as (_ & Hlen & _).
    assert (Hmatched : firstn (pos s) (address ++ suf)
                       = address ++ firstn (pos s - 20) suf).
    { rewrite firstn_app. f_equal. apply firstn_all2. exact Hge. }
    exists (resultOf emailRe (List.length pre) (address ++ suf) s),
           (firstn (pos s - 20) suf).
    split; [exact Hm|]. split; [reflexivity|]. cbn [matched resultOf].
    split; [exact Hmatched|]. split.
    + rewrite <- Hpos. split.
      * intros E. rewrite E in Hlen. exact (eq_sym Hlen).
      * intros E. rewrite Hmatched, E, Nat.sub_diag. apply app_nil_r.
    + intros maxArguments r Hr.
      destruct (parseResumeText_returned maxArguments _ r Hr)
        as (_ & n & degrees & skills & lp & _ & _ & _ & _ & ->).
      cbn [email]. rewrite Hm. cbn [option_map matched resultOf]. f_equal.
      destruct (emailRe_match _ _ Hm) as (_ & Htrim & _). exact Htrim.
Qed.

(** An address at the end of a sentence: the dot after it is not taken. *)
Lemma C6_witness :
  exists r found,
    parseResumeText engineLimit (lit "Mail: " ++ address ++ lit ". Thanks")
    = Some (Return r) /\
    String_match (lit "Mail: " ++ address ++ lit ". Thanks") emailRe = Some found /\
    index found = 6 /\
    matched found = address /\
    email r = Some address.
Proof.
  destruct (proj1 (proj1 C6_email_of_first_match engineLimit
                     (lit "Mail: " ++ address ++ lit ". Thanks")))
    as (r & Hr); [vm_compute; discriminate|].
  destruct (proj2 C6_email_of_first_match (lit "Mail: ") (lit ". Thanks"))
    as (found & more & Hm & Hi & _ & Hiff & He).
  - intros i Hi.
    do 6 (destruct i as [|i]; [vm_compute; reflexivity|]).
    simpl in Hi. lia.
  - assert (Ha : matched found = address) by (apply Hiff; reflexivity).
    exists r, found. split; [exact Hr|]. split; [exact Hm|].
    split; [exact Hi|]. split; [exact Ha|].
    rewrite <- Ha. exact (He engineLimit r Hr).
Defined.

(** C6 as stated fails when the address is part of a longer one: in
    "mary.jane.doe@example.com" it is there, from index 5 on, and [email]
    is the whole text. *)
Lemma C6_counterexample_longer_address :
  lit "mary.jane.doe@example.com" = lit "mary." ++ address /\
  exists r,
    parseResumeText engineLimit (lit "mary.jane.doe@example.com") = Some (Return r) /\
    email r = Some (lit "mary.jane.doe@example.com") /\
    email r <> Some address.
Proof.
  split; [reflexivity|]. eexists. split; [vm_compute; reflexivity|].
  split; [reflexivity | discriminate].
Qed.

(** It fails as well when the address runs on behind: before ".au" the
    match takes the second dot and its letters, and before a letter it takes
    the letter. *)
Example address_that_runs_on :
  (exists r,
     parseResumeText engineLimit (address ++ lit ".au") = Some (Return r) /\
     email r = Some (address ++ lit ".au")) /\
  (exists r,
     parseResumeText engineLimit (address ++ lit "pany") = Some (Return r) /\
     email r = Some (address ++ lit "pany")) /\
  goesOn (lit ".au") = true /\ goesOn (lit "pany") = true /\
  goesOn (lit "-1_x.") = false.
Proof.
  split; [eexists; split; vm_compute; reflexivity|].
  split; [eexists; split; vm_compute; reflexivity|].
  repeat split.
Qed.

(* ================================================================== *)
(** * The company after the title                                     *)
(* ================================================================== *)

Module CompanyFacts.
Import GreedyFacts EmailFacts.


















Lemma leading_nonempty ok c t : ok c = true -> leading ok (c :: t) <> [].
Proof. intros H. cbn [leading]. rewrite H. discriminate. Qed.















End CompanyFacts.
Import CompanyFacts.



(* ================================================================== *)
(** * The push of the section's tokens                                *)
(* ================================================================== *)

Module OverflowFacts.

(** A lazy run of single code units goes on as long as its continuation
    refuses. *)
Lemma lazy_run (ok : char16 -> bool) (k : cont) t : forall w x room,
  rest x = w ++ t -> caps x = [] ->
  Forall (fun c => ok c = true) w ->
  (forall a b, w = a ++ b -> b <> [] ->
     k {| prev := lastOf (prev x) a; rest := b ++ t;
          pos := pos x + List.length a; caps := [] |} = None) ->
  List.length w <= room ->
  optionalReps (fun y d => step ok (resetCaps [] y) d) false k room None x
  = optionalReps (fun y d => step ok (resetCaps [] y) d) false k
      (room - List.length w) None
      {| prev := lastOf (prev x) w; rest := t;
         pos := pos x + List.length w; caps := [] |}.
Proof.
  induction w as [|c w IH]; intros x room Hr Hc Hw Hk Hl.
  - simpl in Hr. destruct x as [p r n cs]. cbn [rest caps prev pos] in *.
    subst r cs. cbn [lastOf fold_left List.length]. now rewrite Nat.add_0_r, Nat.sub_0_r.
  - destruct room as [|room]; [simpl in Hl; lia|].
    inversion Hw as [|? ? Hc1 Hw']; subst.
    destruct x as [p r n cs]. cbn [rest caps prev pos] in *. subst r cs.
    cbn [optionalReps option_map].
    pose proof (Hk [] (c :: w) eq_refl ltac:(discriminate)) as H0.
    cbn [lastOf fold_left List.length app] in H0. rewrite Nat.add_0_r in H0.
    cbn [app]. rewrite H0. unfold step at 1.
    cbn [resetCaps rest pos caps prev filter]. rewrite Hc1.
    assert (Hlt : Nat.ltb n (S n) = true) by (apply Nat.ltb_lt; lia).
    rewrite Hlt.
    rewrite (IH {| prev := Some c; rest := w ++ t; pos := S n; caps := [] |}
                room eq_refl eq_refl Hw').
    + cbn [prev pos List.length Nat.sub]. do 2 f_equal. lia.
    + intros a b E Hb. cbn [prev pos].
      specialize (Hk (c :: a) b ltac:(now rewrite E) Hb).
      cbn [List.length] in Hk. rewrite <- Hk. f_equal. f_equal. lia.
    + simpl in Hl. lia.
Qed.


Lemma class_any ic c : class_mem ic false [CsSpace true; CsSpace false] c = true.
Proof.
  unfold class_mem. cbn [existsb cset_mem xorb]. now destruct (isWhiteSpace c).
Qed.

(** A lazy group before the end of a section, on a body that holds no line
    feed and is followed by an empty line: the group takes the body. *)
Lemma lazy_section x (body t : list char16) :
  rest x = body ++ 10%Z :: 10%Z :: t -> caps x = [] ->
  Forall (fun c => c <> 10%Z) body ->
  m true false
    (Group 1 (Repeat (Class false [CsSpace true; CsSpace false]) 0 None false)) x
    (fun s2 => m true false sectionEndRe s2 (fun z => Some z))
  = Some {| prev := Some 10%Z; rest := t; pos := pos x + List.length body + 2;
            caps := [(1, body)] |}.
Proof.
  intros Hr Hc Hb. rewrite m_Group. cbn [m requiredReps groupsOf option_map].
  rewrite (lazy_run _ _ (10%Z :: 10%Z :: t) body x _ Hr Hc).
  - set (y := {| prev := lastOf (prev x) body; rest := 10%Z :: 10%Z :: t;
                 pos := pos x + List.length body; caps := [] |}).
    assert (Hk : m true false sectionEndRe (capture 1 x y) (fun z => Some z)
                 = Some {| prev := Some 10%Z; rest := t;
                           pos := pos x + List.length body + 2;
                           caps := [(1, body)] |}).
    { unfold capture, y. cbn [prev rest pos caps]. rewrite Hr.
      replace (pos x + List.length body - pos x) with (List.length body + 0) by lia.
      rewrite firstn_app_2. cbn [firstn]. rewrite app_nil_r.
      unfold sectionEndRe. cbn [m]. unfold step. cbn [rest prev pos caps].
      change (Z.eqb (canonicalize true 10%Z) (canonicalize true 10%Z)) with true.
      cbv iota. do 2 f_equal. lia. }
    match goal with |- optionalReps _ _ _ ?r None _ = _ => destruct r end;
      cbn [optionalReps]; cbv beta; subst y; now rewrite Hk.
  - apply Forall_forall. intros c _. apply class_any.
  - intros a b E Hne.
    match goal with |- ?l = None => destruct l as [z|] eqn:Ez; [exfalso|reflexivity] end.
    assert (Hs : sectionEnd (b ++ 10%Z :: 10%Z :: t) = true).
    { match type of Ez with m _ _ _ ?y _ = _ =>
        change (b ++ 10%Z :: 10%Z :: t) with (rest y) end.
      apply sectionEndRe_matches. rewrite Ez. discriminate. }
    destruct b as [|c b]; [contradiction|].
    assert (Hc10 : c <> 10%Z).
    { rewrite Forall_forall in Hb. apply Hb. rewrite E. apply in_or_app. right. now left. }
    apply Z.eqb_neq in Hc10. cbn [app] in Hs. unfold sectionEnd in Hs.
    destruct (b ++ 10%Z :: 10%Z :: t) eqn:Eb; [now destruct b|].
    rewrite Hc10 in Hs. discriminate Hs.
  - rewrite Hr, length_app. lia.
Qed.

Lemma skillTokens_no_break n : Forall (fun c => c <> 10%Z) (skillTokens n).
Proof.
  induction n as [|n IH]; [constructor|].
  unfold skillTokens in *. cbn [repeat List.concat].
  apply Forall_app. split; [|exact IH].
  repeat (constructor; [discriminate|]). constructor.
Qed.

Lemma skillsHeading_attempt b t (K : cont) z :
  K {| prev := Some 10%Z; rest := 97%Z :: t; pos := 8; caps := [] |} = Some z ->
  m true false skillsHeading
    {| prev := b; rest := lit "Skills:" ++ LF ++ 97%Z :: t; pos := 0; caps := [] |} K
  = Some z.
Proof.
  intros H.
  assert (E : m true false skillsHeading
                {| prev := b; rest := lit "Skills:" ++ LF ++ 97%Z :: t; pos := 0; caps := [] |} K
              = match
                  match K {| prev := Some 10%Z; rest := 97%Z :: t; pos := 8; caps := [] |} with
                  | Some x => Some x
                  | None => K {| prev := Some 58%Z; rest := 10%Z :: 97%Z :: t; pos := 7;
                                 caps := [] |}
                  end
                with
                | Some x => Some x
                | None => None
                end) by (vm_compute; reflexivity).
  rewrite E, H. reflexivity.
Qed.

Lemma manySkills_attempt n :
  matchAt skillsSectionRe None (manySkills (S n))
  = Some {| prev := Some 10%Z; rest := [];
            pos := 8 + List.length (skillTokens (S n)) + 2;
            caps := [(1, skillTokens (S n))] |}.
Proof.
  unfold matchAt.
  change (pattern skillsSectionRe) with
    (Seq (Seq skillsHeading
              (Group 1 (Repeat (Class false [CsSpace true; CsSpace false]) 0 None false)))
         sectionEndRe).
  cbn [ignoreCase multiline skillsSectionRe]. rewrite !m_Seq.
  change (manySkills (S n))
    with (lit "Skills:" ++ LF ++ 97%Z :: ([98; 99; 44]%Z ++ skillTokens n) ++ LF ++ LF).
  apply skillsHeading_attempt.
  apply (lazy_section
           {| prev := Some 10%Z;
              rest := 97%Z :: ([98; 99; 44]%Z ++ skillTokens n) ++ LF ++ LF;
              pos := 8; caps := [] |} (skillTokens (S n)) []).
  - reflexivity.
  - reflexivity.
  - apply skillTokens_no_break.
Qed.

Lemma separator_refuses b c t :
  separatorChar c = false -> matchAt skillSeparatorRe b (c :: t) = None.
Proof.
  intros Hc. unfold matchAt. rewrite skillSeparatorRe_pattern.
  cbn [ignoreCase multiline skillSeparatorRe m requiredReps]. unfold step.
  cbn [resetCaps rest]. now rewrite class_separator_char, Hc.
Qed.

Lemma split_skillTokens : forall n before,
  splitLoop skillSeparatorRe before (skillTokens n) [] 0
  = repeat (lit "abc") n ++ [[]].
Proof.
  induction n as [|n IH]; intros before; [reflexivity|].
  change (skillTokens (S n)) with (97%Z :: 98%Z :: 99%Z :: 44%Z :: skillTokens n).
  do 3 (cbn [splitLoop]; rewrite separator_refuses by reflexivity).
  cbn [splitLoop].
  match goal with |- context [matchAt ?re ?b ?subject] =>
    assert (E : exists s, matchAt re b subject = Some s /\ pos s = 1) end.
  { destruct n as [|n].
    - eexists. split; [vm_compute; reflexivity | reflexivity].
    - change (skillTokens (S n)) with (97%Z :: 98%Z :: 99%Z :: 44%Z :: skillTokens n).
      eexists. split; [vm_compute; reflexivity | reflexivity]. }
  destruct E as (s & -> & ->). cbn [rev app repeat]. f_equal. apply IH.
Qed.

Lemma filter_repeat {A} (f : A -> bool) x k :
  f x = true -> filter f (repeat x k) = repeat x k.
Proof.
  intros H. induction k as [|k IH]; [reflexivity|].
  cbn [repeat filter]. now rewrite H, IH.
Qed.

Lemma additionalSkills_skillTokens n :
  additionalSkills (skillTokens (S n)) = repeat (lit "abc") (S n).
Proof.
  unfold additionalSkills, split.
  change (skillTokens (S n)) with (97%Z :: 98%Z :: 99%Z :: 44%Z :: skillTokens n) at 1.
  cbv iota.
  change (97%Z :: 98%Z :: 99%Z :: 44%Z :: skillTokens n) with (skillTokens (S n)).
  rewrite split_skillTokens, map_app, filter_app, map_repeat.
  rewrite filter_repeat by reflexivity.
  change (trim (lit "abc")) with (lit "abc"). apply app_nil_r.
Qed.

(** A "Skills" section of [n] names, each followed by a comma: every name
    is a token. *)
Lemma sectionSkills_manySkills n :
  sectionSkills (manySkills (S n)) = repeat (lit "abc") (S n).
Proof.
  unfold sectionSkills.
  rewrite (String_match_first _ _ _ (manySkills_attempt n)).
  unfold group, resultOf. cbn [groups nGroups skillsSectionRe seq List.map Nat.sub nth
                               caps lookupCap Nat.eqb].
  change (truthy (skillTokens (S n))) with true. cbv iota.
  apply additionalSkills_skillTokens.
Qed.

Lemma manySkills_overflow maxArguments :
  parseResumeText maxArguments (manySkills (S (Pos.to_nat maxArguments)))
  = Some (Throw (RangeError (lit "Maximum call stack size exceeded"))).
Proof.
  apply parseResumeText_overflow. rewrite sectionSkills_manySkills, repeat_length.
  lia.
Qed.

End OverflowFacts.
Import OverflowFacts.

(** Where the tokens of the "Skills" section fit in one call,
    [parseResumeText] ends and returns a record: no loop runs for ever and
    nothing is thrown, whatever fuel beyond one round per code unit the
    loops are given, and a search that finds nothing leaves its field
    absent.  On every other text it ends as well, by throwing the
    RangeError of the push. *)
Lemma parseResumeText_ends (maxArguments : positive) (text : jsstring) :
  ((Z.of_nat (List.length (sectionSkills text)) <= Z.pos maxArguments)%Z ->
   exists r,
     parseResumeText maxArguments text = Some (Return r) /\
     (forall fuel, List.length text < fuel ->
        parseResumeTextFor maxArguments fuel text = Some (Return r)) /\
     (String_match text nameRe = None -> name r = None) /\
     (String_match text emailRe = None -> email r = None) /\
     (String_match text phoneRe = None -> phone r = None) /\
     (String_match text experienceRe = None -> totalYears r = None) /\
     (String_match text experienceSectionRe = None -> lastPosition r = None)) /\
  (String_match text skillsSectionRe = None -> sectionSkills text = []) /\
  ((Z.pos maxArguments < Z.of_nat (List.length (sectionSkills text)))%Z ->
   forall fuel, List.length text < fuel ->
     parseResumeTextFor maxArguments fuel text
     = Some (Throw (RangeError (lit "Maximum call stack size exceeded")))).
Proof.
  split; [|split].
  - intros Hfit.
    destruct (parseResumeText_fits maxArguments text Hfit)
      as (n & degrees & found & lp & Hn & _ & _ & Hl & Hr).
    eexists. split; [exact Hr|]. cbn [name email phone totalYears lastPosition].
    split; [|repeat split].
    + intros fuel Hf. rewrite (parseResumeTextFor_stable maxArguments text fuel Hf).
      exact Hr.
    + intros E. unfold nameOf in Hn. rewrite E in Hn. now injection Hn as <-.
    + now intros ->.
    + now intros ->.
    + intros E. unfold totalYearsOf. now rewrite E.
    + intros E. unfold lastPositionOf in Hl. rewrite E in Hl. now injection Hl as <-.
  - intros E. unfold sectionSkills. now rewrite E.
  - intros Hover fuel Hf.
    rewrite (parseResumeTextFor_stable maxArguments text fuel Hf).
    now apply parseResumeText_overflow.
Qed.

(** C4. On the failing input, a text whose "Skills" section lists one name
    more than the engine passes in one call: the push of the section's
    tokens throws a RangeError and [parseResumeText] returns no record.
    There is such a text for every limit, so no engine lets every text
    through.  On the texts whose section fits, the function does what the
    claim says: it ends and returns a record whose fields are absent where
    the search found nothing. *)
Theorem C4_section_skills_beyond_the_limit_throw :
  parseResumeText engineLimit (manySkills (S (Pos.to_nat engineLimit)))
  = Some (Throw (RangeError (lit "Maximum call stack size exceeded"))) /\
  (forall maxArguments,
     parseResumeText maxArguments (manySkills (S (Pos.to_nat maxArguments)))
     = Some (Throw (RangeError (lit "Maximum call stack size exceeded")))) /\
  ~ (exists maxArguments, forall text, exists r,
       parseResumeText maxArguments text = Some (Return r)) /\
  (forall maxArguments text,
     (Z.of_nat (List.length (sectionSkills text)) <= Z.pos maxArguments)%Z ->
     exists r,
       parseResumeText maxArguments text = Some (Return r) /\
       (forall fuel, List.length text < fuel ->
          parseResumeTextFor maxArguments fuel text = Some (Return r)) /\
       (String_match text nameRe = None -> name r = None) /\
       (String_match text emailRe = None -> email r = None) /\
       (String_match text phoneRe = None -> phone r = None) /\
       (String_match text experienceRe = None -> totalYears r = None) /\
       (String_match text experienceSectionRe = None -> lastPosition r = None)) /\
  (forall maxArguments,
     parseResumeText maxArguments (lit "hello") = Some (Return blank)).
Proof.
  split; [apply manySkills_overflow|].
  split; [exact manySkills_overflow|].
  split.
  - intros (maxArguments & H).
    destruct (H (manySkills (S (Pos.to_nat maxArguments)))) as (r & Hr).
    rewrite manySkills_overflow in Hr. discriminate Hr.
  - split; [intros maxArguments text; exact (proj1 (parseResumeText_ends maxArguments text))|].
    intros maxArguments. vm_compute. reflexivity.
Qed.
